(** * SecLogAI: log ingestion, truncation, generation and aggregation

  A shallow embedding of [src/services/geminiService.ts] and of the
  state-handling part of the [App] component, with the properties the
  specification states about them.

  Conventions of the embedding:
  - a JavaScript string is the list of its UTF-16 code units ([jsstring]),
    so [length] is the [.length] of the source;
  - a JavaScript number is an exact rational ([Q]); IEEE-754 rounding is
    not represented;
  - a [LogEntry] is the record the TypeScript interface declares, every
    property being present or absent ([option]), as on an object that came
    out of [JSON.parse];
  - [JSON.parse] is written out (the grammar of ECMA-404); the limits an
    engine puts on nesting are not represented;
  - what the program obtains from its runtime and cannot compute itself
    (the clock, [Math.random], the text form of dates, the local time
    zone, [JSON.stringify]) is gathered in a [Runtime] record that the
    functions take as an argument;
  - an exception is the [Throw] constructor of [Result];
  - of an [async] function only the part before its first [await] is
    followed: the call it makes to the analyser. *)

From Stdlib Require String Ascii DecimalString DecimalZ.
Import String.StringSyntax.
From Stdlib Require Import ZArith NArith List QArith Qround.
From Stdlib Require Import Bool Lia Lqa Sorted Permutation.
From Equations Require Import Equations.
Import ListNotations.

Local Open Scope string_scope.
Local Open Scope Z_scope.
#[local] Set Warnings "-register-all".

(* ===================================================================== *)
(** ** JavaScript strings and arrays *)
(* ===================================================================== *)

Module JS.

(** A string value: its sequence of UTF-16 code units. *)
Definition jsstring := list N.

(** An ASCII literal of the source text. *)
Definition lit (s : String.string) : jsstring :=
  map Ascii.N_of_ascii (String.list_ascii_of_string s).

Fixpoint str_eqb (a b : jsstring) : bool :=
  match a, b with
  | [], [] => true
  | c :: a', d :: b' => (c =? d)%N && str_eqb a' b'
  | _, _ => false
  end.

(** [s.startsWith(p)] *)
Fixpoint startsWith (s p : jsstring) {struct p} : bool :=
  match p, s with
  | [], _ => true
  | c :: p', d :: s' => (d =? c)%N && startsWith s' p'
  | _ :: _, [] => false
  end.

(** [s.includes(p)] *)
Fixpoint includes (s p : jsstring) : bool :=
  startsWith s p ||
  match s with
  | [] => false
  | _ :: s' => includes s' p
  end.

(** The code units [String.prototype.trim] strips: WhiteSpace and
    LineTerminator of ECMAScript. *)
Definition isWhiteSpace (c : N) : bool :=
  ((9 <=? c) && (c <=? 13) || (c =? 32) || (c =? 160) || (c =? 5760)
   || (8192 <=? c) && (c <=? 8202) || (c =? 8232) || (c =? 8233)
   || (c =? 8239) || (c =? 8287) || (c =? 12288) || (c =? 65279))%N.

Fixpoint trimStart (s : jsstring) : jsstring :=
  match s with
  | [] => []
  | c :: s' => if isWhiteSpace c then trimStart s' else s
  end.

Fixpoint trimEnd (s : jsstring) : jsstring :=
  match s with
  | [] => []
  | c :: s' =>
      match trimEnd s' with
      | [] => if isWhiteSpace c then [] else [c]
      | t => c :: t
      end
  end.

(** [s.trim()] *)
Definition trim (s : jsstring) : jsstring := trimEnd (trimStart s).

(** Truthiness of a string: the empty string is falsy. *)
Definition truthy (s : jsstring) : bool :=
  match s with [] => false | _ :: _ => true end.

(** [s.split(sep)] for a separator of one code unit. *)
Fixpoint split (sep : N) (s : jsstring) : list jsstring :=
  match s with
  | [] => [[]]
  | c :: s' =>
      if (c =? sep)%N then [] :: split sep s'
      else match split sep s' with
           | l :: ls => (c :: l) :: ls
           | [] => [[c]]
           end
  end.

(** [s.substring(a, b)]: both indices are clamped to [0 .. length] and
    swapped when out of order. *)
Definition substring (s : jsstring) (a b : Z) : jsstring :=
  let len := Z.of_nat (length s) in
  let a' := Z.min (Z.max a 0) len in
  let b' := Z.min (Z.max b 0) len in
  let from := Z.min a' b' in
  let to := Z.max a' b' in
  firstn (Z.to_nat (to - from)) (skipn (Z.to_nat from) s).

(** ASCII part of [s.toLowerCase()]: the letters A-Z.  No other code
    unit lowers to one of the letters of the word the program looks for. *)
Definition toLowerCase (s : jsstring) : jsstring :=
  map (fun c => if ((65 <=? c) && (c <=? 90))%N then (c + 32)%N else c) s.

(** [a.slice(start, end)]: a negative index counts from the end; an
    absent [end] is the length. *)
Definition slice {A : Type} (l : list A) (start : Z) (end_ : option Z)
  : list A :=
  let len := Z.of_nat (length l) in
  let rel i := if i <? 0 then Z.max (len + i) 0 else Z.min i len in
  let k := rel start in
  let final := match end_ with None => len | Some e => rel e end in
  firstn (Z.to_nat (Z.max (final - k) 0)) (skipn (Z.to_nat k) l).

(** [a.sort(cmp)]: the sort of ECMAScript is stable; an element is moved
    in front of another only when the comparator says it is smaller.
    Written as the insertion of each element, in order, into the sorted
    prefix. *)
Fixpoint insert {A : Type} (cmp : A -> A -> Z) (x : A) (l : list A)
  : list A :=
  match l with
  | [] => [x]
  | y :: l' => if cmp x y <? 0 then x :: l else y :: insert cmp x l'
  end.

Definition sort {A : Type} (cmp : A -> A -> Z) (l : list A) : list A :=
  fold_left (fun acc x => insert cmp x acc) l [].

(** Two decimal digits, as [format] prints hours and minutes. *)
Definition pad2 (n : Z) : jsstring :=
  [Z.to_N (48 + (n / 10) mod 10); Z.to_N (48 + n mod 10)].

(** Order of two strings by code units. *)
Fixpoint compare (a b : jsstring) : comparison :=
  match a, b with
  | [], [] => Eq
  | [], _ :: _ => Lt
  | _ :: _, [] => Gt
  | c :: a', d :: b' =>
      match (c ?= d)%N with
      | Eq => compare a' b'
      | o => o
      end
  end.

(** [a.localeCompare(b)].  The program applies it to time labels only
    (two digits, a colon, two digits), on which collation is the order
    of the code units. *)
Definition localeCompare (a b : jsstring) : Z :=
  match compare a b with Lt => -1 | Eq => 0 | Gt => 1 end.

End JS.
Export JS.

(* ===================================================================== *)
(** ** JSON values and [JSON.parse] *)
(* ===================================================================== *)

Module Json.

(** The values [JSON.parse] produces.  An object keeps its properties in
    the order they were first written. *)
Inductive JSON : Type :=
| JNull
| JBool (b : bool)
| JNum (q : Q)
| JStr (s : jsstring)
| JArr (elems : list JSON)
| JObj (props : list (jsstring * JSON)).

(** [Array.isArray(v)] *)
Definition isArray (v : JSON) : bool :=
  match v with JArr _ => true | _ => false end.

(** The elements of an array. *)
Definition elements (v : JSON) : list JSON :=
  match v with JArr elems => elems | _ => [] end.

Fixpoint lookup (k : jsstring) (props : list (jsstring * JSON))
  : option JSON :=
  match props with
  | [] => None
  | (k', v) :: ps => if str_eqb k k' then Some v else lookup k ps
  end.

(** Defining a property: a key written a second time keeps its place and
    takes the new value. *)
Fixpoint set_prop (k : jsstring) (v : JSON) (props : list (jsstring * JSON))
  : list (jsstring * JSON) :=
  match props with
  | [] => [(k, v)]
  | (k', v') :: ps =>
      if str_eqb k k' then (k', v) :: ps else (k', v') :: set_prop k v ps
  end.

(** Outcome of a parsing function: a value and the text left to read, a
    syntax error, or a recursion budget that ran out. *)
Inductive presult (A : Type) : Type :=
| POk (a : A) (rest : jsstring)
| PSyntax
| PFuel.
Arguments POk {A} a rest.
Arguments PSyntax {A}.
Arguments PFuel {A}.

Definition pmap {A B : Type} (f : A -> B) (r : presult A) : presult B :=
  match r with
  | POk a rest => POk (f a) rest
  | PSyntax => PSyntax
  | PFuel => PFuel
  end.

(** The four white-space characters of the JSON grammar. *)
Definition isJsonWs (c : N) : bool :=
  ((c =? 32) || (c =? 9) || (c =? 10) || (c =? 13))%N.

Fixpoint skip_ws (s : jsstring) : jsstring :=
  match s with
  | [] => []
  | c :: s' => if isJsonWs c then skip_ws s' else s
  end.

Definition isDigit (c : N) : bool := ((48 <=? c) && (c <=? 57))%N.

Definition hexval (c : N) : option N :=
  if isDigit c then Some (c - 48)%N
  else if ((97 <=? c) && (c <=? 102))%N then Some (c - 87)%N
  else if ((65 <=? c) && (c <=? 70))%N then Some (c - 55)%N
  else None.

Definition hex4 (a b c d : N) : option N :=
  match hexval a, hexval b, hexval c, hexval d with
  | Some x, Some y, Some z, Some w =>
      Some (((x * 16 + y) * 16 + z) * 16 + w)%N
  | _, _, _, _ => None
  end.

(** The character a one-letter escape stands for. *)
Definition escape (e : N) : option N :=
  if (e =? 34)%N then Some 34%N           (* quote *)
  else if (e =? 92)%N then Some 92%N      (* backslash *)
  else if (e =? 47)%N then Some 47%N      (* solidus *)
  else if (e =? 98)%N then Some 8%N       (* backspace *)
  else if (e =? 102)%N then Some 12%N     (* form feed *)
  else if (e =? 110)%N then Some 10%N     (* line feed *)
  else if (e =? 114)%N then Some 13%N     (* carriage return *)
  else if (e =? 116)%N then Some 9%N      (* tab *)
  else None.

(** The characters of a string literal, after its opening quote. *)
Fixpoint parse_chars (s : jsstring) (acc : jsstring) : presult jsstring :=
  match s with
  | [] => PSyntax
  | c :: s' =>
      if (c =? 34)%N then POk (rev acc) s'
      else if (c =? 92)%N then
        match s' with
        | [] => PSyntax
        | e :: s'' =>
            if (e =? 117)%N then
              match s'' with
              | h1 :: h2 :: h3 :: h4 :: s3 =>
                  match hex4 h1 h2 h3 h4 with
                  | Some u => parse_chars s3 (u :: acc)
                  | None => PSyntax
                  end
              | _ => PSyntax
              end
            else
              match escape e with
              | Some u => parse_chars s'' (u :: acc)
              | None => PSyntax
              end
        end
      else if (c <? 32)%N then PSyntax
      else parse_chars s' (c :: acc)
  end.

(** A run of digits: its value, how many there were, and the rest. *)
Fixpoint take_digits (s : jsstring) (acc : Z) (n : Z)
  : Z * Z * jsstring :=
  match s with
  | [] => (acc, n, [])
  | c :: s' =>
      if isDigit c then take_digits s' (acc * 10 + Z.of_N (c - 48)) (n + 1)
      else (acc, n, s)
  end.

(** The number [m * 10 ^ e]. *)
Definition decimal (m e : Z) : Q :=
  if 0 <=? e then inject_Z (m * 10 ^ e)
  else Qmake m (Z.to_pos (10 ^ (- e))).

(** A number literal: [-? int frac? exp?]. *)
Definition parse_number (s : jsstring) : presult Q :=
  let (neg, s1) :=
    match s with
    | c :: s' => if (c =? 45)%N then (true, s') else (false, s)
    | [] => (false, s)
    end in
  let int_part :=
    match s1 with
    | c :: s' =>
        if (c =? 48)%N then Some (0, s')
        else if isDigit c then
          let '(v, _, r) := take_digits s1 0 0 in Some (v, r)
        else None
    | [] => None
    end in
  match int_part with
  | None => PSyntax
  | Some (i, s2) =>
      let frac_part :=
        match s2 with
        | c :: s' =>
            if (c =? 46)%N then
              let '(v, n, r) := take_digits s' i 0 in
              if n =? 0 then None else Some (v, n, r)
            else Some (i, 0, s2)
        | [] => Some (i, 0, s2)
        end in
      match frac_part with
      | None => PSyntax
      | Some (m, fd, s3) =>
          let exp_part :=
            match s3 with
            | c :: s' =>
                if ((c =? 101) || (c =? 69))%N then
                  let (sg, s4) :=
                    match s' with
                    | d :: s'' =>
                        if (d =? 45)%N then (-1, s'')
                        else if (d =? 43)%N then (1, s'')
                        else (1, s')
                    | [] => (1, s')
                    end in
                  let '(v, n, r) := take_digits s4 0 0 in
                  if n =? 0 then None else Some (sg * v, r)
                else Some (0, s3)
            | [] => Some (0, s3)
            end in
          match exp_part with
          | None => PSyntax
          | Some (e, s5) =>
              POk (decimal (if neg : bool then - m else m) (e - fd)) s5
          end
      end
  end.

(** One of the three literal names. *)
Definition parse_word (w : String.string) (v : JSON) (s : jsstring)
  : presult JSON :=
  if startsWith s (lit w) then POk v (skipn (length (lit w)) s)
  else PSyntax.

(** A value, the elements of an array after its bracket, the members of
    an object after its brace.  [fuel] bounds the depth of the calls. *)
Fixpoint parse_value (fuel : nat) (s : jsstring) : presult JSON :=
  match fuel with
  | O => PFuel
  | S f =>
      match skip_ws s with
      | [] => PSyntax
      | c :: r =>
          if (c =? 91)%N then
            match skip_ws r with
            | d :: r' =>
                if (d =? 93)%N then POk (JArr []) r'
                else parse_elements f r []
            | [] => PSyntax
            end
          else if (c =? 123)%N then
            match skip_ws r with
            | d :: r' =>
                if (d =? 125)%N then POk (JObj []) r'
                else parse_members f r []
            | [] => PSyntax
            end
          else if (c =? 34)%N then pmap JStr (parse_chars r [])
          else if (c =? 110)%N then parse_word "null" JNull (c :: r)
          else if (c =? 116)%N then parse_word "true" (JBool true) (c :: r)
          else if (c =? 102)%N then parse_word "false" (JBool false) (c :: r)
          else pmap JNum (parse_number (c :: r))
      end
  end
with parse_elements (fuel : nat) (s : jsstring) (acc : list JSON)
  : presult JSON :=
  match fuel with
  | O => PFuel
  | S f =>
      match parse_value f s with
      | POk v r =>
          match skip_ws r with
          | d :: r' =>
              if (d =? 44)%N then parse_elements f r' (v :: acc)
              else if (d =? 93)%N then POk (JArr (rev (v :: acc))) r'
              else PSyntax
          | [] => PSyntax
          end
      | PSyntax => PSyntax
      | PFuel => PFuel
      end
  end
with parse_members (fuel : nat) (s : jsstring)
       (acc : list (jsstring * JSON)) : presult JSON :=
  match fuel with
  | O => PFuel
  | S f =>
      match skip_ws s with
      | q :: r =>
          if (q =? 34)%N then
            match parse_chars r [] with
            | POk k r1 =>
                match skip_ws r1 with
                | c :: r2 =>
                    if (c =? 58)%N then
                      match parse_value f r2 with
                      | POk v r3 =>
                          match skip_ws r3 with
                          | d :: r4 =>
                              if (d =? 44)%N then
                                parse_members f r4 (set_prop k v acc)
                              else if (d =? 125)%N then
                                POk (JObj (set_prop k v acc)) r4
                              else PSyntax
                          | [] => PSyntax
                          end
                      | PSyntax => PSyntax
                      | PFuel => PFuel
                      end
                    else PSyntax
                | [] => PSyntax
                end
            | PSyntax => PSyntax
            | PFuel => PFuel
            end
          else PSyntax
      | [] => PSyntax
      end
  end.

(** Recursion budget for a text: every call of the three functions above
    is made on a text that lost a character since the call two levels
    up, so twice the length is never exhausted ([JSON_parse_fuel]). *)
Definition fuel_for (text : jsstring) : nat := 2 * length text + 2.

(** [JSON.parse(text)]: one value, white space around it, nothing else.
    [None] is the [SyntaxError] the source catches. *)
Definition JSON_parse (text : jsstring) : option JSON :=
  match parse_value (fuel_for text) text with
  | POk v rest =>
      match skip_ws rest with
      | [] => Some v
      | _ :: _ => None
      end
  | PSyntax => None
  | PFuel => None
  end.

End Json.
Export Json.

(* ===================================================================== *)
(** ** Log entries, exceptions and the runtime *)
(* ===================================================================== *)

Module Model.

(** [interface LogEntry].  A property is [None] when the object does not
    carry it ([undefined] when read). *)
Record LogEntry : Type := mkLogEntry {
  timestamp : option jsstring;
  event_id : option (jsstring + Q);
  user : option jsstring;
  ip : option jsstring;
  action : option jsstring;
  status_code : option Q;
  user_agent : option jsstring;
  severity : option jsstring;
  message : option jsstring
}.

(** Reading a property of a parsed value; only an object carries one. *)
Definition prop (v : JSON) (k : String.string) : option JSON :=
  match v with
  | JObj ps => lookup (lit k) ps
  | _ => None
  end.

Definition as_string (o : option JSON) : option jsstring :=
  match o with Some (JStr s) => Some s | _ => None end.

Definition as_number (o : option JSON) : option Q :=
  match o with Some (JNum q) => Some q | _ => None end.

Definition as_id (o : option JSON) : option (jsstring + Q) :=
  match o with
  | Some (JStr s) => Some (inl s)
  | Some (JNum q) => Some (inr q)
  | _ => None
  end.

(** A parsed value taken as a [LogEntry], which is all the source does
    with it (the value is typed [any]): each declared property is read at
    its declared type.  Nothing is checked and nothing is filled in; a
    property of another type is outside the interface and reads as
    absent. *)
Definition LogEntry_of (v : JSON) : LogEntry :=
  {| timestamp := as_string (prop v "timestamp");
     event_id := as_id (prop v "event_id");
     user := as_string (prop v "user");
     ip := as_string (prop v "ip");
     action := as_string (prop v "action");
     status_code := as_number (prop v "status_code");
     user_agent := as_string (prop v "user_agent");
     severity := as_string (prop v "severity");
     message := as_string (prop v "message") |}.

(** Exceptions the modelled code can meet. *)
Inductive Exn : Type := SyntaxError | RangeError.

Inductive Result (A : Type) : Type :=
| Ok (a : A)
| Throw (e : Exn).
Arguments Ok {A} a.
Arguments Throw {A} e.

Definition bind {A B : Type} (r : Result A) (k : A -> Result B)
  : Result B :=
  match r with
  | Ok a => k a
  | Throw e => Throw e
  end.

(** [try { body } catch (err) { handler }] *)
Definition try_catch {A : Type} (body : Result A) (handler : Exn -> Result A)
  : Result A :=
  match body with
  | Ok a => Ok a
  | Throw e => handler e
  end.

(** What the program asks of its runtime. *)
Record Runtime : Type := mkRuntime {
  (** [new Date().getTime()] at the n-th reading of the clock *)
  clock : nat -> Z;
  (** the n-th result of [Math.random()] *)
  random : nat -> Q;
  (** [new Date(t).toISOString()] *)
  toISOString : Z -> jsstring;
  (** [new Date(s).getTime()]; [None] is [NaN], an invalid date *)
  Date_parse : jsstring -> option Z;
  (** offset of local time from UTC at an instant, in milliseconds *)
  LocalTZA : Z -> Z;
  (** [JSON.stringify(logs)] *)
  JSON_stringify : list LogEntry -> jsstring;
  (** [JSON.stringify(logs, null, 2)] *)
  JSON_stringify_indent : list LogEntry -> jsstring
}.

(** [new Date(l.timestamp).getTime()]: [undefined] gives an invalid date. *)
Definition getTime (rt : Runtime) (l : LogEntry) : option Z :=
  match timestamp l with
  | Some s => Date_parse rt s
  | None => None
  end.

(** The instants a [Date] can hold: 8.64e15 milliseconds either side of
    the epoch.  Outside of them [toISOString] raises an exception; the
    properties below are stated for runs that stay inside. *)
Definition valid_instant (t : Z) : Prop :=
  -8640000000000000 <= t <= 8640000000000000.

(** What ECMAScript promises of the two date functions: the text
    [toISOString] prints for an instant is read back as that instant. *)
Definition iso_roundtrip (rt : Runtime) : Prop :=
  forall t : Z, valid_instant t -> Date_parse rt (toISOString rt t) = Some t.

(** What it promises of [Math.random]: a number from 0 up to, not
    including, 1. *)
Definition unit_random (rt : Runtime) : Prop :=
  forall k : nat, (0 <= random rt k)%Q /\ (random rt k < 1)%Q.

(** A reading of the clock from which one can go an hour back and seven
    seconds forward, as the generator does, and still have a date. *)
Definition in_margin (now : Z) : Prop :=
  valid_instant (now - 3600000) /\ valid_instant (now + 7000).

End Model.
Export Model.

Notation "x <- r ;; k" := (bind r (fun x => k))
(at level 61, r at next level, right associativity).

(* ===================================================================== *)
(** ** The analysis service: truncation and the demo generator *)
(* ===================================================================== *)

Module Service.

(** *** [analyzeLogsWithGemini]: the text handed to the model *)

Definition MAX_CHARS : Z := 500000.

(** The note appended to a truncated text. *)
Definition truncation_notice : jsstring :=
  [10%N; 10%N] ++
  lit "[NOTE: Logs were truncated for analysis due to size constraints. Showing first 500k characters.]".

(** The two variables [processedLogs] and [truncationNote] after the
    [if]. *)
Definition truncate (logs : jsstring) : jsstring * jsstring :=
  let processedLogs := logs in
  let truncationNote := [] in
  if Z.of_nat (length logs) >? MAX_CHARS
  then (substring logs 0 MAX_CHARS, truncation_notice)
  else (processedLogs, truncationNote).

(** [analyzeLogsWithGemini(logs)] up to its [await]: the [text] of the
    request it makes, the template literal of the source. *)
Definition analyzeLogsWithGemini (logs : jsstring) : jsstring :=
  let (processedLogs, truncationNote) := truncate logs in
  lit "Analyze these logs:" ++ [10%N] ++ processedLogs ++ truncationNote.

(** The truncator as a contract: the payload that follows the heading,
    and whether a note was attached to it. *)
Definition prepare (raw : jsstring) : jsstring * bool :=
  let (processedLogs, truncationNote) := truncate raw in
  (processedLogs ++ truncationNote, truthy truncationNote).

(** *** [generateDemoLogs] *)

Definition ips : list jsstring :=
  map lit ["192.168.1.10"; "10.0.0.5"; "203.0.113.5"; "45.33.22.11";
           "172.16.0.44"].
Definition users : list jsstring :=
  map lit ["admin"; "root"; "jdoe"; "guest"; "service_account"].
Definition actions : list jsstring :=
  map lit ["LOGIN_SUCCESS"; "LOGIN_FAILED"; "FILE_ACCESS"; "SUDO_EXEC";
           "PROCESS_START"].

(** The integer a [Date] keeps of a time value: the fraction is dropped. *)
Definition Qtrunc (x : Q) : Z :=
  if Qle_bool 0 x then Qfloor x else Qceiling x.

Definition Qlt_bool (x y : Q) : bool := negb (Qle_bool y x).

(** [pool[Math.floor(r * pool.length)]] *)
Definition pick {A : Type} (pool : list A) (r : Q) : option A :=
  let i := Qfloor (r * inject_Z (Z.of_nat (length pool))) in
  if i <? 0 then None else nth_error pool (Z.to_nat i).

Fixpoint mapM {A B : Type} (f : A -> Result B) (l : list A)
  : Result (list B) :=
  match l with
  | [] => Ok []
  | a :: l' => b <- f a ;; bs <- mapM f l' ;; Ok (b :: bs)
  end.

(** The entry pushed at step [j] of a burst.  [toISOString] raises
    [RangeError] on an invalid date. *)
Definition burst_entry (rt : Runtime) (timestamp : jsstring) (j : Z)
  : Result LogEntry :=
  match Date_parse rt timestamp with
  | None => Throw RangeError
  | Some t =>
      Ok {| timestamp := Some (toISOString rt (t + j * 1000));
            ip := nth_error ips 2;
            user := nth_error users 0;
            action := Some (lit "LOGIN_FAILED");
            event_id := Some (inr (inject_Z 4625));
            severity := Some (lit "High");
            status_code := None;
            user_agent := None;
            message := None |}
  end.

(** The entry of an ordinary slot; five more numbers are drawn. *)
Definition normal_entry (rt : Runtime) (timestamp : jsstring) (k : nat)
  : LogEntry :=
  {| timestamp := Some timestamp;
     ip := pick ips (random rt k);
     user := pick users (random rt (k + 1));
     action := pick actions (random rt (k + 2));
     event_id :=
       Some (inr (inject_Z
                    (if Qlt_bool (1 # 2) (random rt (k + 3))
                     then 4624 else 4625)));
     status_code :=
       Some (inject_Z
               (if Qlt_bool (8 # 10) (random rt (k + 4))
                then 403 else 200));
     severity := Some (lit "Info");
     user_agent := None;
     message := None |}.

(** The instant of a slot: [now.getTime() - Math.random() * 3600000]. *)
Definition slot_instant (rt : Runtime) (now : Z) (k : nat) : Z :=
  Qtrunc (inject_Z now - random rt k * inject_Z 3600000).

Definition isAttack (rt : Runtime) (k : nat) : bool :=
  Qlt_bool (random rt (k + 1)) (5 # 100).

(** The body of the loop at one slot, the random numbers being drawn
    from index [k] on: the entries pushed, and whether it was a burst. *)
Definition slot (rt : Runtime) (now : Z) (k : nat)
  : Result (list LogEntry * bool) :=
  let timestamp := toISOString rt (slot_instant rt now k) in
  if isAttack rt k then
    pushed <- mapM (burst_entry rt timestamp) (map Z.of_nat (seq 0 8)) ;;
    Ok (pushed, true)
  else Ok ([normal_entry rt timestamp (k + 2)], false).

(** [for (let i = 0; i < count; i++)], from a given [i]: a burst adds 7
    to [i] before the increment of the loop.  The result carries the
    index of the next random number. *)
Equations? gen_loop (rt : Runtime) (now count i : Z) (k : nat)
  (logs : list LogEntry) : Result (list LogEntry * nat)
  by wf (Z.to_nat (count - i)) lt :=
  gen_loop rt now count i k logs with Z_lt_dec i count => {
    | right _ => Ok (logs, k);
    | left _ with slot rt now k => {
        | Throw e => Throw e;
        | Ok (pushed, true) =>
            gen_loop rt now count (i + 7 + 1) (k + 2) (logs ++ pushed);
        | Ok (pushed, false) =>
            gen_loop rt now count (i + 1) (k + 7) (logs ++ pushed) } }.
Proof. all: lia. Qed.

(** The comparator of the final sort; [NaN] counts as zero. *)
Definition by_time (rt : Runtime) (a b : LogEntry) : Z :=
  match getTime rt a, getTime rt b with
  | Some x, Some y => x - y
  | _, _ => 0
  end.

(** [generateDemoLogs(count)], the clock being read for the [c]-th time
    and the random numbers drawn from index [k] on. *)
Definition generateDemoLogs (rt : Runtime) (c k : nat) (count : Z)
  : Result (list LogEntry * nat) :=
  let now := clock rt c in
  r <- gen_loop rt now count 0 k [] ;;
  Ok (sort (by_time rt) (fst r), snd r).

End Service.
Export Service.

(* ===================================================================== *)
(** ** The application: state, upload, chat, statistics, timeline *)
(* ===================================================================== *)

Module App.

(** The part of the component's state the handlers below touch, and
    what they have done to the outside: [analyzed] lists, oldest first,
    the arguments [analyzeLogsWithGemini] was called with; the two
    counters say how often the clock and [Math.random] were read. *)
Record State : Type := mkState {
  logs : list LogEntry;
  analyzed : list jsstring;
  clock_reads : nat;
  random_reads : nat
}.

Definition setLogs (l : list LogEntry) (st : State) : State :=
  {| logs := l; analyzed := analyzed st;
     clock_reads := clock_reads st; random_reads := random_reads st |}.

(** [processLogs(logText)] up to its first [await]: the call of
    [analyzeLogsWithGemini(logText)].  An [async] function reports its
    failures through its promise, never to its caller. *)
Definition processLogs (logText : jsstring) (st : State) : State :=
  {| logs := logs st; analyzed := analyzed st ++ [logText];
     clock_reads := clock_reads st; random_reads := random_reads st |}.

Definition read_clock (n : nat) (st : State) : State :=
  {| logs := logs st; analyzed := analyzed st;
     clock_reads := clock_reads st + n; random_reads := random_reads st |}.

Definition set_random_reads (k : nat) (st : State) : State :=
  {| logs := logs st; analyzed := analyzed st;
     clock_reads := clock_reads st; random_reads := k |}.

(** *** [handleFileUpload]: the [onload] callback of the reader *)

(** The entry made of one line of text, the clock being read for the
    [c]-th time. *)
Definition raw_entry (rt : Runtime) (c : nat) (line : jsstring) : LogEntry :=
  {| timestamp := Some (toISOString rt (clock rt c));
     ip := Some (lit "Unknown");
     action := Some (lit "RAW_LOG");
     message := Some line;
     event_id := None; user := None; status_code := None;
     user_agent := None; severity := None |}.

(** [lines.map(line => ...)]: one reading of the clock per line. *)
Fixpoint raw_entries (rt : Runtime) (c : nat) (lines : list jsstring)
  : list LogEntry :=
  match lines with
  | [] => []
  | line :: rest => raw_entry rt c line :: raw_entries rt (S c) rest
  end.

(** [text.split('\n').filter(l => l.trim())] *)
Definition nonblank_lines (text : jsstring) : list jsstring :=
  filter (fun l => truthy (trim l)) (split 10%N text).

Definition looks_structured (text : jsstring) : bool :=
  startsWith (trim text) (lit "[") || startsWith (trim text) (lit "{").

(** The [try] block. *)
Definition upload_try (rt : Runtime) (st : State) (text : jsstring)
  : Result State :=
  st1 <-
    (if looks_structured text then
       match JSON_parse text with
       | None => Throw SyntaxError
       | Some parsed =>
           Ok (setLogs
                 (map LogEntry_of
                    (if isArray parsed then elements parsed else [parsed]))
                 st)
       end
     else
       let lines := nonblank_lines text in
       let parsedLogs := raw_entries rt (clock_reads st) lines in
       Ok (setLogs parsedLogs (read_clock (length lines) st))) ;;
  Ok (processLogs text st1).

(** The whole callback: [try { ... } catch (err) { processLogs(text) }]. *)
Definition handleFileUpload (rt : Runtime) (st : State) (text : jsstring)
  : Result State :=
  try_catch (upload_try rt st text)
            (fun _ => Ok (processLogs text st)).

(** *** [handleDemo] and [handleChatSubmit] *)

Definition handleDemo (rt : Runtime) (st : State) : Result State :=
  r <- generateDemoLogs rt (clock_reads st) (random_reads st) 150 ;;
  let demoLogs := fst r in
  Ok (processLogs (JSON_stringify_indent rt demoLogs)
        (setLogs demoLogs
           (set_random_reads (snd r) (read_clock 1 st)))).

(** The constant [context] of [handleChatSubmit]. *)
Definition context (rt : Runtime) (logs : list LogEntry) : jsstring :=
  if Z.of_nat (length logs) >? 0
  then lit "Current Logs Context: "
       ++ JSON_stringify rt (slice logs 0 (Some 50)) ++ [10%N; 10%N]
  else [].

(** The text given to the analyser for a chat message:
    [context + userMsg]. *)
Definition buildContext (rt : Runtime) (logs : list LogEntry)
  (userMsg : jsstring) : jsstring :=
  context rt logs ++ userMsg.

Definition handleChatSubmit (rt : Runtime) (st : State)
  (chatInput : jsstring) : Result State :=
  if negb (truthy (trim chatInput)) then Ok st
  else
    let userMsg := chatInput in
    if includes (toLowerCase userMsg) (lit "demo") then handleDemo rt st
    else Ok (processLogs (buildContext rt (logs st) userMsg) st).

(** *** The dashboard statistics *)

Module Stats.
Record t : Type := mk {
  total : nat;
  failed : nat;
  uniqueIps : nat;
  critical : nat
}.
End Stats.

(** [l.action?.includes(pat)] *)
Definition action_includes (l : LogEntry) (pat : String.string) : bool :=
  match action l with
  | Some a => includes a (lit pat)
  | None => false
  end.

(** [x === n] for a number literal [n] *)
Definition num_is (x : option Q) (n : Z) : bool :=
  match x with
  | Some q => Qeq_bool q (inject_Z n)
  | None => false
  end.

Definition id_is (x : option (jsstring + Q)) (n : Z) : bool :=
  match x with
  | Some (inr q) => Qeq_bool q (inject_Z n)
  | _ => false
  end.

(** [x === s] for a string literal [s] *)
Definition str_is (x : option jsstring) (s : String.string) : bool :=
  match x with
  | Some y => str_eqb y (lit s)
  | None => false
  end.

(** The predicate of [stats.failed]. *)
Definition is_failed (l : LogEntry) : bool :=
  action_includes l "FAILED" || num_is (status_code l) 403
  || id_is (event_id l) 4625.

Definition is_critical (l : LogEntry) : bool :=
  str_is (severity l) "Critical" || str_is (severity l) "High".

Definition opt_string_dec (a b : option jsstring) : {a = b} + {a <> b}.
Proof. decide equality. apply (list_eq_dec N.eq_dec). Defined.

Definition stats (logs : list LogEntry) : Stats.t :=
  {| Stats.total := length logs;
     Stats.failed := length (filter is_failed logs);
     Stats.uniqueIps := length (nodup opt_string_dec (map ip logs));
     Stats.critical := length (filter is_critical logs) |}.

(** *** The timeline *)

Module Point.
Record t : Type := mk {
  time : jsstring;
  count : Z;
  failed : Z
}.
End Point.

(** The label of an instant: hours and minutes of local time. *)
Definition label_of (rt : Runtime) (t : Z) : jsstring :=
  let local := t + LocalTZA rt t in
  pad2 ((local / 3600000) mod 24) ++ lit ":" ++ pad2 ((local / 60000) mod 60).

(** [format(new Date(log.timestamp), 'HH:mm')]; the library raises
    [RangeError] on an invalid date. *)
Definition format_HHmm (rt : Runtime) (log : LogEntry) : Result jsstring :=
  match getTime rt log with
  | Some t => Ok (label_of rt t)
  | None => Throw RangeError
  end.

(** The update of the first point that carries the label. *)
Fixpoint bump (time : jsstring) (isFailed : bool) (acc : list Point.t)
  : list Point.t :=
  match acc with
  | [] => []
  | d :: acc' =>
      if str_eqb (Point.time d) time then
        {| Point.time := Point.time d;
           Point.count := Point.count d + 1;
           Point.failed :=
             if isFailed then Point.failed d + 1 else Point.failed d |}
        :: acc'
      else d :: bump time isFailed acc'
  end.

(** One step of the reduction, on an entry whose label is known. *)
Definition add_point (acc : list Point.t) (time : jsstring)
  (isFailed : bool) : list Point.t :=
  if existsb (fun d => str_eqb (Point.time d) time) acc
  then bump time isFailed acc
  else acc ++ [{| Point.time := time; Point.count := 1;
                  Point.failed := if isFailed then 1 else 0 |}].

Definition chart_step (rt : Runtime) (acc : Result (list Point.t))
  (log : LogEntry) : Result (list Point.t) :=
  a <- acc ;;
  time <- format_HHmm rt log ;;
  Ok (add_point a time (action_includes log "FAILED")).

Definition by_label (a b : Point.t) : Z :=
  localeCompare (Point.time a) (Point.time b).

(** [logs.reduce(...).sort(...).slice(-20)] *)
Definition chartData (rt : Runtime) (logs : list LogEntry)
  : Result (list Point.t) :=
  acc <- fold_left (chart_step rt) logs (Ok []) ;;
  Ok (slice (sort by_label acc) (-20) None).

End App.
Export App.

(* ===================================================================== *)
(** ** A runtime to run the model on *)
(* ===================================================================== *)

Module Sample.

(** One runtime among those the functions can be given: it serves to run
    the model on inputs and to show that what the properties assume of a
    runtime can be met. *)

(** The characters of a string of code units below 256. *)
Definition unlit (s : jsstring) : String.string :=
  String.string_of_list_ascii (map Ascii.ascii_of_N s).

(** In this runtime a date is written as the decimal count of its
    milliseconds, which stands for the ISO text: all the model asks of the
    text of a date is that the instant can be read back from it. *)
Definition print_ms (t : Z) : jsstring :=
  lit (DecimalString.NilEmpty.string_of_int (Z.to_int t)).

Definition read_ms (s : jsstring) : option Z :=
  if forallb (fun c => (c <? 256)%N) s
  then option_map Z.of_int (DecimalString.NilEmpty.int_of_string (unlit s))
  else None.

(** A fixed sequence of numbers in [0, 1): the hundredths of [37 * n]. *)
Definition hundredths (n : nat) : Q :=
  Qmake (Z.of_nat n * 37 mod 100) 100.

(** Stands for the serialiser: it prints how many entries it was given. *)
Definition count_entries (l : list LogEntry) : jsstring :=
  lit "[" ++ print_ms (Z.of_nat (length l)) ++ lit " entries]".

Definition runtime : Runtime :=
  {| clock := fun n => 1700000000000 + 1000 * Z.of_nat n;
     random := hundredths;
     toISOString := print_ms;
     Date_parse := read_ms;
     LocalTZA := fun _ => 0;
     JSON_stringify := count_entries;
     JSON_stringify_indent := count_entries |}.

(** The state of the component when it is mounted. *)
Definition initial : State :=
  {| logs := []; analyzed := []; clock_reads := 0; random_reads := 0 |}.

(** The entry of the specification's scenario. *)
Definition scenario_entry : LogEntry :=
  {| timestamp := None;
     ip := Some (lit "1.2.3.4");
     action := Some (lit "LOGIN_FAILED");
     status_code := Some (inject_Z 200);
     event_id := Some (inr (inject_Z 4625));
     severity := Some (lit "Info");
     user := None; user_agent := None; message := None |}.

(** The component once it holds that one entry. *)
Definition held : State :=
  {| logs := [scenario_entry]; analyzed := [];
     clock_reads := 0; random_reads := 0 |}.

End Sample.


(* ===================================================================== *)
(** ** Notions the properties are stated with *)
(* ===================================================================== *)

Module Notions.

(** The lines of a text put together again. *)
Fixpoint join (sep : N) (ls : list jsstring) : jsstring :=
  match ls with
  | [] => []
  | [l] => l
  | l :: ls' => l ++ sep :: join sep ls'
  end.

(** The three properties the data model requires of every record. *)
Definition populated (l : LogEntry) : Prop :=
  timestamp l <> None /\ ip l <> None /\ action l <> None.

(** The array of one empty object, [[{}]]. *)
Definition array_of_empty_object : jsstring := [91; 123; 125; 93]%N.

(** The string [p] occurs in [s]. *)
Definition occurs_in (p s : jsstring) : Prop :=
  exists pre post, s = pre ++ p ++ post.

(** The condition of the failed-action count, as the specification words
    it. *)
Definition Failed (l : LogEntry) : Prop :=
  (exists a, action l = Some a /\ occurs_in (lit "FAILED") a) \/
  (exists q, status_code l = Some q /\ (q == inject_Z 403)%Q) \/
  (exists q, event_id l = Some (inr q) /\ (q == inject_Z 4625)%Q).

(** An entry whose timestamp is a valid date. *)
Definition dated (rt : Runtime) (l : LogEntry) : Prop :=
  exists t, getTime rt l = Some t.

(** Order of two entries by the instants their timestamps parse to. *)
Definition time_le (rt : Runtime) (a b : LogEntry) : Prop :=
  exists x y, getTime rt a = Some x /\ getTime rt b = Some y /\ x <= y.

(** The entry a burst pushes at step [j], the slot's instant being [t0]. *)
Definition burst_record (rt : Runtime) (t0 : Z) (j : Z) : LogEntry :=
  {| timestamp := Some (toISOString rt (t0 + j * 1000));
     ip := Some (lit "203.0.113.5");
     user := Some (lit "admin");
     action := Some (lit "LOGIN_FAILED");
     event_id := Some (inr (inject_Z 4625));
     severity := Some (lit "High");
     status_code := None;
     user_agent := None;
     message := None |}.

(** Eight records in a row as the specification describes a burst: the
    j-th is dated j seconds after [t0], its [action] is LOGIN_FAILED, its
    [ip] the third address of the pool, its [user] the first user of the
    pool, its [event_id] 4625 and its [severity] High. *)
Definition burst_at (rt : Runtime) (t0 : Z) (pushed : list LogEntry)
  : Prop :=
  length pushed = 8%nat /\
  forall j, (j < 8)%nat ->
    exists e,
      nth_error pushed j = Some e /\
      getTime rt e = Some (t0 + Z.of_nat j * 1000) /\
      action e = Some (lit "LOGIN_FAILED") /\
      ip e = nth_error ips 2 /\
      user e = nth_error users 0 /\
      event_id e = Some (inr (inject_Z 4625)) /\
      severity e = Some (lit "High").

(** The slots a run of the generator comes to, each with the index of
    the random number drawn first at it: the run starts at slot 0 with the
    index [k0]; a slot below [count] whose second draw is below 0.05 is a
    burst, after which the run is seven slots beyond the increment of the
    loop and two draws further; after any other slot below [count] it is
    one slot and seven draws further. *)
Inductive reached (rt : Runtime) (count : Z) (k0 : nat) : Z -> nat -> Prop :=
| reached_first : reached rt count k0 0 k0
| reached_after_burst (i : Z) (k : nat) :
    reached rt count k0 i k -> i < count -> isAttack rt k = true ->
    reached rt count k0 (i + 7 + 1) (k + 2)
| reached_after_entry (i : Z) (k : nat) :
    reached rt count k0 i k -> i < count -> isAttack rt k = false ->
    reached rt count k0 (i + 1) (k + 7).

(** The timeline label of an entry with a valid date. *)
Definition entry_label (rt : Runtime) (l : LogEntry) : jsstring :=
  match getTime rt l with
  | Some t => label_of rt t
  | None => []
  end.

(** How many entries carry a label, and how many of those have an
    [action] that contains FAILED. *)
Definition count_with (rt : Runtime) (logs : list LogEntry)
  (lab : jsstring) : Z :=
  Z.of_nat (length (filter (fun l => str_eqb (entry_label rt l) lab) logs)).

Definition count_failed_with (rt : Runtime) (logs : list LogEntry)
  (lab : jsstring) : Z :=
  Z.of_nat
    (length
       (filter (fun l => str_eqb (entry_label rt l) lab
                         && action_includes l "FAILED") logs)).

(** Strict order of labels. *)
Definition label_lt (a b : jsstring) : Prop := compare a b = Lt.

Definition point_lt (p q : Point.t) : Prop :=
  label_lt (Point.time p) (Point.time q).

Definition jsstring_dec (a b : jsstring) : {a = b} + {a <> b} :=
  list_eq_dec N.eq_dec a b.

(** The distinct labels of a batch. *)
Definition labels (rt : Runtime) (logs : list LogEntry) : list jsstring :=
  nodup jsstring_dec (map (entry_label rt) logs).

(** One step of the timeline's reduction on an entry with a valid date. *)
Definition step (rt : Runtime) (acc : list Point.t) (l : LogEntry)
  : list Point.t :=
  add_point acc (entry_label rt l) (action_includes l "FAILED").

(** What the accumulator of the reduction is to the entries seen so far:
    one point per label seen, with the counts of that label. *)
Definition grouped (rt : Runtime) (acc : list Point.t)
  (seen : list LogEntry) : Prop :=
  NoDup (map Point.time acc) /\
  (forall p, In p acc ->
             Point.count p = count_with rt seen (Point.time p) /\
             Point.failed p = count_failed_with rt seen (Point.time p)) /\
  (forall l, In l seen -> In (entry_label rt l) (map Point.time acc)) /\
  (forall p, In p acc ->
             exists l, In l seen /\ entry_label rt l = Point.time p).

End Notions.
Export Notions.

(* ===================================================================== *)
(** ** The rest of the component: log explorer, messages, report *)
(* ===================================================================== *)

Module Explorer.

(** [l.ip.includes(ipFilter)].  The source reads [includes] off [l.ip]
    without a guard: on an entry that carries no [ip] this raises a
    [TypeError], which is the [None] here. *)
Definition ip_includes (ipFilter : jsstring) (l : LogEntry) : option bool :=
  match ip l with
  | Some a => Some (includes a ipFilter)
  | None => None
  end.

(** [logs.filter(l => l.ip.includes(ipFilter))], the rows of the table. *)
Fixpoint rows (ipFilter : jsstring) (logs : list LogEntry)
  : option (list LogEntry) :=
  match logs with
  | [] => Some []
  | l :: rest =>
      match ip_includes ipFilter l with
      | None => None
      | Some keep =>
          match rows ipFilter rest with
          | None => None
          | Some r => Some (if keep then l :: r else r)
          end
      end
  end.

End Explorer.

Module Ui.

Inductive Role : Type := role_user | role_assistant.

Record Message : Type := mkMessage {
  role : Role;
  content : jsstring
}.

Inductive Tab : Type := tab_dashboard | tab_chat | tab_logs.

(** The state of the component beside the batch: the [useState] cells
    the handlers write. *)
Record View : Type := mkView {
  messages : list Message;
  analysisOutput : jsstring;
  isAnalyzing : bool;
  activeTab : Tab;
  chatInput : jsstring;
  showSingleLogModal : bool;
  singleLogInput : jsstring
}.

(** The code units of the warning sign that opens the error messages:
    U+26A0 and the variation selector U+FE0F. *)
Definition warning_sign : jsstring := [9888; 65039]%N.

Definition welcome : jsstring :=
  lit "Welcome to SecLogAI SOC Monitor. Upload logs (JSON/CSV/text), describe an event, or say 'demo' for simulation.".

Definition too_large : jsstring :=
  warning_sign ++
  lit " The log file is too large for full analysis. I've attempted to truncate it, but it still exceeds limits. Please try uploading a smaller segment.".

Definition analysis_failed : jsstring :=
  warning_sign ++
  lit " Error analyzing logs. Please check your API key and input format.".

Definition single_failed : jsstring :=
  warning_sign ++ lit " Error analyzing single event.".

Definition chat_failed : jsstring :=
  warning_sign ++ lit " Error processing request.".

Definition chat_cleared : jsstring :=
  lit "Chat cleared. How can I help with your logs?".

(** The view when the component is mounted. *)
Definition mounted : View :=
  {| messages := [{| role := role_assistant; content := welcome |}];
     analysisOutput := []; isAnalyzing := false;
     activeTab := tab_dashboard; chatInput := [];
     showSingleLogModal := false; singleLogInput := [] |}.

(** [setMessages(prev => [...prev, { role, content }])] *)
Definition say (r : Role) (text : jsstring) (v : View) : View :=
  {| messages := messages v ++ [{| role := r; content := text |}];
     analysisOutput := analysisOutput v; isAnalyzing := isAnalyzing v;
     activeTab := activeTab v; chatInput := chatInput v;
     showSingleLogModal := showSingleLogModal v;
     singleLogInput := singleLogInput v |}.

Definition setMessages (ms : list Message) (v : View) : View :=
  {| messages := ms;
     analysisOutput := analysisOutput v; isAnalyzing := isAnalyzing v;
     activeTab := activeTab v; chatInput := chatInput v;
     showSingleLogModal := showSingleLogModal v;
     singleLogInput := singleLogInput v |}.

Definition setAnalysisOutput (text : jsstring) (v : View) : View :=
  {| messages := messages v;
     analysisOutput := text; isAnalyzing := isAnalyzing v;
     activeTab := activeTab v; chatInput := chatInput v;
     showSingleLogModal := showSingleLogModal v;
     singleLogInput := singleLogInput v |}.

Definition setIsAnalyzing (b : bool) (v : View) : View :=
  {| messages := messages v;
     analysisOutput := analysisOutput v; isAnalyzing := b;
     activeTab := activeTab v; chatInput := chatInput v;
     showSingleLogModal := showSingleLogModal v;
     singleLogInput := singleLogInput v |}.

Definition setActiveTab (t : Tab) (v : View) : View :=
  {| messages := messages v;
     analysisOutput := analysisOutput v; isAnalyzing := isAnalyzing v;
     activeTab := t; chatInput := chatInput v;
     showSingleLogModal := showSingleLogModal v;
     singleLogInput := singleLogInput v |}.

Definition setChatInput (s : jsstring) (v : View) : View :=
  {| messages := messages v;
     analysisOutput := analysisOutput v; isAnalyzing := isAnalyzing v;
     activeTab := activeTab v; chatInput := s;
     showSingleLogModal := showSingleLogModal v;
     singleLogInput := singleLogInput v |}.

Definition setShowSingleLogModal (b : bool) (v : View) : View :=
  {| messages := messages v;
     analysisOutput := analysisOutput v; isAnalyzing := isAnalyzing v;
     activeTab := activeTab v; chatInput := chatInput v;
     showSingleLogModal := b;
     singleLogInput := singleLogInput v |}.

Definition setSingleLogInput (s : jsstring) (v : View) : View :=
  {| messages := messages v;
     analysisOutput := analysisOutput v; isAnalyzing := isAnalyzing v;
     activeTab := activeTab v; chatInput := chatInput v;
     showSingleLogModal := showSingleLogModal v;
     singleLogInput := s |}.

(** The whole component: the batch with what was handed to the analyser,
    and the view. *)
Record Comp : Type := mkComp {
  app : State;
  view : View
}.

(** How a call of [analyzeLogsWithGemini] ends: the service answers, with
    or without a [text], or the call fails with an error that may carry a
    [message]. *)
Inductive Outcome : Type :=
| Responded (text : option jsstring)
| Rejected (message : option jsstring).

(** [response.text || "No analysis generated."] *)
Definition analysis_of (text : option jsstring) : jsstring :=
  match text with
  | Some (c :: s) => c :: s
  | _ => lit "No analysis generated."
  end.

(** [error?.message?.includes('token count')] *)
Definition mentions_token_count (message : option jsstring) : bool :=
  match message with
  | Some m => includes m (lit "token count")
  | None => false
  end.

(** The three places that await the analyser. *)
Inductive Request : Type := req_logs | req_chat | req_single.

(** What runs when the awaited call ends: the rest of the [try], or the
    [catch], and then the [finally]. *)
Definition settle (r : Request) (o : Outcome) (v : View) : View :=
  match r with
  | req_logs =>
      setIsAnalyzing false
        match o with
        | Responded text =>
            let result := analysis_of text in
            setActiveTab tab_dashboard
              (say role_assistant result (setAnalysisOutput result v))
        | Rejected message =>
            let errorMsg :=
              if mentions_token_count message then too_large
              else analysis_failed in
            say role_assistant errorMsg v
        end
  | req_chat =>
      setIsAnalyzing false
        match o with
        | Responded text => say role_assistant (analysis_of text) v
        | Rejected _ => say role_assistant chat_failed v
        end
  | req_single =>
      setSingleLogInput []
        (setIsAnalyzing false
           match o with
           | Responded text => say role_assistant (analysis_of text) v
           | Rejected _ => say role_assistant single_failed v
           end)
  end.

(** [processLogs(logText)] up to its [await], on the whole component. *)
Definition processLogs_ui (logText : jsstring) (c : Comp) : Comp :=
  {| app := processLogs logText (app c);
     view := setIsAnalyzing true (view c) |}.

(** The upload callback on the whole component: whichever way it goes,
    [processLogs(text)] is called once. *)
Definition handleFileUpload_ui (rt : Runtime) (c : Comp) (text : jsstring)
  : Result Comp :=
  st <- handleFileUpload rt (app c) text ;;
  Ok {| app := st; view := setIsAnalyzing true (view c) |}.

Definition handleDemo_ui (rt : Runtime) (c : Comp) : Result Comp :=
  st <- handleDemo rt (app c) ;;
  Ok {| app := st;
        view := setIsAnalyzing true
                  (say role_user (lit "Run demo simulation") (view c)) |}.

(** [handleChatSubmit], the text being the one in the input box. *)
Definition handleChatSubmit_ui (rt : Runtime) (c : Comp) : Result Comp :=
  if negb (truthy (trim (chatInput (view c)))) then Ok c
  else
    let userMsg := chatInput (view c) in
    let v1 := say role_user userMsg (setChatInput [] (view c)) in
    if includes (toLowerCase userMsg) (lit "demo")
    then handleDemo_ui rt {| app := app c; view := v1 |}
    else
      Ok {| app := processLogs (buildContext rt (logs (app c)) userMsg)
                     (app c);
            view := setIsAnalyzing true v1 |}.

(** The text of the request for a single event. *)
Definition single_request (input : jsstring) : jsstring :=
  lit "SINGLE EVENT ANALYSIS REQUEST:" ++ [10%N] ++ input.

(** [handleSingleLogAnalysis] up to its [await]. *)
Definition handleSingleLogAnalysis (c : Comp) : Comp :=
  let input := singleLogInput (view c) in
  if negb (truthy (trim input)) then c
  else
    {| app := processLogs (single_request input) (app c);
       view :=
         setIsAnalyzing true
           (say role_user (lit "Analyze this single event: " ++ input)
              (setActiveTab tab_chat
                 (setShowSingleLogModal false (view c)))) |}.

(** The object [handleExportJson] serialises.  (The name of the file,
    which formats a date, is left out.) *)
Record Report : Type := mkReport {
  report_timestamp : jsstring;
  analysis : jsstring;
  logs_analyzed : nat;
  report_stats : Stats.t
}.

(** [handleExportJson]: nothing without a report; otherwise the object,
    the clock having been read for its timestamp and for the file name. *)
Definition handleExportJson (rt : Runtime) (c : Comp)
  : Comp * option Report :=
  if negb (truthy (analysisOutput (view c))) then (c, None)
  else
    ({| app := read_clock 2 (app c); view := view c |},
     Some {| report_timestamp :=
               toISOString rt (clock rt (clock_reads (app c)));
             analysis := analysisOutput (view c);
             logs_analyzed := length (logs (app c));
             report_stats := stats (logs (app c)) |}).

(** What can happen to the component. *)
Inductive Event : Type :=
| ev_upload (text : jsstring)
| ev_demo
| ev_type_chat (s : jsstring)
| ev_chat
| ev_open_single
| ev_close_single
| ev_type_single (s : jsstring)
| ev_single
| ev_settle (r : Request) (o : Outcome)
| ev_clear
| ev_tab (t : Tab)
| ev_export.

Definition on_view (f : View -> View) (c : Comp) : Comp :=
  {| app := app c; view := f (view c) |}.

Definition react (rt : Runtime) (ev : Event) (c : Comp) : Result Comp :=
  match ev with
  | ev_upload text => handleFileUpload_ui rt c text
  | ev_demo => handleDemo_ui rt c
  | ev_type_chat s => Ok (on_view (setChatInput s) c)
  | ev_chat => handleChatSubmit_ui rt c
  | ev_open_single => Ok (on_view (setShowSingleLogModal true) c)
  | ev_close_single => Ok (on_view (setShowSingleLogModal false) c)
  | ev_type_single s => Ok (on_view (setSingleLogInput s) c)
  | ev_single => Ok (handleSingleLogAnalysis c)
  | ev_settle r o => Ok (on_view (settle r o) c)
  | ev_clear =>
      Ok (on_view
            (setMessages [{| role := role_assistant;
                             content := chat_cleared |}]) c)
  | ev_tab t => Ok (on_view (setActiveTab t) c)
  | ev_export => Ok (fst (handleExportJson rt c))
  end.

(** A run: the events in the order they happen. *)
Fixpoint run (rt : Runtime) (evs : list Event) (c : Comp) : Result Comp :=
  match evs with
  | [] => Ok c
  | ev :: rest => c1 <- react rt ev c ;; run rt rest c1
  end.

End Ui.

Module Charts.

Record Slice : Type := mkSlice {
  name : jsstring;
  value : Z;
  color : jsstring
}.

(** [threatData], the slices of the threat distribution. *)
Definition threatData (stats : Stats.t) : list Slice :=
  [ {| name := lit "Brute Force";
       value := if Z.of_nat (Stats.failed stats) >? 10 then 40 else 10;
       color := lit "#ef4444" |};
    {| name := lit "Privilege Escalation"; value := 15;
       color := lit "#f97316" |};
    {| name := lit "Suspicious IP"; value := 25; color := lit "#eab308" |};
    {| name := lit "Normal"; value := 20; color := lit "#22c55e" |} ].

End Charts.

Module MoreNotions.

(** A value drawn from a pool. *)
Definition from_pool (pool : list jsstring) (x : option jsstring) : Prop :=
  exists v, x = Some v /\ In v pool.

(** The entries of a burst, and those of an ordinary slot. *)
Definition burst_shaped (e : LogEntry) : Prop :=
  ip e = Some (lit "203.0.113.5") /\
  user e = Some (lit "admin") /\
  action e = Some (lit "LOGIN_FAILED") /\
  event_id e = Some (inr (inject_Z 4625)) /\
  status_code e = None /\
  severity e = Some (lit "High").

Definition normal_shaped (e : LogEntry) : Prop :=
  from_pool ips (ip e) /\
  from_pool users (user e) /\
  from_pool actions (action e) /\
  (event_id e = Some (inr (inject_Z 4624)) \/
   event_id e = Some (inr (inject_Z 4625))) /\
  (status_code e = Some (inject_Z 200) \/
   status_code e = Some (inject_Z 403)) /\
  severity e = Some (lit "Info").

Definition demo_shaped (e : LogEntry) : Prop :=
  (exists ts, timestamp e = Some ts) /\
  user_agent e = None /\ message e = None /\
  (burst_shaped e \/ normal_shaped e).

(** Sums over the points of a timeline. *)
Definition sum_count (ps : list Point.t) : Z :=
  fold_right (fun p s => Point.count p + s) 0 ps.

Definition sum_failed (ps : list Point.t) : Z :=
  fold_right (fun p s => Point.failed p + s) 0 ps.

(** The test the source makes on an action, as a condition. *)
Definition says_failed (l : LogEntry) : Prop :=
  exists a, action l = Some a /\ occurs_in (lit "FAILED") a.

(** A runtime whose serialiser is long-winded: whatever the batch, it
    prints half a million characters. *)
Definition verbose_runtime : Runtime :=
  {| clock := clock Sample.runtime;
     random := random Sample.runtime;
     toISOString := toISOString Sample.runtime;
     Date_parse := Date_parse Sample.runtime;
     LocalTZA := LocalTZA Sample.runtime;
     JSON_stringify := fun _ => repeat 120%N (Z.to_nat 500000);
     JSON_stringify_indent := JSON_stringify_indent Sample.runtime |}.

(** The text of an object without properties. *)
Definition empty_object_text : jsstring := [123; 125]%N.

(** The component as mounted, a text having been typed in the box. *)
Definition typed (s : jsstring) : Ui.Comp :=
  {| Ui.app := Sample.initial; Ui.view := Ui.setChatInput s Ui.mounted |}.

(** How many entries of a batch satisfy a test and carry a label, and
    the sum of such numbers over a list of labels. *)
Definition tally (rt : Runtime) (g : LogEntry -> bool)
  (logs : list LogEntry) (lab : jsstring) : Z :=
  Z.of_nat (length (filter (fun l => str_eqb (entry_label rt l) lab && g l)
                      logs)).

Definition sum_over (f : jsstring -> Z) (labs : list jsstring) : Z :=
  fold_right (fun lab s => f lab + s) 0 labs.

(** The test of the explorer's filter on an entry, an entry without an
    address failing it. *)
Definition shown (ipFilter : jsstring) (l : LogEntry) : bool :=
  match ip l with
  | Some a => includes a ipFilter
  | None => false
  end.

(** The report a log analysis leaves when it answers; no other event
    leaves one. *)
Definition log_answer (ev : Ui.Event) : option jsstring :=
  match ev with
  | Ui.ev_settle Ui.req_logs (Ui.Responded text) => Some (Ui.analysis_of text)
  | _ => None
  end.

(** The report of the last log analysis that answered in a run, [current]
    if none did. *)
Fixpoint last_report (evs : list Ui.Event) (current : jsstring) : jsstring :=
  match evs with
  | [] => current
  | ev :: rest =>
      last_report rest
        match log_answer ev with Some r => r | None => current end
  end.

(** What the assistant says when the analysis of a single event ends. *)
Definition single_reply (o : Ui.Outcome) : jsstring :=
  match o with
  | Ui.Responded text => Ui.analysis_of text
  | Ui.Rejected _ => Ui.single_failed
  end.

(** The sum of the values of a chart's slices, and the value of the
    slice of a given name (zero when there is none). *)
Definition total_value (slices : list Charts.Slice) : Z :=
  fold_right (fun s acc => Charts.value s + acc) 0 slices.

Definition value_of (n : String.string) (slices : list Charts.Slice) : Z :=
  match find (fun s => str_eqb (Charts.name s) (lit n)) slices with
  | Some s => Charts.value s
  | None => 0
  end.

End MoreNotions.
Export MoreNotions.

(* ===================================================================== *)
(** ** Facts about strings *)
(* ===================================================================== *)

Module StringFacts.

Lemma str_eqb_eq (a b : jsstring) : str_eqb a b = true <-> a = b.
Proof.
  revert b; induction a as [|c a IH]; intros [|d b]; simpl;
    try (split; congruence).
  rewrite andb_true_iff, N.eqb_eq, IH. split.
  - intros [-> ->]; reflexivity.
  - intros H; injection H; auto.
Qed.

Lemma str_eqb_refl (a : jsstring) : str_eqb a a = true.
Proof. apply str_eqb_eq; reflexivity. Qed.

Lemma str_eqb_neq (a b : jsstring) : str_eqb a b = false <-> a <> b.
Proof.
  rewrite <- str_eqb_eq. destruct (str_eqb a b); split; congruence.
Qed.

(** [startsWith] decides "begins with". *)
Lemma startsWith_spec (s p : jsstring) :
  startsWith s p = true <-> exists post, s = p ++ post.
Proof.
  revert s; induction p as [|c p IH]; intros s; simpl.
  - split; [intros _; exists s; reflexivity | reflexivity].
  - destruct s as [|d s].
    + split; [discriminate | intros [post H]; discriminate].
    + rewrite andb_true_iff, N.eqb_eq, IH. split.
      * intros [-> [post ->]]. exists post; reflexivity.
      * intros [post H]. injection H as -> ->. eauto.
Qed.

(** [includes] decides "occurs somewhere in". *)
Lemma includes_spec (s p : jsstring) :
  includes s p = true <-> exists pre post, s = pre ++ p ++ post.
Proof.
  induction s as [|d s IH].
  - simpl. rewrite orb_false_r, startsWith_spec. split.
    + intros [post H]. exists [], post. exact H.
    + intros [pre [post H]]. destruct pre; [|discriminate].
      exists post. exact H.
  - cbn [includes]. rewrite orb_true_iff, startsWith_spec, IH. split.
    + intros [[post H] | [pre [post H]]].
      * exists [], post. exact H.
      * exists (d :: pre), post. rewrite H. reflexivity.
    + intros [[|e pre] [post H]].
      * left. exists post. exact H.
      * right. injection H as _ H. eauto.
Qed.

(** A text is its lines joined by the separator, and no line holds it. *)
Lemma split_nonempty (sep : N) (s : jsstring) : split sep s <> [].
Proof.
  destruct s as [|c s]; simpl; [discriminate|].
  destruct (c =? sep)%N; [discriminate|].
  destruct (split sep s); discriminate.
Qed.

Lemma join_split (sep : N) (s : jsstring) : join sep (split sep s) = s.
Proof.
  induction s as [|c s IH]; [reflexivity|].
  simpl. destruct (N.eqb_spec c sep) as [->|Hne].
  - pose proof (split_nonempty sep s).
    simpl. destruct (split sep s); [congruence|].
    simpl in *. rewrite IH. reflexivity.
  - pose proof (split_nonempty sep s).
    destruct (split sep s) as [|l ls]; [congruence|].
    simpl in *. destruct ls; simpl in *; rewrite <- IH; reflexivity.
Qed.

Lemma split_no_sep (sep : N) (s : jsstring) :
  Forall (fun l => ~ In sep l) (split sep s).
Proof.
  induction s as [|c s IH]; simpl.
  - constructor; [intros []|constructor].
  - destruct (N.eqb_spec c sep) as [->|Hne].
    + constructor; [intros []|exact IH].
    + destruct (split sep s) as [|l ls].
      * constructor; [|constructor]. intros [H|[]]; congruence.
      * inversion IH; subst. constructor; [|assumption].
        intros [H|H]; [congruence|contradiction].
Qed.

End StringFacts.
Import StringFacts.

(* ===================================================================== *)
(** ** Facts about the parser *)
(* ===================================================================== *)

Module ParserFacts.

Lemma isJsonWs_isWhiteSpace (c : N) :
  isJsonWs c = true -> isWhiteSpace c = true.
Proof.
  unfold isJsonWs. intros H.
  repeat (apply orb_true_iff in H; destruct H as [H|H]);
    apply N.eqb_eq in H; subst c; reflexivity.
Qed.

Lemma skip_ws_head (s : jsstring) (c : N) (r : jsstring) :
  skip_ws s = c :: r -> isJsonWs c = false.
Proof.
  induction s as [|d s IH]; simpl; [discriminate|].
  destruct (isJsonWs d) eqn:E; [exact IH|].
  intros H; injection H as -> _. exact E.
Qed.

Lemma skip_ws_length (s : jsstring) : (length (skip_ws s) <= length s)%nat.
Proof.
  induction s as [|d s IH]; simpl; [lia|].
  destruct (isJsonWs d); simpl; lia.
Qed.

Lemma trimStart_skip_ws (s : jsstring) : trimStart (skip_ws s) = trimStart s.
Proof.
  induction s as [|d s IH]; simpl; [reflexivity|].
  destruct (isJsonWs d) eqn:E; [|reflexivity].
  rewrite (isJsonWs_isWhiteSpace _ E). exact IH.
Qed.

Lemma trimEnd_head (c : N) (r : jsstring) :
  isWhiteSpace c = false -> exists r', trimEnd (c :: r) = c :: r'.
Proof.
  intros H. simpl. destruct (trimEnd r); rewrite ?H; eauto.
Qed.

(** The first character that is not JSON white space, when it is not
    white space for [trim] either, is the first character of the
    trimmed text. *)
Lemma trim_first (s : jsstring) (c : N) (r : jsstring) :
  skip_ws s = c :: r -> isWhiteSpace c = false ->
  exists r', trim s = c :: r'.
Proof.
  intros Hs Hc. unfold trim.
  rewrite <- trimStart_skip_ws, Hs. simpl. rewrite Hc.
  apply trimEnd_head; assumption.
Qed.

End ParserFacts.
Import ParserFacts.

Module ParserShape.

Ltac break_match H :=
  match type of H with
  | context [match ?x with _ => _ end] => destruct x eqn:?
  end.

(** What the loops over elements and members return is an array and an
    object. *)
Lemma parse_loops_shape (f : nat) :
  (forall s acc v r, parse_elements f s acc = POk v r ->
                     exists l, v = JArr l) /\
  (forall s acc v r, parse_members f s acc = POk v r ->
                     exists ps, v = JObj ps).
Proof.
  induction f as [|f [IHe IHm]]; split; intros s acc v r H;
    try discriminate.
  - cbn [parse_elements] in H.
    repeat (break_match H; try discriminate).
    + eapply IHe; eassumption.
    + injection H as <- _. eauto.
  - cbn [parse_members] in H.
    repeat (break_match H; try discriminate).
    + eapply IHm; eassumption.
    + injection H as <- _. eauto.
Qed.

Lemma pmap_ok {A B : Type} (g : A -> B) (x : presult A) v r :
  pmap g x = POk v r -> exists a, x = POk a r /\ v = g a.
Proof.
  destruct x; simpl; try discriminate.
  intros H; injection H as <- <-. eauto.
Qed.

Lemma parse_word_ok w v0 s v r :
  parse_word w v0 s = POk v r ->
  v = v0 /\ r = skipn (length (lit w)) s.
Proof.
  unfold parse_word. destruct (startsWith s (lit w)); [|discriminate].
  intros H; injection H as <- <-. auto.
Qed.

(** An array can only come from a text whose first character after
    JSON white space is the opening bracket; an object, the brace. *)
Lemma parse_value_array (f : nat) s l r :
  parse_value f s = POk (JArr l) r -> exists r0, skip_ws s = 91%N :: r0.
Proof.
  destruct f as [|f]; [discriminate|]. intros H.
  cbn [parse_value] in H.
  destruct (skip_ws s) as [|c r0]; [discriminate|].
  destruct (N.eqb_spec c 91) as [->|_]; [eauto|].
  exfalso.
  destruct (c =? 123)%N.
  { destruct (skip_ws r0) as [|d r']; [discriminate|].
    destruct (d =? 125)%N; [discriminate|].
    apply (proj2 (parse_loops_shape f)) in H. destruct H; discriminate. }
  destruct (c =? 34)%N.
  { apply pmap_ok in H. destruct H as [a [_ H]]; discriminate. }
  repeat match type of H with
         | (if ?b then _ else _) = _ =>
             destruct b;
             [apply parse_word_ok in H; destruct H; discriminate|]
         end.
  apply pmap_ok in H. destruct H as [a [_ H]]; discriminate.
Qed.

Lemma parse_value_object (f : nat) s ps r :
  parse_value f s = POk (JObj ps) r -> exists r0, skip_ws s = 123%N :: r0.
Proof.
  destruct f as [|f]; [discriminate|]. intros H.
  cbn [parse_value] in H.
  destruct (skip_ws s) as [|c r0]; [discriminate|].
  destruct (c =? 91)%N.
  { exfalso. destruct (skip_ws r0) as [|d r']; [discriminate|].
    destruct (d =? 93)%N; [discriminate|].
    apply (proj1 (parse_loops_shape f)) in H. destruct H; discriminate. }
  destruct (N.eqb_spec c 123) as [->|_]; [eauto|].
  exfalso.
  destruct (c =? 34)%N.
  { apply pmap_ok in H. destruct H as [a [_ H]]; discriminate. }
  repeat match type of H with
         | (if ?b then _ else _) = _ =>
             destruct b;
             [apply parse_word_ok in H; destruct H; discriminate|]
         end.
  apply pmap_ok in H. destruct H as [a [_ H]]; discriminate.
Qed.

(** A text that parses to an array or to an object is one the upload
    handler takes for structured. *)
Lemma parsed_array_looks_structured (text : jsstring) (l : list JSON) :
  JSON_parse text = Some (JArr l) -> looks_structured text = true.
Proof.
  unfold JSON_parse. intros H.
  destruct (parse_value (fuel_for text) text) as [v rest| |] eqn:E;
    try discriminate.
  destruct (skip_ws rest); [|discriminate].
  injection H as ->.
  apply parse_value_array in E. destruct E as [r0 E].
  destruct (trim_first text _ _ E eq_refl) as [r' Ht].
  unfold looks_structured. rewrite Ht. reflexivity.
Qed.

Lemma parsed_object_looks_structured (text : jsstring) ps :
  JSON_parse text = Some (JObj ps) -> looks_structured text = true.
Proof.
  unfold JSON_parse. intros H.
  destruct (parse_value (fuel_for text) text) as [v rest| |] eqn:E;
    try discriminate.
  destruct (skip_ws rest); [|discriminate].
  injection H as ->.
  apply parse_value_object in E. destruct E as [r0 E].
  destruct (trim_first text _ _ E eq_refl) as [r' Ht].
  unfold looks_structured. rewrite Ht. reflexivity.
Qed.

End ParserShape.
Import ParserShape.

Module ParserFuel.

Lemma parse_chars_length (s acc : jsstring) k r :
  parse_chars s acc = POk k r -> (length r < length s)%nat.
Proof.
  remember (length s) as n eqn:Hn. revert s acc Hn.
  induction n as [n IH] using lt_wf_ind. intros s acc Hn H.
  destruct s as [|c s']; [discriminate|]. cbn [parse_chars] in H.
  simpl in Hn.
  destruct (c =? 34)%N.
  { injection H as _ <-. lia. }
  destruct (c =? 92)%N.
  - destruct s' as [|e s'']; [discriminate|]. simpl in Hn.
    destruct (e =? 117)%N.
    + destruct s'' as [|h1 [|h2 [|h3 [|h4 s3]]]]; try discriminate.
      simpl in Hn.
      destruct (hex4 h1 h2 h3 h4); [|discriminate].
      apply (IH (length s3)) in H; [lia | lia | reflexivity].
    + destruct (escape e); [|discriminate].
      apply (IH (length s'')) in H; [lia | lia | reflexivity].
  - destruct (c <? 32)%N; [discriminate|].
    apply (IH (length s')) in H; [lia | lia | reflexivity].
Qed.

Lemma take_digits_length (s : jsstring) acc n v m r :
  take_digits s acc n = (v, m, r) -> (length r <= length s)%nat.
Proof.
  revert acc n. induction s as [|c s IH]; intros acc n; simpl.
  - intros H; injection H as _ _ <-. simpl; lia.
  - destruct (isDigit c).
    + intros H. apply IH in H. lia.
    + intros H; injection H as _ _ <-. simpl; lia.
Qed.

Lemma parse_number_length (s : jsstring) q r :
  parse_number s = POk q r -> (length r <= length s)%nat.
Proof.
  unfold parse_number. intros H.
  repeat match goal with
         | E : context [match ?x with _ => _ end] |- _ =>
             destruct x eqn:?; try discriminate
         | E : take_digits _ _ _ = _ |- _ =>
             apply take_digits_length in E
         | E : (_, _) = (_, _) |- _ => inversion E; clear E; subst
         | E : Some _ = Some _ |- _ => inversion E; clear E; subst
         | E : POk _ _ = POk _ _ |- _ => inversion E; clear E; subst
         end; subst; simpl in *; lia.
Qed.

Lemma skip_ws_cons_length (s : jsstring) c r :
  skip_ws s = c :: r -> (length r < length s)%nat.
Proof.
  intros H. pose proof (skip_ws_length s) as L. rewrite H in L.
  simpl in L. lia.
Qed.

Lemma parse_word_length w v0 s v r :
  parse_word w v0 s = POk v r -> (length r <= length s)%nat.
Proof.
  intros H. apply parse_word_ok in H. destruct H as [_ ->].
  rewrite length_skipn. lia.
Qed.

Ltac lengths :=
  repeat match goal with
         | E : skip_ws _ = _ :: _ |- _ => apply skip_ws_cons_length in E
         | E : parse_chars _ _ = POk _ _ |- _ => apply parse_chars_length in E
         | E : parse_number _ = POk _ _ |- _ => apply parse_number_length in E
         | E : parse_word _ _ _ = POk _ _ |- _ => apply parse_word_length in E
         | E : pmap _ _ = POk _ _ |- _ =>
             apply pmap_ok in E; destruct E as [? [E _]]
         | E : POk _ _ = POk _ _ |- _ => inversion E; clear E; subst
         end.

(** Parsing never gives back more text than it was given. *)
Lemma parse_lengths (f : nat) :
  (forall s v r, parse_value f s = POk v r ->
                 (length r <= length s)%nat) /\
  (forall s acc v r, parse_elements f s acc = POk v r ->
                     (length r <= length s)%nat) /\
  (forall s acc v r, parse_members f s acc = POk v r ->
                     (length r <= length s)%nat).
Proof.
  induction f as [|f [IHv [IHe IHm]]];
    (split; [|split]); intros; try discriminate.
  - cbn [parse_value] in H.
    repeat (break_match H; try discriminate); lengths;
      try (apply IHe in H); try (apply IHm in H); simpl in *; lia.
  - cbn [parse_elements] in H.
    repeat (break_match H; try discriminate); lengths;
      repeat match goal with
             | E : parse_value f _ = POk _ _ |- _ => apply IHv in E
             end;
      try (apply IHe in H); simpl in *; lia.
  - cbn [parse_members] in H.
    repeat (break_match H; try discriminate); lengths;
      repeat match goal with
             | E : parse_value f _ = POk _ _ |- _ => apply IHv in E
             end;
      try (apply IHm in H); simpl in *; lia.
Qed.

Lemma parse_chars_nofuel (s acc : jsstring) : parse_chars s acc <> PFuel.
Proof.
  remember (length s) as n eqn:Hn. revert s acc Hn.
  induction n as [n IH] using lt_wf_ind. intros s acc Hn H.
  destruct s as [|c s']; [discriminate|]. cbn [parse_chars] in H.
  simpl in Hn.
  repeat (break_match H; try discriminate); subst; simpl in *;
    match goal with
    | F : parse_chars ?s0 ?a = PFuel |- _ =>
        refine (IH (length s0) _ s0 a eq_refl F); lia
    end.
Qed.

Lemma parse_number_nofuel (s : jsstring) : parse_number s <> PFuel.
Proof.
  unfold parse_number. intros H.
  repeat (break_match H; try discriminate).
Qed.

Lemma parse_word_nofuel w v0 s : parse_word w v0 s <> PFuel.
Proof. unfold parse_word. destruct (startsWith s (lit w)); discriminate. Qed.

Lemma pmap_nofuel {A B : Type} (g : A -> B) (x : presult A) :
  pmap g x = PFuel -> x = PFuel.
Proof. destruct x; simpl; congruence. Qed.

(** With a budget above twice the length of the text, the budget is
    never what stops the parser. *)
Lemma parse_nofuel (f : nat) :
  (forall s, (2 * length s < f)%nat -> parse_value f s <> PFuel) /\
  (forall s acc, (2 * length s + 1 < f)%nat ->
                 parse_elements f s acc <> PFuel) /\
  (forall s acc, (2 * length s + 1 < f)%nat ->
                 parse_members f s acc <> PFuel).
Proof.
  induction f as [|f [IHv [IHe IHm]]];
    (split; [|split]); intros; try lia; intros F.
  - cbn [parse_value] in F.
    repeat (break_match F; try discriminate);
      try (apply pmap_nofuel in F);
      try (apply parse_chars_nofuel in F; exact F);
      try (apply parse_number_nofuel in F; exact F);
      try (apply parse_word_nofuel in F; exact F);
      lengths.
    + apply IHe in F; [exact F | simpl in *; lia].
    + apply IHm in F; [exact F | simpl in *; lia].
  - cbn [parse_elements] in F.
    destruct (parse_value f s) as [v r| |] eqn:E; try discriminate.
    + apply (proj1 (parse_lengths f)) in E.
      repeat (break_match F; try discriminate); lengths.
      apply IHe in F; [exact F | simpl in *; lia].
    + apply IHv in E; [exact E | lia].
  - cbn [parse_members] in F.
    repeat (break_match F; try discriminate); lengths;
      try match goal with
          | E : parse_chars _ _ = PFuel |- _ =>
              apply parse_chars_nofuel in E; exact E
          end.
    + match goal with
      | E : parse_value f _ = POk _ _ |- _ =>
          apply (proj1 (parse_lengths f)) in E
      end.
      apply IHm in F; [exact F | simpl in *; lia].
    + match goal with
      | E : parse_value f _ = PFuel |- _ =>
          apply IHv in E; [exact E | simpl in *; lia]
      end.
Qed.

(** [JSON_parse] gives its parser enough budget: a [None] is a syntax
    error of the text, never an exhausted budget. *)
Lemma JSON_parse_fuel (text : jsstring) :
  parse_value (fuel_for text) text <> PFuel.
Proof.
  apply (proj1 (parse_nofuel (fuel_for text))). unfold fuel_for. lia.
Qed.

End ParserFuel.

(* ===================================================================== *)
(** ** Facts about [sort] and [slice] *)
(* ===================================================================== *)

Module SortFacts.

Section Sorting.

Context {A : Type} (cmp : A -> A -> Z).

Lemma insert_perm (x : A) (l : list A) :
  Permutation (insert cmp x l) (x :: l).
Proof.
  induction l as [|y l IH]; simpl; [reflexivity|].
  destruct (cmp x y <? 0); [reflexivity|].
  rewrite IH. apply perm_swap.
Qed.

Lemma fold_insert_perm (l acc : list A) :
  Permutation (fold_left (fun acc x => insert cmp x acc) l acc) (acc ++ l).
Proof.
  revert acc; induction l as [|x l IH]; intros acc; simpl.
  - rewrite app_nil_r. reflexivity.
  - rewrite IH, insert_perm. apply Permutation_middle.
Qed.

(** The sort rearranges and loses nothing. *)
Lemma sort_perm (l : list A) : Permutation (sort cmp l) l.
Proof. apply (fold_insert_perm l []). Qed.

(** On a set [P] of elements where the comparator agrees with an order
    [le], the sort puts the elements in that order. *)
Context (P : A -> Prop) (le : A -> A -> Prop).
Hypothesis before : forall x y, P x -> P y -> cmp x y < 0 -> le x y.
Hypothesis after : forall x y, P x -> P y -> 0 <= cmp x y -> le y x.

Lemma insert_HdRel (y x : A) (l : list A) :
  le y x -> HdRel le y l -> HdRel le y (insert cmp x l).
Proof.
  intros Hyx H. destruct l as [|z l]; simpl; [constructor; exact Hyx|].
  destruct (cmp x z <? 0); constructor; [exact Hyx|].
  inversion H; assumption.
Qed.

Lemma insert_sorted (x : A) (l : list A) :
  P x -> Forall P l -> Sorted le l -> Sorted le (insert cmp x l).
Proof.
  intros Px. induction l as [|y l IH]; intros Pl Sl; simpl.
  - constructor; constructor.
  - inversion Pl as [|? ? Py Pl']; subst.
    inversion Sl as [|? ? Sl' Hd]; subst.
    destruct (Z.ltb_spec (cmp x y) 0) as [Lt|Ge].
    + constructor; [exact Sl|]. constructor. apply before; assumption.
    + constructor; [apply IH; assumption|].
      apply insert_HdRel; [|exact Hd]. apply after; assumption.
Qed.

Lemma fold_insert_sorted (l acc : list A) :
  Forall P l -> Forall P acc -> Sorted le acc ->
  Sorted le (fold_left (fun acc x => insert cmp x acc) l acc).
Proof.
  revert acc; induction l as [|x l IH]; intros acc Pl Pacc Sacc; simpl;
    [exact Sacc|].
  inversion Pl; subst. apply IH; [assumption| |].
  - eapply Permutation_Forall; [symmetry; apply insert_perm|].
    constructor; assumption.
  - apply insert_sorted; assumption.
Qed.

Lemma sort_sorted (l : list A) : Forall P l -> Sorted le (sort cmp l).
Proof.
  intros Pl. apply fold_insert_sorted; [exact Pl|constructor|constructor].
Qed.

End Sorting.

(** [slice(-n)] keeps the last [n] elements. *)
Lemma slice_last {A : Type} (l : list A) (n : Z) :
  0 < n ->
  slice l (- n) None = skipn (length l - Z.to_nat n) l.
Proof.
  intros Hn. unfold slice.
  destruct (Z.ltb_spec (- n) 0) as [_|]; [|lia].
  set (k := Z.max (Z.of_nat (length l) + - n) 0).
  replace (Z.to_nat k) with (length l - Z.to_nat n)%nat by lia.
  apply firstn_all2. rewrite length_skipn. lia.
Qed.

(** [slice(0, n)] keeps the first [n] elements. *)
Lemma slice_first {A : Type} (l : list A) (n : Z) :
  0 <= n ->
  slice l 0 (Some n) = firstn (Z.to_nat n) l.
Proof.
  intros Hn. unfold slice.
  destruct (Z.ltb_spec 0 0) as [|_]; [lia|].
  destruct (Z.ltb_spec n 0) as [|_]; [lia|].
  replace (Z.to_nat (Z.min 0 (Z.of_nat (length l)))) with 0%nat by lia.
  cbn [skipn].
  destruct (Z.le_ge_cases n (Z.of_nat (length l))).
  - f_equal. lia.
  - rewrite !firstn_all2 by lia. reflexivity.
Qed.

End SortFacts.
Import SortFacts.

(* ===================================================================== *)
(** ** The sample runtime keeps the promise on dates *)
(* ===================================================================== *)

Module SampleFacts.

Import Sample.

Lemma unlit_lit (s : String.string) : unlit (lit s) = s.
Proof.
  unfold unlit, lit. rewrite map_map.
  rewrite (map_ext _ (fun a => a)) by apply Ascii.ascii_N_embedding.
  rewrite map_id. apply String.string_of_list_ascii_of_string.
Qed.

Lemma lit_bounded (s : String.string) :
  forallb (fun c => (c <? 256)%N) (lit s) = true.
Proof.
  unfold lit. apply forallb_forall. intros c Hc.
  apply in_map_iff in Hc. destruct Hc as [a [<- _]].
  apply N.ltb_lt. apply Ascii.N_ascii_bounded.
Qed.

Lemma sample_roundtrip : iso_roundtrip runtime.
Proof.
  intros t _. cbn [runtime Date_parse toISOString].
  unfold read_ms, print_ms.
  rewrite lit_bounded, unlit_lit, DecimalString.NilEmpty.isi.
  cbn [option_map]. rewrite DecimalZ.of_to. reflexivity.
Qed.

Lemma sample_random : unit_random runtime.
Proof.
  intros k. cbn [runtime random]. unfold hundredths, Qle, Qlt.
  cbn [Qnum Qden].
  pose proof (Z.mod_pos_bound (Z.of_nat k * 37) 100 ltac:(lia)). lia.
Qed.

(** The first reading of the sample clock is well inside the dates. *)
Lemma sample_margin : in_margin (clock runtime 0).
Proof. cbn [runtime clock]. unfold in_margin, valid_instant. lia. Qed.

End SampleFacts.
Import SampleFacts.

(* ===================================================================== *)
(** ** The truncator *)
(* ===================================================================== *)

Module Truncator.

Lemma substring_prefix (s : jsstring) (n : Z) :
  0 <= n <= Z.of_nat (length s) ->
  substring s 0 n = firstn (Z.to_nat n) s.
Proof.
  intros H. unfold substring.
  replace (Z.min (Z.max 0 0) (Z.of_nat (length s))) with 0 by lia.
  replace (Z.min (Z.max n 0) (Z.of_nat (length s))) with n by lia.
  replace (Z.min 0 n) with 0 by lia.
  replace (Z.max 0 n - 0) with n by lia.
  reflexivity.
Qed.

(** A text within the limit goes through as it is. *)
Lemma truncate_short (s : jsstring) :
  Z.of_nat (length s) <= MAX_CHARS -> truncate s = (s, []).
Proof.
  intros H. unfold truncate.
  destruct (Z.gtb_spec (Z.of_nat (length s)) MAX_CHARS); [lia|reflexivity].
Qed.

Lemma truncate_long (s : jsstring) :
  Z.of_nat (length s) > MAX_CHARS ->
  truncate s = (firstn (Z.to_nat MAX_CHARS) s, truncation_notice).
Proof.
  intros H. unfold truncate.
  destruct (Z.gtb_spec (Z.of_nat (length s)) MAX_CHARS); [|lia].
  rewrite substring_prefix; [reflexivity|]. unfold MAX_CHARS in *. lia.
Qed.

(** C3. For every string [s], [prepare s] is [(s, false)] when [s] has
    at most 500000 code units; when it has more, it is the prefix of
    exactly 500000 code units of [s] followed by the fixed truncation
    notice, with [true]. *)
Theorem prepare_spec (s : jsstring) :
  (Z.of_nat (length s) <= 500000 -> prepare s = (s, false)) /\
  (Z.of_nat (length s) > 500000 ->
   exists prefix rest,
     s = prefix ++ rest /\
     Z.of_nat (length prefix) = 500000 /\
     prepare s = (prefix ++ truncation_notice, true)).
Proof.
  split; intros H; unfold prepare.
  - rewrite truncate_short by exact H. rewrite app_nil_r. reflexivity.
  - rewrite truncate_long by exact H.
    exists (firstn (Z.to_nat MAX_CHARS) s), (skipn (Z.to_nat MAX_CHARS) s).
    split; [symmetry; apply firstn_skipn|].
    split; [|reflexivity].
    rewrite length_firstn. unfold MAX_CHARS. lia.
Qed.

(** A text of three code units, and one of 500001. *)
Lemma prepare_spec_witness :
  (Z.of_nat (length (lit "abc")) <= 500000 /\
   prepare (lit "abc") = (lit "abc", false)) /\
  (Z.of_nat (length (repeat 97%N (Z.to_nat 500001))) > 500000 /\
   exists prefix rest,
     repeat 97%N (Z.to_nat 500001) = prefix ++ rest /\
     Z.of_nat (length prefix) = 500000 /\
     prepare (repeat 97%N (Z.to_nat 500001))
     = (prefix ++ truncation_notice, true)).
Proof.
  split; split.
  - simpl. lia.
  - apply (proj1 (prepare_spec (lit "abc"))). simpl. lia.
  - rewrite repeat_length. lia.
  - apply (proj2 (prepare_spec (repeat 97%N (Z.to_nat 500001)))).
    rewrite repeat_length. lia.
Defined.

(** The request carries the payload after its heading. *)
Lemma request_text_prepare (s : jsstring) :
  analyzeLogsWithGemini s
  = lit "Analyze these logs:" ++ [10%N] ++ fst (prepare s).
Proof.
  unfold analyzeLogsWithGemini, prepare. destruct (truncate s); reflexivity.
Qed.

End Truncator.

(* ===================================================================== *)
(** ** Upload: what becomes of the batch and of the text *)
(* ===================================================================== *)

Module Upload.

Import Sample.

(** The three outcomes of the callback. *)
Lemma upload_failure (rt : Runtime) (st : State) (text : jsstring) :
  looks_structured text = true -> JSON_parse text = None ->
  handleFileUpload rt st text = Ok (processLogs text st).
Proof.
  intros Hs Hp. unfold handleFileUpload, upload_try.
  rewrite Hs, Hp. reflexivity.
Qed.

Lemma upload_array (rt : Runtime) (st : State) (text : jsstring)
  (elems : list JSON) :
  JSON_parse text = Some (JArr elems) ->
  handleFileUpload rt st text
  = Ok (processLogs text (setLogs (map LogEntry_of elems) st)).
Proof.
  intros Hp. unfold handleFileUpload, upload_try.
  rewrite (parsed_array_looks_structured _ _ Hp), Hp. reflexivity.
Qed.

Lemma upload_raw (rt : Runtime) (st : State) (text : jsstring) :
  looks_structured text = false ->
  handleFileUpload rt st text
  = Ok (processLogs text
          (setLogs (raw_entries rt (clock_reads st) (nonblank_lines text))
                   (read_clock (length (nonblank_lines text)) st))).
Proof.
  intros Hs. unfold handleFileUpload, upload_try.
  rewrite Hs. reflexivity.
Qed.

Lemma raw_entries_length (rt : Runtime) (c : nat) (lines : list jsstring) :
  length (raw_entries rt c lines) = length lines.
Proof.
  revert c; induction lines as [|l lines IH]; intros c; simpl;
    [reflexivity | rewrite IH; reflexivity].
Qed.

Lemma raw_entries_nth (rt : Runtime) (lines : list jsstring) :
  forall (c i : nat) (line : jsstring),
    nth_error lines i = Some line ->
    nth_error (raw_entries rt c lines) i = Some (raw_entry rt (c + i) line).
Proof.
  induction lines as [|l lines IH]; intros c [|i] line H;
    simpl in *; try discriminate.
  - injection H as ->. rewrite Nat.add_0_r. reflexivity.
  - rewrite (IH (S c) i line H). f_equal. f_equal. lia.
Qed.

(** The lines kept are the pieces between line feeds that do not trim
    to the empty string. *)
Lemma nonblank_lines_spec (text line : jsstring) :
  In line (nonblank_lines text) <->
  In line (split 10%N text) /\ trim line <> [].
Proof.
  unfold nonblank_lines. rewrite filter_In.
  destruct (trim line); simpl; intuition congruence.
Qed.

(** Whatever the input, the callback completes and has handed the text,
    as it came, to the analyser. *)
Lemma upload_forwards (rt : Runtime) (st : State) (text : jsstring) :
  exists st',
    handleFileUpload rt st text = Ok st' /\
    analyzed st' = analyzed st ++ [text].
Proof.
  unfold handleFileUpload, upload_try.
  destruct (looks_structured text).
  - destruct (JSON_parse text); simpl; eexists; split; reflexivity.
  - simpl. eexists; split; reflexivity.
Qed.

(** C7. For every raw input, the text handed to the analyser is the
    input itself, unchanged, whether it parsed as structured data, failed
    to parse, or was read as plain lines; the callback always completes,
    so a failed normalisation never stands in the way of the analysis.
    The request made for it is the one of the truncator. *)
Theorem raw_text_always_forwarded (rt : Runtime) (st : State)
  (text : jsstring) :
  exists st',
    handleFileUpload rt st text = Ok st' /\
    analyzed st' = analyzed st ++ [text] /\
    map analyzeLogsWithGemini (analyzed st')
    = map analyzeLogsWithGemini (analyzed st) ++ [analyzeLogsWithGemini text].
Proof.
  destruct (upload_forwards rt st text) as [st' [H1 H2]].
  exists st'. split; [exact H1|]. split; [exact H2|].
  rewrite H2, map_app. reflexivity.
Qed.

(** C10. When the trimmed input starts with a bracket or a brace and
    does not parse, the state is left as it was (the batch held before is
    neither replaced by entries made of the lines nor emptied, no clock
    or random number is read), except that the text has been handed to
    the analyser. *)
Theorem parse_failure_keeps_batch (rt : Runtime) (st : State)
  (text : jsstring) :
  looks_structured text = true -> JSON_parse text = None ->
  exists st',
    handleFileUpload rt st text = Ok st' /\
    logs st' = logs st /\
    clock_reads st' = clock_reads st /\
    random_reads st' = random_reads st /\
    analyzed st' = analyzed st ++ [text].
Proof.
  intros Hs Hp. rewrite (upload_failure rt st text Hs Hp).
  eexists; repeat split; reflexivity.
Qed.

(** A component that holds one entry receives a file that says [{bad]. *)
Lemma parse_failure_keeps_batch_witness :
  looks_structured (lit "{bad") = true /\
  JSON_parse (lit "{bad") = None /\
  exists st',
    handleFileUpload runtime held (lit "{bad") = Ok st' /\
    logs st' = logs held /\
    clock_reads st' = clock_reads held /\
    random_reads st' = random_reads held /\
    analyzed st' = analyzed held ++ [lit "{bad"].
Proof.
  split; [reflexivity|]. split; [reflexivity|].
  apply (parse_failure_keeps_batch runtime held (lit "{bad"));
    reflexivity.
Defined.

(** C1, as the code has it.  On an input whose trimmed form starts
    with a bracket or a brace and that does not parse, the callback does
    not go over to reading lines: it keeps the batch it held.  Reading
    lines is what it does when the trimmed input starts with neither:
    the entries are then the non-blank lines in order, each with
    [message] the line, [timestamp] the clock when the line was reached,
    [ip] "Unknown" and [action] "RAW_LOG".  On no input does the
    callback throw. *)
Theorem upload_modes (rt : Runtime) (st : State) (text : jsstring) :
  (exists st', handleFileUpload rt st text = Ok st') /\
  (looks_structured text = true -> JSON_parse text = None ->
   exists st', handleFileUpload rt st text = Ok st' /\
               logs st' = logs st) /\
  (looks_structured text = false ->
   exists st',
     handleFileUpload rt st text = Ok st' /\
     length (logs st') = length (nonblank_lines text) /\
     forall i line,
       nth_error (nonblank_lines text) i = Some line ->
       exists e,
         nth_error (logs st') i = Some e /\
         message e = Some line /\
         timestamp e
         = Some (toISOString rt (clock rt (clock_reads st + i))) /\
         ip e = Some (lit "Unknown") /\
         action e = Some (lit "RAW_LOG")).
Proof.
  split; [|split].
  - destruct (upload_forwards rt st text) as [st' [H _]].
    exists st'; exact H.
  - intros Hs Hp. rewrite (upload_failure rt st text Hs Hp).
    eexists; split; reflexivity.
  - intros Hs. rewrite (upload_raw rt st text Hs).
    eexists; split; [reflexivity|]. cbn [logs processLogs setLogs].
    split; [apply raw_entries_length|].
    intros i line Hi. eexists; split.
    + apply raw_entries_nth; exact Hi.
    + repeat split; reflexivity.
Qed.

Lemma upload_modes_witness :
  (exists st', handleFileUpload runtime held (lit "{bad") = Ok st') /\
  (looks_structured (lit "{bad") = true /\
   JSON_parse (lit "{bad") = None /\
   exists st', handleFileUpload runtime held (lit "{bad") = Ok st' /\
               logs st' = logs held) /\
  (looks_structured (lit "hello") = false /\
   exists st',
     handleFileUpload runtime held (lit "hello") = Ok st' /\
     length (logs st') = length (nonblank_lines (lit "hello")) /\
     forall i line,
       nth_error (nonblank_lines (lit "hello")) i = Some line ->
       exists e,
         nth_error (logs st') i = Some e /\
         message e = Some line /\
         timestamp e
         = Some (toISOString runtime
                   (clock runtime (clock_reads held + i))) /\
         ip e = Some (lit "Unknown") /\
         action e = Some (lit "RAW_LOG")).
Proof.
  split; [|split].
  - apply (proj1 (upload_modes runtime held (lit "{bad"))).
  - split; [reflexivity|]. split; [reflexivity|].
    apply (proj1 (proj2 (upload_modes runtime held (lit "{bad"))));
      reflexivity.
  - split; [reflexivity|].
    apply (proj2 (proj2 (upload_modes runtime held (lit "hello"))));
      reflexivity.
Defined.

(** C1 as the specification words it fails: the file [{bad] starts
    with a brace and does not parse, and the batch afterwards is not the
    one entry that reading its line would give. *)
Lemma bad_json_is_not_read_as_lines :
  looks_structured (lit "{bad") = true /\
  JSON_parse (lit "{bad") = None /\
  nonblank_lines (lit "{bad") = [lit "{bad"] /\
  exists st',
    handleFileUpload runtime initial (lit "{bad") = Ok st' /\
    logs st' = [] /\
    logs st' <> raw_entries runtime (clock_reads initial)
                  (nonblank_lines (lit "{bad")).
Proof.
  split; [reflexivity|]. split; [reflexivity|]. split; [reflexivity|].
  eexists. split; [reflexivity|]. split; [reflexivity|].
  cbn. discriminate.
Qed.

Lemma LogEntry_of_absent (v : JSON) :
  (prop v "timestamp" = None -> timestamp (LogEntry_of v) = None) /\
  (prop v "ip" = None -> ip (LogEntry_of v) = None) /\
  (prop v "action" = None -> action (LogEntry_of v) = None).
Proof.
  unfold LogEntry_of; cbn [timestamp ip action].
  repeat split; intros ->; reflexivity.
Qed.

(** C2, as the code has it.  An input that parses as a JSON array
    gives a batch of the length of the array, made of its elements in
    order, each taken as it is: nothing is validated and nothing is
    filled in, so an element without [timestamp], [ip] or [action] gives
    a record without it. *)
Theorem upload_array_as_is (rt : Runtime) (st : State) (text : jsstring)
  (elems : list JSON) :
  JSON_parse text = Some (JArr elems) ->
  exists st',
    handleFileUpload rt st text = Ok st' /\
    length (logs st') = length elems /\
    logs st' = map LogEntry_of elems /\
    forall i v,
      nth_error elems i = Some v ->
      exists e,
        nth_error (logs st') i = Some e /\
        (prop v "timestamp" = None -> timestamp e = None) /\
        (prop v "ip" = None -> ip e = None) /\
        (prop v "action" = None -> action e = None).
Proof.
  intros Hp. rewrite (upload_array rt st text elems Hp).
  eexists; split; [reflexivity|]. cbn [logs processLogs setLogs].
  split; [apply length_map|]. split; [reflexivity|].
  intros i v Hi. exists (LogEntry_of v). split.
  - rewrite nth_error_map, Hi. reflexivity.
  - apply LogEntry_of_absent.
Qed.

Lemma upload_array_as_is_witness :
  JSON_parse array_of_empty_object = Some (JArr [JObj []]) /\
  exists st',
    handleFileUpload runtime initial array_of_empty_object = Ok st' /\
    length (logs st') = length [JObj []] /\
    logs st' = map LogEntry_of [JObj []] /\
    forall i v,
      nth_error [JObj []] i = Some v ->
      exists e,
        nth_error (logs st') i = Some e /\
        (prop v "timestamp" = None -> timestamp e = None) /\
        (prop v "ip" = None -> ip e = None) /\
        (prop v "action" = None -> action e = None).
Proof.
  split; [reflexivity|].
  apply (upload_array_as_is runtime initial array_of_empty_object
           [JObj []]).
  reflexivity.
Defined.

(** C2 as the specification words it fails: [[{}]] is a valid JSON
    array, and the record it gives has no [timestamp], no [ip] and no
    [action]. *)
Lemma empty_object_is_not_populated :
  JSON_parse array_of_empty_object = Some (JArr [JObj []]) /\
  exists st',
    handleFileUpload runtime initial array_of_empty_object = Ok st' /\
    length (logs st') = 1%nat /\
    ~ Forall populated (logs st').
Proof.
  split; [reflexivity|].
  eexists. split; [reflexivity|]. split; [reflexivity|].
  cbn. intros H. inversion H as [|e l [Ht _] _]; subst.
  apply Ht. reflexivity.
Qed.

End Upload.

(* ===================================================================== *)
(** ** The demo generator *)
(* ===================================================================== *)

Module Generator.

Import Sample.

Lemma gen_loop_unfold (rt : Runtime) (now count i : Z) (k : nat)
  (logs : list LogEntry) :
  gen_loop rt now count i k logs =
  if i <? count then
    match slot rt now k with
    | Throw e => Throw e
    | Ok (pushed, true) =>
        gen_loop rt now count (i + 7 + 1) (k + 2) (logs ++ pushed)
    | Ok (pushed, false) =>
        gen_loop rt now count (i + 1) (k + 7) (logs ++ pushed)
    end
  else Ok (logs, k).
Proof.
  rewrite gen_loop_equation_1.
  destruct (Z_lt_dec i count) as [H|H]; destruct (Z.ltb_spec i count);
    try lia; simpl.
  - destruct (slot rt now k) as [[pushed []]|e]; reflexivity.
  - reflexivity.
Qed.

Section WithDates.

Variable rt : Runtime.
Hypothesis dates : iso_roundtrip rt.
Hypothesis draws : unit_random rt.

(** The instant of a slot lies in the hour before [now]. *)
Lemma slot_instant_range (now : Z) (k : nat) :
  now - 3600000 <= slot_instant rt now k <= now.
Proof.
  unfold slot_instant. destruct (draws k) as [H0 H1].
  set (x := (inject_Z now - random rt k * inject_Z 3600000)%Q).
  assert (Lo : (inject_Z (now - 3600000) <= x)%Q).
  { unfold x. replace (now - 3600000) with (now + - 3600000) by lia.
    rewrite inject_Z_plus.
    change (inject_Z (- 3600000)) with (- 3600000 # 1)%Q.
    change (inject_Z 3600000) with (3600000 # 1)%Q. lra. }
  assert (Hi : (x <= inject_Z now)%Q).
  { unfold x. change (inject_Z 3600000) with (3600000 # 1)%Q. lra. }
  assert (F : now - 3600000 <= Qfloor x).
  { rewrite <- (Qfloor_Z (now - 3600000)). apply Qfloor_resp_le; exact Lo. }
  assert (C : Qceiling x <= now).
  { rewrite <- (Qceiling_Z now). apply Qceiling_resp_le; exact Hi. }
  pose proof (Qle_floor_ceiling x) as FC. rewrite <- Zle_Qle in FC.
  unfold Qtrunc. destruct (Qle_bool 0 x); lia.
Qed.

Lemma slot_instant_valid (now : Z) (k : nat) (j : Z) :
  in_margin now -> 0 <= j <= 7 ->
  valid_instant (slot_instant rt now k + j * 1000).
Proof.
  intros [[L _] [_ U]] Hj. pose proof (slot_instant_range now k).
  unfold valid_instant in *. lia.
Qed.

Lemma burst_entry_ok (t0 j : Z) :
  valid_instant t0 ->
  burst_entry rt (toISOString rt t0) j = Ok (burst_record rt t0 j).
Proof. intros V. unfold burst_entry. rewrite (dates t0 V). reflexivity. Qed.

Lemma burst_record_time (t0 j : Z) :
  valid_instant (t0 + j * 1000) ->
  getTime rt (burst_record rt t0 j) = Some (t0 + j * 1000).
Proof. unfold getTime, burst_record; cbn [timestamp]. apply dates. Qed.

Lemma normal_entry_time (t : Z) (k : nat) :
  valid_instant t ->
  getTime rt (normal_entry rt (toISOString rt t) k) = Some t.
Proof. unfold getTime, normal_entry; cbn [timestamp]. apply dates. Qed.

(** A slot where the draw falls below 0.05 pushes the eight records of a
    burst. *)
Lemma slot_attack (now : Z) (k : nat) :
  in_margin now -> isAttack rt k = true ->
  slot rt now k
  = Ok (map (burst_record rt (slot_instant rt now k))
          (map Z.of_nat (seq 0 8)), true).
Proof.
  intros M H. unfold slot. rewrite H.
  assert (V : valid_instant (slot_instant rt now k)).
  { replace (slot_instant rt now k) with (slot_instant rt now k + 0 * 1000)
      by lia.
    apply slot_instant_valid; [exact M|lia]. }
  cbn [seq map mapM].
  rewrite !(fun j => burst_entry_ok _ j V). reflexivity.
Qed.

Lemma slot_normal (now : Z) (k : nat) :
  isAttack rt k = false ->
  slot rt now k
  = Ok ([normal_entry rt (toISOString rt (slot_instant rt now k)) (k + 2)],
        false).
Proof. intros H. unfold slot. rewrite H. reflexivity. Qed.

(** Every slot completes: it pushes eight dated entries and says so, or
    one. *)
Lemma slot_spec (now : Z) (k : nat) :
  in_margin now ->
  exists pushed b,
    slot rt now k = Ok (pushed, b) /\
    Forall (dated rt) pushed /\
    length pushed = (if b : bool then 8 else 1)%nat.
Proof.
  intros M. destruct (isAttack rt k) eqn:E.
  - rewrite (slot_attack now k M E). eexists _, true.
    split; [reflexivity|]. split; [|reflexivity].
    rewrite map_map. apply Forall_map. apply Forall_forall. intros j Hj.
    apply in_seq in Hj. eexists. apply burst_record_time.
    apply slot_instant_valid; [exact M|lia].
  - rewrite (slot_normal now k E). eexists _, false.
    split; [reflexivity|]. split; [|reflexivity].
    constructor; [|constructor]. eexists. apply normal_entry_time.
    replace (slot_instant rt now k) with (slot_instant rt now k + 0 * 1000)
      by lia.
    apply slot_instant_valid; [exact M|lia].
Qed.

(** The loop from slot [i] on: it completes, it only appends, and what it
    appends is dated and, when [i] is below [count], has between
    [count - i] and [count - i + 7] entries. *)
Lemma gen_loop_spec (now count : Z) :
  in_margin now ->
  forall (n : nat) (i : Z) (k : nat) (logs : list LogEntry),
    Z.to_nat (count - i) = n ->
    exists pushed k',
      gen_loop rt now count i k logs = Ok (logs ++ pushed, k') /\
      Forall (dated rt) pushed /\
      (i < count ->
       count - i <= Z.of_nat (length pushed) <= count - i + 7) /\
      (count <= i -> pushed = []).
Proof.
  intros M.
  induction n as [n IH] using lt_wf_ind. intros i k logs Hn.
  rewrite gen_loop_unfold. destruct (Z.ltb_spec i count) as [Lt|Ge].
  - destruct (slot_spec now k M) as [p [b [Hs [Hd Hl]]]]. rewrite Hs.
    destruct b.
    + destruct (IH (Z.to_nat (count - (i + 7 + 1))) ltac:(lia)
                  (i + 7 + 1) (k + 2)%nat (logs ++ p) eq_refl)
        as [q [k' [Hg [Hq [Hlt Hge]]]]].
      exists (p ++ q), k'. rewrite app_assoc. split; [exact Hg|].
      split; [apply Forall_app; split; assumption|].
      split; [|lia]. intros _. rewrite length_app, Hl.
      destruct (Z.lt_ge_cases (i + 7 + 1) count) as [L|G].
      * specialize (Hlt L). lia.
      * rewrite (Hge ltac:(lia)). simpl. lia.
    + destruct (IH (Z.to_nat (count - (i + 1))) ltac:(lia)
                  (i + 1) (k + 7)%nat (logs ++ p) eq_refl)
        as [q [k' [Hg [Hq [Hlt Hge]]]]].
      exists (p ++ q), k'. rewrite app_assoc. split; [exact Hg|].
      split; [apply Forall_app; split; assumption|].
      split; [|lia]. intros _. rewrite length_app, Hl.
      destruct (Z.lt_ge_cases (i + 1) count) as [L|G].
      * specialize (Hlt L). lia.
      * rewrite (Hge ltac:(lia)). simpl. lia.
  - exists [], k. rewrite app_nil_r. split; [reflexivity|].
    split; [constructor|]. split; [lia|reflexivity].
Qed.

Lemma by_time_before (x y : LogEntry) :
  dated rt x -> dated rt y -> by_time rt x y < 0 -> time_le rt x y.
Proof.
  intros [a Ha] [b Hb]. unfold by_time, time_le. rewrite Ha, Hb.
  intros H. exists a, b. repeat split; lia.
Qed.

Lemma by_time_after (x y : LogEntry) :
  dated rt x -> dated rt y -> 0 <= by_time rt x y -> time_le rt y x.
Proof.
  intros [a Ha] [b Hb]. unfold by_time, time_le. rewrite Ha, Hb.
  intros H. exists b, a. repeat split; lia.
Qed.

Lemma time_le_trans : Relations_1.Transitive (time_le rt).
Proof.
  intros x y z [a [b [Ha [Hb Hab]]]] [b' [c [Hb' [Hc Hbc]]]].
  rewrite Hb in Hb'. injection Hb' as <-.
  exists a, c. repeat split; try assumption. lia.
Qed.

(** The generator completes; what it returns is what the loop pushed, put
    in the order of the instants. *)
Lemma generateDemoLogs_spec (c k : nat) (count : Z) :
  in_margin (clock rt c) ->
  exists pushed k',
    gen_loop rt (clock rt c) count 0 k [] = Ok (pushed, k') /\
    generateDemoLogs rt c k count = Ok (sort (by_time rt) pushed, k') /\
    Forall (dated rt) pushed /\
    (0 < count -> count <= Z.of_nat (length pushed) <= count + 7) /\
    (count <= 0 -> pushed = []).
Proof.
  intros M.
  destruct (gen_loop_spec (clock rt c) count M _ 0 k [] eq_refl)
    as [p [k' [Hg [Hd [Hlt Hge]]]]].
  exists p, k'. simpl in Hg. split; [exact Hg|].
  unfold generateDemoLogs. rewrite Hg. split; [reflexivity|].
  split; [exact Hd|]. split; [intros H; specialize (Hlt H); lia|exact Hge].
Qed.

Lemma generated_sorted (pushed : list LogEntry) :
  Forall (dated rt) pushed ->
  StronglySorted (time_le rt) (sort (by_time rt) pushed).
Proof.
  intros Hd. apply Sorted_StronglySorted; [exact time_le_trans|].
  apply (sort_sorted (by_time rt) (dated rt) (time_le rt));
    [apply by_time_before | apply by_time_after | exact Hd].
Qed.

(** The eight records of a burst are a burst as the specification
    describes it. *)
Lemma burst_records_shape (now : Z) (k : nat) :
  in_margin now ->
  burst_at rt (slot_instant rt now k)
    (map (burst_record rt (slot_instant rt now k)) (map Z.of_nat (seq 0 8))).
Proof.
  intros M. split; [reflexivity|]. intros j Hj.
  exists (burst_record rt (slot_instant rt now k) (Z.of_nat j)).
  split; [|split].
  - rewrite map_map, nth_error_map, nth_error_seq.
    destruct (Nat.ltb_spec j 8); [reflexivity|lia].
  - apply burst_record_time. apply slot_instant_valid; [exact M|lia].
  - repeat split; reflexivity.
Qed.

(** The loop at a burst: its result is what was pushed so far, the eight
    records, and what the loop pushes from slot [i + 7 + 1] on. *)
Lemma gen_loop_burst (now count i : Z) (k : nat) (logs : list LogEntry) :
  in_margin now -> i < count -> isAttack rt k = true ->
  exists rest k',
    gen_loop rt now count i k logs
    = Ok (logs
          ++ map (burst_record rt (slot_instant rt now k))
               (map Z.of_nat (seq 0 8))
          ++ rest, k') /\
    gen_loop rt now count (i + 7 + 1) (k + 2)
      (logs ++ map (burst_record rt (slot_instant rt now k))
                 (map Z.of_nat (seq 0 8)))
    = Ok (logs
          ++ map (burst_record rt (slot_instant rt now k))
               (map Z.of_nat (seq 0 8))
          ++ rest, k').
Proof.
  intros M Hi Ha.
  set (pushed := map (burst_record rt (slot_instant rt now k))
                   (map Z.of_nat (seq 0 8))).
  destruct (gen_loop_spec now count M _ (i + 7 + 1) (k + 2)%nat
              (logs ++ pushed) eq_refl) as [rest [k' [Hg _]]].
  exists rest, k'. rewrite <- app_assoc in Hg. split; [|exact Hg].
  rewrite (gen_loop_unfold rt now count i).
  destruct (Z.ltb_spec i count); [|lia].
  rewrite (slot_attack now k M Ha). exact Hg.
Qed.

(** A run that has come to a slot has pushed some entries, and goes on
    from the slot with them. *)
Lemma reached_prefix (now count : Z) (k0 : nat) :
  in_margin now ->
  forall (i : Z) (k : nat),
    reached rt count k0 i k ->
    exists before,
      forall logs,
        gen_loop rt now count 0 k0 logs
        = gen_loop rt now count i k (logs ++ before).
Proof.
  intros M i k R. induction R as [|i k _ [before IH] Hi Ha
                                    |i k _ [before IH] Hi Ha].
  - exists []. intros logs. rewrite app_nil_r. reflexivity.
  - exists (before ++ map (burst_record rt (slot_instant rt now k))
                        (map Z.of_nat (seq 0 8))).
    intros logs. rewrite (IH logs), (gen_loop_unfold rt now count i).
    destruct (Z.ltb_spec i count); [|lia].
    rewrite (slot_attack now k M Ha), app_assoc. reflexivity.
  - exists (before
            ++ [normal_entry rt (toISOString rt (slot_instant rt now k))
                  (k + 2)]).
    intros logs. rewrite (IH logs), (gen_loop_unfold rt now count i).
    destruct (Z.ltb_spec i count); [|lia].
    rewrite (slot_normal now k Ha), app_assoc. reflexivity.
Qed.

(** Every burst of a run is in what the loop returns, its eight records
    in a row. *)
Lemma reached_burst (now count : Z) (k0 : nat) (all : list LogEntry)
  (k' : nat) :
  in_margin now ->
  gen_loop rt now count 0 k0 [] = Ok (all, k') ->
  forall (i : Z) (k : nat),
    reached rt count k0 i k -> i < count -> isAttack rt k = true ->
    exists before after,
      all = before
            ++ map (burst_record rt (slot_instant rt now k))
                 (map Z.of_nat (seq 0 8))
            ++ after.
Proof.
  intros M G i k R Hi Ha.
  destruct (reached_prefix now count k0 M i k R) as [before P].
  destruct (gen_loop_burst now count i k before M Hi Ha)
    as [rest [k1 [E _]]].
  specialize (P []). cbn [app] in P. rewrite P, E in G.
  injection G as <- _. exists before, rest. reflexivity.
Qed.

End WithDates.

(** C6. Whatever [count] is, whenever the loop injects a burst (slot
    [i] below [count], draw below 0.05) it emits eight records in a row,
    the j-th dated j seconds after the slot's instant, each with [action]
    LOGIN_FAILED, [ip] the third address of the pool, [user] the first user
    of the pool, [event_id] 4625 and [severity] High: the loop returns what
    was pushed so far, then the eight records, then what it pushes from
    slot [i + 7 + 1] on, seven beyond the increment of the loop.  The
    generator returns; the batch returned is a rearrangement of what the
    loop pushed, in the order of the instants the timestamps parse to,
    earliest first; and for every burst of the run the eight records stand
    in a row in what the loop pushed and are all in the batch.  (The
    runtime is one that keeps its promises on dates and random numbers, and
    the clock is not at the very end of the dates.) *)
Theorem burst_shape_and_order (rt : Runtime) (c k0 : nat) (count : Z) :
  iso_roundtrip rt -> unit_random rt -> in_margin (clock rt c) ->
  (forall (now i : Z) (k : nat) (logs : list LogEntry),
     in_margin now -> i < count -> isAttack rt k = true ->
     exists pushed rest k',
       burst_at rt (slot_instant rt now k) pushed /\
       gen_loop rt now count i k logs = Ok (logs ++ pushed ++ rest, k') /\
       gen_loop rt now count (i + 7 + 1) (k + 2) (logs ++ pushed)
       = Ok (logs ++ pushed ++ rest, k')) /\
  (exists all out k',
     gen_loop rt (clock rt c) count 0 k0 [] = Ok (all, k') /\
     generateDemoLogs rt c k0 count = Ok (out, k') /\
     Permutation out all /\
     StronglySorted (time_le rt) out /\
     forall (i : Z) (k : nat),
       reached rt count k0 i k -> i < count -> isAttack rt k = true ->
       exists before pushed after,
         burst_at rt (slot_instant rt (clock rt c) k) pushed /\
         all = before ++ pushed ++ after /\
         incl pushed out).
Proof.
  intros dates draws margin. split.
  - intros now i k logs M Hi Ha.
    destruct (gen_loop_burst rt dates draws now count i k logs M Hi Ha)
      as [rest [k' [E1 E2]]].
    exists (map (burst_record rt (slot_instant rt now k))
              (map Z.of_nat (seq 0 8))), rest, k'.
    split; [apply burst_records_shape; assumption|].
    split; [exact E1|exact E2].
  - destruct (generateDemoLogs_spec rt dates draws c k0 count margin)
      as [p [k' [G [Hg [Hd _]]]]].
    pose proof (sort_perm (by_time rt) p) as P.
    exists p, (sort (by_time rt) p), k'.
    split; [exact G|]. split; [exact Hg|]. split; [exact P|].
    split; [apply generated_sorted; assumption|].
    intros i k R Hi Ha.
    destruct (reached_burst rt dates draws (clock rt c) count k0 p k'
                margin G i k R Hi Ha) as [before [after E]].
    exists before,
      (map (burst_record rt (slot_instant rt (clock rt c) k))
         (map Z.of_nat (seq 0 8))), after.
    split; [apply burst_records_shape; assumption|].
    split; [exact E|].
    intros e He. apply (Permutation_in _ (Permutation_sym P)).
    rewrite E. apply in_or_app. right. apply in_or_app. left. exact He.
Qed.

(** With the sample runtime the draw of index 19 is 0.03: the run that
    starts at index 18 opens with a burst. *)
Lemma burst_shape_and_order_witness :
  iso_roundtrip runtime /\ unit_random runtime /\
  in_margin (clock runtime 0) /\
  reached runtime 1 18 0 18 /\ 0 < 1 /\ isAttack runtime 18 = true /\
  exists all out k',
    gen_loop runtime (clock runtime 0) 1 0 18 [] = Ok (all, k') /\
    generateDemoLogs runtime 0 18 1 = Ok (out, k') /\
    Permutation out all /\
    StronglySorted (time_le runtime) out /\
    exists before pushed after,
      burst_at runtime (slot_instant runtime (clock runtime 0) 18) pushed /\
      all = before ++ pushed ++ after /\
      incl pushed out.
Proof.
  split; [exact sample_roundtrip|]. split; [exact sample_random|].
  split; [exact sample_margin|]. split; [constructor|].
  split; [lia|]. split; [reflexivity|].
  destruct (burst_shape_and_order runtime 0 18 1 sample_roundtrip
              sample_random sample_margin)
    as [_ [all [out [k' [G [Hg [P [S B]]]]]]]].
  exists all, out, k'. split; [exact G|]. split; [exact Hg|].
  split; [exact P|]. split; [exact S|].
  apply (B 0 18%nat); [constructor|lia|reflexivity].
Defined.

(** C9. For every [count] that is not negative, the generator returns,
    and the batch has at least [count] and at most [count + 7] entries.
    (Same runtime as for the burst.) *)
Theorem generated_length (rt : Runtime) (c k : nat) (count : Z) :
  iso_roundtrip rt -> unit_random rt -> in_margin (clock rt c) ->
  0 <= count ->
  exists out k',
    generateDemoLogs rt c k count = Ok (out, k') /\
    count <= Z.of_nat (length out) <= count + 7.
Proof.
  intros dates draws margin Hc.
  destruct (generateDemoLogs_spec rt dates draws c k count margin)
    as [p [k' [_ [Hg [_ [Hlt Hge]]]]]].
  exists (sort (by_time rt) p), k'. split; [exact Hg|].
  rewrite (Permutation_length (sort_perm (by_time rt) p)).
  destruct (Z.lt_ge_cases 0 count) as [L|G].
  - apply Hlt; exact L.
  - rewrite (Hge G). simpl. lia.
Qed.

Lemma generated_length_witness :
  iso_roundtrip runtime /\ unit_random runtime /\
  in_margin (clock runtime 0) /\ 0 <= 1 /\
  exists out k',
    generateDemoLogs runtime 0 18 1 = Ok (out, k') /\
    1 <= Z.of_nat (length out) <= 1 + 7.
Proof.
  split; [exact sample_roundtrip|]. split; [exact sample_random|].
  split; [exact sample_margin|]. split; [lia|].
  apply (generated_length runtime 0 18 1 sample_roundtrip sample_random
           sample_margin).
  lia.
Defined.

(** The upper bound is met: a burst in the only slot of [count = 1]
    gives eight entries. *)
Example generated_length_bound_met :
  exists out k',
    generateDemoLogs runtime 0 18 1 = Ok (out, k') /\
    length out = 8%nat.
Proof. eexists _, _. split; vm_compute; reflexivity. Qed.

End Generator.

(* ===================================================================== *)
(** ** The order of labels *)
(* ===================================================================== *)

Module LabelOrder.

Lemma compare_eq (a b : jsstring) : compare a b = Eq -> a = b.
Proof.
  revert b; induction a as [|c a IH]; intros [|d b]; simpl;
    try discriminate; [reflexivity|].
  destruct (N.compare_spec c d) as [E|E|E]; try discriminate.
  intros H. subst. f_equal. apply IH; exact H.
Qed.

Lemma compare_refl (a : jsstring) : compare a a = Eq.
Proof.
  induction a as [|c a IH]; simpl; [reflexivity|].
  rewrite N.compare_refl. exact IH.
Qed.

Lemma compare_antisym (a b : jsstring) :
  compare b a = CompOpp (compare a b).
Proof.
  revert b; induction a as [|c a IH]; intros [|d b]; simpl;
    try reflexivity.
  rewrite (N.compare_antisym c d).
  destruct (c ?= d)%N; simpl; [apply IH|reflexivity|reflexivity].
Qed.

Lemma compare_lt_trans (a b c : jsstring) :
  compare a b = Lt -> compare b c = Lt -> compare a c = Lt.
Proof.
  revert b c; induction a as [|x a IH]; intros [|y b] [|z c]; simpl;
    try discriminate; try reflexivity.
  destruct (N.compare_spec x y) as [->|Hxy|Hxy]; try discriminate.
  - destruct (y ?= z)%N; try discriminate; [apply IH|reflexivity].
  - intros _. destruct (N.compare_spec y z) as [->|Hyz|Hyz];
      try discriminate; intros _.
    + apply N.compare_lt_iff in Hxy. rewrite Hxy. reflexivity.
    + assert (H : (x < z)%N) by lia.
      apply N.compare_lt_iff in H. rewrite H. reflexivity.
Qed.

Lemma label_lt_trans : Relations_1.Transitive label_lt.
Proof. intros a b c. apply compare_lt_trans. Qed.

Lemma label_lt_irrefl (a : jsstring) : ~ label_lt a a.
Proof. unfold label_lt. rewrite compare_refl. discriminate. Qed.

End LabelOrder.
Import LabelOrder.

(* ===================================================================== *)
(** ** The timeline *)
(* ===================================================================== *)

Module Timeline.

Import Sample.

(** *** Grouping *)

Lemma bump_times (t : jsstring) (f : bool) (acc : list Point.t) :
  map Point.time (bump t f acc) = map Point.time acc.
Proof.
  induction acc as [|d acc IH]; simpl; [reflexivity|].
  destruct (str_eqb (Point.time d) t); simpl; [reflexivity|].
  rewrite IH. reflexivity.
Qed.

(** A point of the updated list is an old point with another label, or
    the one point with the label, counted once more. *)
Lemma bump_In (t : jsstring) (f : bool) (acc : list Point.t) (p : Point.t) :
  NoDup (map Point.time acc) -> In p (bump t f acc) ->
  (Point.time p <> t /\ In p acc) \/
  (Point.time p = t /\
   exists d, In d acc /\ Point.time d = t /\
             Point.count p = Point.count d + 1 /\
             Point.failed p = Point.failed d + (if f then 1 else 0)).
Proof.
  induction acc as [|d acc IH]; simpl; [contradiction|].
  intros ND. inversion ND as [|? ? Hnot ND']; subst.
  destruct (str_eqb (Point.time d) t) eqn:E.
  - apply str_eqb_eq in E. intros [<-|Hin].
    + right. split; [exact E|]. exists d. simpl.
      repeat split; auto. destruct f; lia.
    + left. split; [|right; exact Hin].
      intros Heq. apply Hnot. rewrite E, <- Heq.
      apply in_map; exact Hin.
  - apply str_eqb_neq in E. intros [<-|Hin].
    + left. split; [exact E|left; reflexivity].
    + destruct (IH ND' Hin) as [[Hne Hi]|[Heq [d' [Hd' H]]]].
      * left. split; [exact Hne|right; exact Hi].
      * right. split; [exact Heq|]. exists d'. split; [right; exact Hd'|exact H].
Qed.

Lemma existsb_time (t : jsstring) (acc : list Point.t) :
  existsb (fun d => str_eqb (Point.time d) t) acc = true <->
  In t (map Point.time acc).
Proof.
  rewrite existsb_exists, in_map_iff. split.
  - intros [d [Hd E]]. apply str_eqb_eq in E. eauto.
  - intros [d [E Hd]]. exists d. split; [exact Hd|].
    apply str_eqb_eq; exact E.
Qed.

Section Grouping.

Variable rt : Runtime.

Lemma chart_step_dated (acc : list Point.t) (l : LogEntry) :
  dated rt l -> chart_step rt (Ok acc) l = Ok (step rt acc l).
Proof.
  intros [t Ht]. unfold chart_step, step, format_HHmm, entry_label.
  rewrite Ht. reflexivity.
Qed.

Lemma fold_chart_step_dated (logs : list LogEntry) (acc : list Point.t) :
  Forall (dated rt) logs ->
  fold_left (chart_step rt) logs (Ok acc) = Ok (fold_left (step rt) logs acc).
Proof.
  revert acc; induction logs as [|l logs IH]; intros acc Hd;
    cbn [fold_left]; [reflexivity|].
  inversion Hd; subst. rewrite chart_step_dated by assumption.
  apply IH; assumption.
Qed.

Lemma count_with_snoc (seen : list LogEntry) (l : LogEntry) (lab : jsstring) :
  count_with rt (seen ++ [l]) lab
  = count_with rt seen lab
    + (if str_eqb (entry_label rt l) lab then 1 else 0).
Proof.
  unfold count_with. rewrite filter_app, length_app. simpl.
  destruct (str_eqb (entry_label rt l) lab); simpl; lia.
Qed.

Lemma count_failed_with_snoc (seen : list LogEntry) (l : LogEntry)
  (lab : jsstring) :
  count_failed_with rt (seen ++ [l]) lab
  = count_failed_with rt seen lab
    + (if str_eqb (entry_label rt l) lab
       then (if action_includes l "FAILED" then 1 else 0) else 0).
Proof.
  unfold count_failed_with. rewrite filter_app, length_app. simpl.
  destruct (str_eqb (entry_label rt l) lab);
    destruct (action_includes l "FAILED"); simpl; lia.
Qed.

Lemma count_with_absent (seen : list LogEntry) (lab : jsstring) :
  (forall l, In l seen -> entry_label rt l <> lab) ->
  count_with rt seen lab = 0 /\ count_failed_with rt seen lab = 0.
Proof.
  intros H. unfold count_with, count_failed_with.
  induction seen as [|l seen IH]; simpl; [split; reflexivity|].
  assert (E : str_eqb (entry_label rt l) lab = false).
  { apply str_eqb_neq. apply H. left; reflexivity. }
  rewrite E. simpl. apply IH. intros l' Hl'. apply H. right; exact Hl'.
Qed.

Lemma grouped_step (acc : list Point.t) (seen : list LogEntry)
  (l : LogEntry) :
  grouped rt acc seen -> grouped rt (step rt acc l) (seen ++ [l]).
Proof.
  intros [ND [Hc [Hs Hp]]]. unfold step, add_point.
  set (t := entry_label rt l). set (f := action_includes l "FAILED").
  destruct (existsb (fun d => str_eqb (Point.time d) t) acc) eqn:E.
  - apply existsb_time in E. split; [|split; [|split]].
    + rewrite bump_times. exact ND.
    + intros p Hin. rewrite count_with_snoc, count_failed_with_snoc.
      fold t f.
      destruct (bump_In t f acc p ND Hin)
        as [[Hne Hi]|[Heq [d [Hd [Hdt [H1 H2]]]]]].
      * assert (E' : str_eqb t (Point.time p) = false).
        { apply str_eqb_neq. congruence. }
        rewrite E'. destruct (Hc p Hi) as [-> ->]. split; lia.
      * rewrite Heq, str_eqb_refl. destruct (Hc d Hd) as [C1 C2].
        rewrite Hdt in C1, C2. rewrite H1, H2, C1, C2. split; lia.
    + intros l' Hl'. rewrite bump_times.
      apply in_app_or in Hl'. destruct Hl' as [Hl'|[<-|[]]];
        [apply Hs; exact Hl'|exact E].
    + intros p Hin.
      destruct (bump_In t f acc p ND Hin)
        as [[Hne Hi]|[Heq _]].
      * destruct (Hp p Hi) as [l' [Hl' El']]. exists l'.
        split; [apply in_or_app; left; exact Hl'|exact El'].
      * exists l. split; [apply in_or_app; right; left; reflexivity|].
        symmetry; exact Heq.
  - assert (Hnot : ~ In t (map Point.time acc)).
    { intros Hin. apply existsb_time in Hin. congruence. }
    assert (Hfresh : forall l', In l' seen -> entry_label rt l' <> t).
    { intros l' Hl' Heq. apply Hnot. rewrite <- Heq. apply Hs; exact Hl'. }
    destruct (count_with_absent seen t Hfresh) as [Z1 Z2].
    split; [|split; [|split]].
    + rewrite map_app. simpl. apply NoDup_app; [exact ND| |].
      * constructor; [intros []|constructor].
      * intros x Hx [<-|[]]. exact (Hnot Hx).
    + intros p Hin. rewrite count_with_snoc, count_failed_with_snoc.
      fold t f. apply in_app_or in Hin. destruct Hin as [Hi|[<-|[]]].
      * assert (E' : str_eqb t (Point.time p) = false).
        { apply str_eqb_neq. intros Heq. apply Hnot. rewrite Heq.
          apply in_map; exact Hi. }
        rewrite E'. destruct (Hc p Hi) as [-> ->]. split; lia.
      * simpl. rewrite str_eqb_refl, Z1, Z2. destruct f; split; lia.
    + intros l' Hl'. rewrite map_app. apply in_or_app.
      apply in_app_or in Hl'. destruct Hl' as [Hl'|[<-|[]]].
      * left. apply Hs; exact Hl'.
      * right. left. reflexivity.
    + intros p Hin. apply in_app_or in Hin. destruct Hin as [Hi|[<-|[]]].
      * destruct (Hp p Hi) as [l' [Hl' El']]. exists l'.
        split; [apply in_or_app; left; exact Hl'|exact El'].
      * exists l. split; [apply in_or_app; right; left; reflexivity|].
        reflexivity.
Qed.

Lemma grouped_fold (logs : list LogEntry) :
  forall acc seen,
    grouped rt acc seen -> grouped rt (fold_left (step rt) logs acc) (seen ++ logs).
Proof.
  induction logs as [|l logs IH]; intros acc seen G; simpl.
  - rewrite app_nil_r. exact G.
  - replace (seen ++ l :: logs) with ((seen ++ [l]) ++ logs)
      by (rewrite <- app_assoc; reflexivity).
    apply IH. apply grouped_step; exact G.
Qed.

Lemma grouped_empty : grouped rt [] [].
Proof.
  split; [constructor|]. split; [intros p []|].
  split; [intros l []|intros p []].
Qed.

Lemma grouped_all (logs : list LogEntry) :
  grouped rt (fold_left (step rt) logs []) logs.
Proof. apply (grouped_fold logs [] [] grouped_empty). Qed.

(** As many points as distinct labels. *)
Lemma grouped_length (acc : list Point.t) (logs : list LogEntry) :
  grouped rt acc logs -> length acc = length (labels rt logs).
Proof.
  intros [ND [_ [Hs Hp]]]. rewrite <- (length_map Point.time acc).
  apply Permutation_length. apply NoDup_Permutation.
  - exact ND.
  - apply NoDup_nodup.
  - intros t. unfold labels. rewrite nodup_In. split.
    + intros Hin. apply in_map_iff in Hin. destruct Hin as [p [<- Hin]].
      destruct (Hp p Hin) as [l [Hl <-]]. apply in_map; exact Hl.
    + intros Hin. apply in_map_iff in Hin. destruct Hin as [l [<- Hl]].
      apply Hs; exact Hl.
Qed.

End Grouping.

(** *** Sorting by label and keeping the last twenty *)

Lemma by_label_before (a b : Point.t) :
  True -> True -> by_label a b < 0 ->
  compare (Point.time a) (Point.time b) <> Gt.
Proof.
  unfold by_label, localeCompare. intros _ _.
  destruct (compare (Point.time a) (Point.time b)); [discriminate| |lia].
  discriminate.
Qed.

Lemma by_label_after (a b : Point.t) :
  True -> True -> 0 <= by_label a b ->
  compare (Point.time b) (Point.time a) <> Gt.
Proof.
  unfold by_label, localeCompare. intros _ _.
  rewrite (compare_antisym (Point.time a) (Point.time b)).
  destruct (compare (Point.time a) (Point.time b)); simpl;
    [discriminate|lia|discriminate].
Qed.

(** Sorted without ties: strictly ascending. *)
Lemma sorted_strict (l : list Point.t) :
  NoDup (map Point.time l) ->
  Sorted (fun a b => compare (Point.time a) (Point.time b) <> Gt) l ->
  StronglySorted point_lt l.
Proof.
  intros ND S. apply Sorted_StronglySorted.
  { intros a b c. apply compare_lt_trans. }
  induction l as [|a l IH]; [constructor|].
  inversion ND as [|? ? Hnot ND']; subst.
  inversion S as [|? ? S' Hd]; subst.
  constructor; [apply IH; assumption|].
  destruct l as [|b l]; constructor.
  inversion Hd as [|? ? Hab]; subst. unfold point_lt, label_lt.
  destruct (compare (Point.time a) (Point.time b)) eqn:E;
    [|reflexivity|congruence].
  apply compare_eq in E. exfalso. apply Hnot. rewrite E. left; reflexivity.
Qed.

Lemma StronglySorted_app {A : Type} (R : A -> A -> Prop) (l1 l2 : list A) :
  StronglySorted R (l1 ++ l2) ->
  StronglySorted R l2 /\ forall x y, In x l1 -> In y l2 -> R x y.
Proof.
  induction l1 as [|a l1 IH]; simpl; intros S.
  - split; [exact S|intros x y []].
  - inversion S as [|? ? S' Hall]; subst.
    destruct (IH S') as [S2 HR]. split; [exact S2|].
    intros x y [<-|Hx] Hy.
    + rewrite Forall_forall in Hall. apply Hall.
      apply in_or_app; right; exact Hy.
    + apply HR; assumption.
Qed.


Lemma In_skipn {A : Type} (n : nat) (l : list A) (x : A) :
  In x (skipn n l) -> In x l.
Proof.
  intros H. rewrite <- (firstn_skipn n l). apply in_or_app; right; exact H.
Qed.

(** What the chart is made of, for a batch whose timestamps are valid
    dates: the points of the reduction, sorted, the last twenty kept. *)
Lemma chartData_dated (rt : Runtime) (logs : list LogEntry) :
  Forall (dated rt) logs ->
  chartData rt logs
  = Ok (skipn (length (sort by_label (fold_left (step rt) logs [])) - 20)
          (sort by_label (fold_left (step rt) logs []))).
Proof.
  intros Hd. unfold chartData.
  rewrite (fold_chart_step_dated rt logs [] Hd). cbn [bind].
  rewrite (slice_last _ 20) by lia. reflexivity.
Qed.

Lemma sorted_points (rt : Runtime) (logs : list LogEntry) :
  StronglySorted point_lt (sort by_label (fold_left (step rt) logs [])).
Proof.
  destruct (grouped_all rt logs) as [ND _].
  apply sorted_strict.
  - eapply Permutation_NoDup; [|exact ND].
    apply Permutation_map. symmetry. apply sort_perm.
  - apply (sort_sorted by_label (fun _ => True)
             (fun a b => compare (Point.time a) (Point.time b) <> Gt)).
    + intros x y; apply by_label_before.
    + intros x y; apply by_label_after.
    + apply Forall_forall. intros; exact I.
Qed.

(** On a batch with an entry whose timestamp is not a valid date the
    formatting raises, and so does the whole reduction. *)
Lemma fold_chart_step_throw (rt : Runtime) (logs : list LogEntry) (e : Exn) :
  fold_left (chart_step rt) logs (Throw e) = Throw e.
Proof. induction logs as [|l logs IH]; simpl; [reflexivity|exact IH]. Qed.

Lemma chartData_undated (rt : Runtime) (logs : list LogEntry) :
  Exists (fun l => getTime rt l = None) logs ->
  chartData rt logs = Throw RangeError.
Proof.
  intros H. unfold chartData.
  assert (G : forall acc,
             fold_left (chart_step rt) logs (Ok acc) = Throw RangeError).
  { induction H as [l logs Hl|l logs _ IH]; intros acc; cbn [fold_left].
    - unfold chart_step at 2, format_HHmm. rewrite Hl. cbn [bind].
      apply fold_chart_step_throw.
    - destruct (chart_step rt (Ok acc) l) as [acc'|e] eqn:E.
      + apply IH.
      + unfold chart_step, format_HHmm in E. cbn [bind] in E.
        destruct (getTime rt l); [discriminate|].
        injection E as <-. apply fold_chart_step_throw. }
  rewrite G. reflexivity.
Qed.

(** Two instants in the same minute of local time have the same label. *)
Lemma label_of_same_minute (rt : Runtime) (t t' : Z) :
  (t + LocalTZA rt t) / 60000 = (t' + LocalTZA rt t') / 60000 ->
  label_of rt t = label_of rt t'.
Proof.
  intros H. unfold label_of.
  replace 3600000 with (60000 * 60) by reflexivity.
  rewrite <- !Z.div_div by lia. rewrite H. reflexivity.
Qed.

(** The timeline of a batch whose timestamps are valid dates. *)
Lemma timeline_dated (rt : Runtime) (logs : list LogEntry) :
  Forall (dated rt) logs ->
  exists points,
    chartData rt logs = Ok points /\
    (length points <= 20)%nat /\
    length points = Nat.min 20 (length (labels rt logs)) /\
    StronglySorted point_lt points /\
    (forall p, In p points ->
       In (Point.time p) (labels rt logs) /\
       Point.count p = count_with rt logs (Point.time p) /\
       Point.failed p = count_failed_with rt logs (Point.time p)) /\
    (forall lab, In lab (labels rt logs) ->
       In lab (map Point.time points) \/
       (forall p, In p points -> label_lt lab (Point.time p))).
Proof.
  intros Hd. rewrite (chartData_dated rt logs Hd).
  set (acc := fold_left (step rt) logs []).
  set (sorted := sort by_label acc).
  set (n := (length sorted - 20)%nat).
  pose proof (grouped_all rt logs) as G. fold acc in G.
  pose proof (grouped_length rt acc logs G) as L.
  destruct G as [ND [Hc [Hs Hp]]].
  pose proof (sort_perm by_label acc) as Perm. fold sorted in Perm.
  pose proof (sorted_points rt logs) as SS. fold acc sorted in SS.
  rewrite <- (firstn_skipn n sorted) in SS.
  apply StronglySorted_app in SS. destruct SS as [SS Cross].
  exists (skipn n sorted). split; [reflexivity|].
  assert (Len : length sorted = length (labels rt logs)).
  { rewrite (Permutation_length Perm). exact L. }
  split; [rewrite length_skipn; lia|].
  split; [rewrite length_skipn; lia|].
  split; [exact SS|]. split.
  - intros p Hin. apply In_skipn in Hin.
    apply (Permutation_in _ Perm) in Hin.
    split; [|apply Hc; exact Hin].
    destruct (Hp p Hin) as [l [Hl <-]].
    unfold labels. apply nodup_In. apply in_map; exact Hl.
  - intros lab Hlab. unfold labels in Hlab. apply nodup_In in Hlab.
    apply in_map_iff in Hlab. destruct Hlab as [l [<- Hl]].
    pose proof (Hs l Hl) as Hin.
    apply in_map_iff in Hin. destruct Hin as [p0 [E Hp0]].
    apply (Permutation_in _ (Permutation_sym Perm)) in Hp0.
    rewrite <- (firstn_skipn n sorted) in Hp0.
    apply in_app_or in Hp0. destruct Hp0 as [Hf|Hk].
    + right. intros p Hin. rewrite <- E. apply (Cross p0 p Hf Hin).
    + left. rewrite <- E. apply in_map; exact Hk.
Qed.

Lemma dated_or_not (rt : Runtime) (logs : list LogEntry) :
  Forall (dated rt) logs \/ Exists (fun l => getTime rt l = None) logs.
Proof.
  induction logs as [|l logs [IH|IH]].
  - left; constructor.
  - destruct (getTime rt l) as [t|] eqn:E.
    + left. constructor; [exists t; exact E|exact IH].
    + right. apply Exists_cons_hd; exact E.
  - right. apply Exists_cons_tl; exact IH.
Qed.



(** The tally of a point is narrower than the failed count of the
    dashboard: a refused request (status 403) whose action does not say
    FAILED counts there and not here. *)
Example timeline_failed_is_narrower :
  let refused :=
    {| timestamp := Some (print_ms 1700000000000);
       ip := Some (lit "10.0.0.5");
       action := Some (lit "FILE_ACCESS");
       status_code := Some (inject_Z 403);
       event_id := None; user := None; user_agent := None;
       severity := None; message := None |} in
  Stats.failed (stats [refused]) = 1%nat /\
  chartData runtime [refused]
  = Ok [{| Point.time := lit "22:13"; Point.count := 1;
           Point.failed := 0 |}].
Proof. split; vm_compute; reflexivity. Qed.

End Timeline.

(* ===================================================================== *)
(** ** The dashboard statistics *)
(* ===================================================================== *)

Module Dashboard.

Import Sample.

(** The test of the source decides the condition of the specification. *)
Lemma is_failed_spec (l : LogEntry) : is_failed l = true <-> Failed l.
Proof.
  unfold is_failed, Failed, action_includes, num_is, id_is, occurs_in.
  rewrite !orb_true_iff. split.
  - intros [[H|H]|H].
    + left. destruct (action l) as [a|]; [|discriminate].
      exists a. split; [reflexivity|]. apply includes_spec; exact H.
    + right; left. destruct (status_code l) as [q|]; [|discriminate].
      exists q. split; [reflexivity|]. apply Qeq_bool_iff; exact H.
    + right; right.
      destruct (event_id l) as [[s|q]|]; try discriminate.
      exists q. split; [reflexivity|]. apply Qeq_bool_iff; exact H.
  - intros [[a [-> H]]|[[q [-> H]]|[q [-> H]]]].
    + left; left. apply includes_spec; exact H.
    + left; right. apply Qeq_bool_iff; exact H.
    + right. apply Qeq_bool_iff; exact H.
Qed.

(** C4. The failed count is the number of entries that satisfy the
    condition "the action contains FAILED, or the status is 403, or the
    event is 4625": nothing for the empty batch, and each further entry
    adds one when it satisfies the condition (one, however many of the
    three parts hold) and nothing when it does not.  The entry of the
    scenario satisfies two parts, and a batch made of it alone has a
    failed count of 1 and a critical count of 0. *)
Theorem failed_counts_each_entry_once :
  Stats.failed (stats []) = 0%nat /\
  (forall l logs,
     (Failed l ->
      Stats.failed (stats (l :: logs)) = S (Stats.failed (stats logs))) /\
     (~ Failed l ->
      Stats.failed (stats (l :: logs)) = Stats.failed (stats logs))) /\
  (action_includes scenario_entry "FAILED" = true /\
   id_is (event_id scenario_entry) 4625 = true /\
   Stats.failed (stats [scenario_entry]) = 1%nat /\
   Stats.critical (stats [scenario_entry]) = 0%nat).
Proof.
  split; [reflexivity|]. split.
  - intros l logs. unfold stats; cbn [Stats.failed filter].
    split; intros H.
    + apply is_failed_spec in H. rewrite H. reflexivity.
    + destruct (is_failed l) eqn:E; [|reflexivity].
      apply is_failed_spec in E. contradiction.
  - repeat split; vm_compute; reflexivity.
Qed.

(** An entry that satisfies the condition and one that does not. *)
Lemma failed_counts_each_entry_once_witness :
  (Failed scenario_entry /\
   Stats.failed (stats [scenario_entry; scenario_entry])
   = S (Stats.failed (stats [scenario_entry]))) /\
  (~ Failed (raw_entry runtime 0 (lit "a")) /\
   Stats.failed (stats [raw_entry runtime 0 (lit "a"); scenario_entry])
   = Stats.failed (stats [scenario_entry])).
Proof.
  assert (F : Failed scenario_entry).
  { apply is_failed_spec. reflexivity. }
  assert (NF : ~ Failed (raw_entry runtime 0 (lit "a"))).
  { intros H. apply is_failed_spec in H. discriminate. }
  split; split; [exact F| |exact NF|].
  - apply (proj1 (proj1 (proj2 failed_counts_each_entry_once) _ _) F).
  - apply (proj2 (proj1 (proj2 failed_counts_each_entry_once) _ _) NF).
Defined.

(** The other three numbers of the dashboard. *)
Lemma stats_total (logs : list LogEntry) :
  Stats.total (stats logs) = length logs.
Proof. reflexivity. Qed.

Lemma stats_failed_le_total (logs : list LogEntry) :
  (Stats.failed (stats logs) <= Stats.total (stats logs))%nat.
Proof. apply filter_length_le. Qed.

End Dashboard.

(* ===================================================================== *)
(** ** The context of a chat message *)
(* ===================================================================== *)

Module ChatContext.

Import Sample.

Lemma context_nonempty (rt : Runtime) (logs : list LogEntry) :
  logs <> [] ->
  context rt logs
  = lit "Current Logs Context: "
    ++ JSON_stringify rt (firstn 50 logs) ++ [10%N; 10%N].
Proof.
  intros H. unfold context.
  destruct (Z.gtb_spec (Z.of_nat (length logs)) 0) as [_|L].
  - rewrite slice_first by lia. reflexivity.
  - destruct logs; [congruence|simpl in L; lia].
Qed.

(** What the handler sends for a message that is not blank and does not
    ask for the demo. *)
Lemma handleChatSubmit_sends (rt : Runtime) (st : State) (msg : jsstring) :
  truthy (trim msg) = true ->
  includes (toLowerCase msg) (lit "demo") = false ->
  handleChatSubmit rt st msg
  = Ok (processLogs (buildContext rt (logs st) msg) st).
Proof.
  intros H1 H2. unfold handleChatSubmit. rewrite H1, H2. reflexivity.
Qed.

(** C8. For every batch and message: when the batch is empty the
    message goes out as it is; when it is not, the message is preceded by
    the label "Current Logs Context: ", the serialisation of the first
    entries of the batch, 50 of them at most, and two line feeds.  A batch
    of 60 entries gives exactly its first 50. *)
Theorem context_window (rt : Runtime) (logs : list LogEntry)
  (userMsg : jsstring) :
  (logs = [] -> buildContext rt logs userMsg = userMsg) /\
  (logs <> [] ->
   exists window rest,
     logs = window ++ rest /\
     length window = Nat.min 50 (length logs) /\
     buildContext rt logs userMsg
     = lit "Current Logs Context: "
       ++ JSON_stringify rt window ++ [10%N; 10%N] ++ userMsg) /\
  (length logs = 60%nat ->
   exists window rest,
     logs = window ++ rest /\
     length window = 50%nat /\ length rest = 10%nat /\
     buildContext rt logs userMsg
     = lit "Current Logs Context: "
       ++ JSON_stringify rt window ++ [10%N; 10%N] ++ userMsg).
Proof.
  assert (Shape : logs <> [] ->
                  buildContext rt logs userMsg
                  = lit "Current Logs Context: "
                    ++ JSON_stringify rt (firstn 50 logs)
                    ++ [10%N; 10%N] ++ userMsg).
  { intros H. unfold buildContext. rewrite (context_nonempty rt logs H).
    rewrite <- !app_assoc. reflexivity. }
  split; [|split].
  - intros ->. reflexivity.
  - intros H. exists (firstn 50 logs), (skipn 50 logs).
    split; [symmetry; apply firstn_skipn|].
    split; [apply length_firstn|]. apply Shape; exact H.
  - intros H. exists (firstn 50 logs), (skipn 50 logs).
    split; [symmetry; apply firstn_skipn|].
    split; [rewrite length_firstn; lia|].
    split; [rewrite length_skipn; lia|].
    apply Shape. intros ->. discriminate.
Qed.

Lemma context_window_witness :
  (([] : list LogEntry) = [] /\
   buildContext runtime [] (lit "hi") = lit "hi") /\
  (repeat scenario_entry 60 <> [] /\
   exists window rest,
     repeat scenario_entry 60 = window ++ rest /\
     length window = Nat.min 50 (length (repeat scenario_entry 60)) /\
     buildContext runtime (repeat scenario_entry 60) (lit "hi")
     = lit "Current Logs Context: "
       ++ JSON_stringify runtime window ++ [10%N; 10%N] ++ lit "hi") /\
  (length (repeat scenario_entry 60) = 60%nat /\
   exists window rest,
     repeat scenario_entry 60 = window ++ rest /\
     length window = 50%nat /\ length rest = 10%nat /\
     buildContext runtime (repeat scenario_entry 60) (lit "hi")
     = lit "Current Logs Context: "
       ++ JSON_stringify runtime window ++ [10%N; 10%N] ++ lit "hi").
Proof.
  split; [|split].
  - split; [reflexivity|].
    apply (proj1 (context_window runtime [] (lit "hi"))). reflexivity.
  - split; [discriminate|].
    apply (proj1 (proj2 (context_window runtime
                           (repeat scenario_entry 60) (lit "hi")))).
    discriminate.
  - split; [reflexivity|].
    apply (proj2 (proj2 (context_window runtime
                           (repeat scenario_entry 60) (lit "hi")))).
    reflexivity.
Defined.

End ChatContext.

(* ===================================================================== *)
(** ** The model at work on small inputs *)
(* ===================================================================== *)

Module Examples.

Import Sample.

(** A text with a quoted key and value: [{"ip":"x"}]. *)
Definition object_text : jsstring :=
  [123; 34; 105; 112; 34; 58; 34; 120; 34; 125]%N.

Example parse_array :
  JSON_parse (lit " [1, 2.5e1, true, null, [], {}] ")
  = Some (JArr [JNum (inject_Z 1); JNum (inject_Z 25); JBool true; JNull;
                JArr []; JObj []]).
Proof. vm_compute. reflexivity. Qed.

Example parse_object :
  JSON_parse object_text = Some (JObj [(lit "ip", JStr (lit "x"))]).
Proof. vm_compute. reflexivity. Qed.

Example parse_rejects :
  JSON_parse (lit "[1,]") = None /\
  JSON_parse (lit "{bad") = None /\
  JSON_parse (lit "01") = None /\
  JSON_parse (lit "[1 2]") = None /\
  JSON_parse (lit "nul") = None /\
  JSON_parse (lit "1.") = None /\
  JSON_parse (lit "") = None /\
  JSON_parse (160%N :: lit "[]") = None.
Proof. repeat split; vm_compute; reflexivity. Qed.

(** A single object becomes a batch of one entry. *)
Example upload_object :
  exists st',
    handleFileUpload runtime initial object_text = Ok st' /\
    map ip (logs st') = [Some (lit "x")] /\
    analyzed st' = [object_text].
Proof.
  eexists. split; [vm_compute; reflexivity|].
  split; vm_compute; reflexivity.
Qed.

(** Two lines and a blank one between them. *)
Example upload_lines :
  exists st',
    handleFileUpload runtime initial
      (lit "first" ++ [10; 32; 10]%N ++ lit "second") = Ok st' /\
    map message (logs st') = [Some (lit "first"); Some (lit "second")] /\
    map action (logs st') = [Some (lit "RAW_LOG"); Some (lit "RAW_LOG")] /\
    clock_reads st' = 2%nat.
Proof.
  eexists. split; [vm_compute; reflexivity|].
  split; [|split]; vm_compute; reflexivity.
Qed.

(** A text that starts with a no-break space and a bracket is taken for
    structured by [trim], is not JSON, and leaves the batch alone. *)
Example upload_nbsp :
  looks_structured (160%N :: lit "[]") = true /\
  handleFileUpload runtime held (160%N :: lit "[]")
  = Ok (processLogs (160%N :: lit "[]") held).
Proof. split; vm_compute; reflexivity. Qed.

(** The demo of 150 slots on the sample runtime. *)
Example demo_run :
  exists out k,
    generateDemoLogs runtime 0 0 150 = Ok (out, k) /\
    length out = 153%nat /\
    Stats.total (stats out) = 153%nat.
Proof.
  eexists _, _. split; [vm_compute; reflexivity|].
  split; vm_compute; reflexivity.
Qed.

(** A chat message with a batch held. *)
Example chat_message :
  handleChatSubmit runtime held (lit "what happened?")
  = Ok (processLogs
          (lit "Current Logs Context: [1 entries]" ++ [10; 10]%N
           ++ lit "what happened?") held).
Proof. vm_compute. reflexivity. Qed.

End Examples.

(* ===================================================================== *)
(** ** More on the upload *)
(* ===================================================================== *)

Module UploadMore.

Import Upload.

Import Sample.

Lemma upload_object_wraps (rt : Runtime) (st : State) (text : jsstring)
  (ps : list (jsstring * JSON)) :
  JSON_parse text = Some (JObj ps) ->
  handleFileUpload rt st text
  = Ok (processLogs text (setLogs [LogEntry_of (JObj ps)] st)).
Proof.
  intros Hp. unfold handleFileUpload, upload_try.
  rewrite (parsed_object_looks_structured _ _ Hp), Hp. reflexivity.
Qed.

(** X1. A file that holds one JSON object gives a batch of one entry,
    the object read as a log entry, whatever batch was held before; the
    text goes to the analyser. *)
Theorem single_object_is_wrapped (rt : Runtime) (st : State)
  (text : jsstring) (ps : list (jsstring * JSON)) :
  JSON_parse text = Some (JObj ps) ->
  exists st',
    handleFileUpload rt st text = Ok st' /\
    logs st' = [LogEntry_of (JObj ps)] /\
    analyzed st' = analyzed st ++ [text] /\
    clock_reads st' = clock_reads st.
Proof.
  intros Hp. rewrite (upload_object_wraps rt st text ps Hp).
  eexists; repeat split; reflexivity.
Qed.

(** The text [{}]. *)
Lemma single_object_is_wrapped_witness :
  JSON_parse empty_object_text = Some (JObj []) /\
  exists st',
    handleFileUpload runtime held empty_object_text = Ok st' /\
    logs st' = [LogEntry_of (JObj [])] /\
    analyzed st' = analyzed held ++ [empty_object_text] /\
    clock_reads st' = clock_reads held.
Proof.
  split; [reflexivity|].
  apply (single_object_is_wrapped runtime held empty_object_text []).
  reflexivity.
Defined.

(** *** Texts of white space, and the lines of a text *)

Lemma trimStart_blank (s : jsstring) :
  (forall c, In c s -> isWhiteSpace c = true) -> trimStart s = [].
Proof.
  induction s as [|c s IH]; intros H; simpl; [reflexivity|].
  rewrite (H c (or_introl eq_refl)). apply IH.
  intros d Hd. apply H. right; exact Hd.
Qed.

Lemma trim_blank (s : jsstring) :
  (forall c, In c s -> isWhiteSpace c = true) -> trim s = [].
Proof. intros H. unfold trim. rewrite trimStart_blank by exact H. reflexivity. Qed.

Lemma split_In (sep : N) (s line : jsstring) (c : N) :
  In line (split sep s) -> In c line -> In c s.
Proof.
  revert line. induction s as [|d s IH]; intros line; simpl.
  - intros [<-|[]] [].
  - destruct (N.eqb_spec d sep) as [->|Hne].
    + intros [<-|Hl] Hc; [destruct Hc|]. right. apply (IH line); assumption.
    + pose proof (split_nonempty sep s) as NE.
      destruct (split sep s) as [|l ls] eqn:E; [congruence|].
      intros [<-|Hl] Hc.
      * destruct Hc as [<-|Hc]; [left; reflexivity|].
        right. apply (IH l); [left; reflexivity|exact Hc].
      * right. apply (IH line); [right; exact Hl|exact Hc].
Qed.

Lemma split_length (sep : N) (s : jsstring) :
  length (split sep s) = S (count_occ N.eq_dec s sep).
Proof.
  induction s as [|d s IH]; simpl; [reflexivity|].
  destruct (N.eqb_spec d sep) as [->|Hne].
  - destruct (N.eq_dec sep sep); [|congruence]. simpl. rewrite IH.
    reflexivity.
  - destruct (N.eq_dec d sep); [congruence|].
    pose proof (split_nonempty sep s) as NE.
    destruct (split sep s) as [|l ls]; [congruence|]. simpl in *. exact IH.
Qed.

Lemma nonblank_lines_blank (text : jsstring) :
  (forall c, In c text -> isWhiteSpace c = true) -> nonblank_lines text = [].
Proof.
  intros H. unfold nonblank_lines.
  assert (G : forall ls,
             (forall l, In l ls -> trim l = []) ->
             filter (fun l => truthy (trim l)) ls = []).
  { induction ls as [|l ls IH]; intros Hl; simpl; [reflexivity|].
    rewrite (Hl l (or_introl eq_refl)). simpl. apply IH.
    intros l' Hl'. apply Hl. right; exact Hl'. }
  apply G. intros l Hl. apply trim_blank.
  intros c Hc. apply H. apply (split_In 10%N text l c Hl Hc).
Qed.

(** X2. A file of nothing but white space (the empty file is one) gives
    the empty batch: the batch held before is dropped, no entry is made and
    the clock is not read; the text is handed to the analyser all the
    same. *)
Theorem blank_file_empties_batch (rt : Runtime) (st : State)
  (text : jsstring) :
  (forall c, In c text -> isWhiteSpace c = true) ->
  exists st',
    handleFileUpload rt st text = Ok st' /\
    logs st' = [] /\
    clock_reads st' = clock_reads st /\
    analyzed st' = analyzed st ++ [text].
Proof.
  intros H.
  assert (S : looks_structured text = false).
  { unfold looks_structured. rewrite (trim_blank text H). reflexivity. }
  rewrite (upload_raw rt st text S), (nonblank_lines_blank text H).
  eexists; split; [reflexivity|]. cbn. repeat split. lia.
Qed.

Lemma blank_file_empties_batch_witness :
  (forall c, In c [32; 10; 9; 13; 10]%N -> isWhiteSpace c = true) /\
  exists st',
    handleFileUpload runtime held [32; 10; 9; 13; 10]%N = Ok st' /\
    logs st' = [] /\
    clock_reads st' = clock_reads held /\
    analyzed st' = analyzed held ++ [[32; 10; 9; 13; 10]%N].
Proof.
  assert (H : forall c, In c [32; 10; 9; 13; 10]%N -> isWhiteSpace c = true).
  { intros c Hc. simpl in Hc.
    repeat (destruct Hc as [<-|Hc]; [reflexivity|]). destruct Hc. }
  split; [exact H|].
  apply (blank_file_empties_batch runtime held _ H).
Defined.

(** X3. When a file is read as lines, every entry made has its
    [timestamp], [ip] and [action]; its [message] is a line of the file
    that is not blank and holds no line feed; and there are at most as
    many entries as the file has line feeds, plus one. *)
Theorem lines_give_populated_entries (rt : Runtime) (st : State)
  (text : jsstring) :
  looks_structured text = false ->
  exists st',
    handleFileUpload rt st text = Ok st' /\
    Forall populated (logs st') /\
    Forall (fun e => exists line,
                message e = Some line /\
                In line (split 10%N text) /\
                trim line <> [] /\ ~ In 10%N line) (logs st') /\
    (length (logs st') <= S (count_occ N.eq_dec text 10%N))%nat /\
    clock_reads st' = (clock_reads st + length (logs st'))%nat.
Proof.
  intros S. rewrite (upload_raw rt st text S).
  eexists; split; [reflexivity|]. cbn [logs processLogs setLogs read_clock
                                        clock_reads].
  assert (Shape : forall lines c,
             Forall (fun e => populated e /\
                              exists line, message e = Some line /\
                                           In line lines)
               (raw_entries rt c lines)).
  { induction lines as [|l lines IH]; intros c; simpl; constructor.
    - split; [repeat split; discriminate|].
      exists l. split; [reflexivity|left; reflexivity].
    - eapply Forall_impl; [|apply IH].
      intros e [P [line [M I]]]. split; [exact P|].
      exists line. split; [exact M|right; exact I]. }
  specialize (Shape (nonblank_lines text) (clock_reads st)).
  split; [eapply Forall_impl; [|exact Shape]; intros e [P _]; exact P|].
  split.
  - eapply Forall_impl; [|exact Shape]. intros e [_ [line [M I]]].
    exists line. apply nonblank_lines_spec in I. destruct I as [I T].
    split; [exact M|]. split; [exact I|]. split; [exact T|].
    pose proof (split_no_sep 10%N text) as NS.
    rewrite Forall_forall in NS. apply NS; exact I.
  - rewrite raw_entries_length. split; [|reflexivity].
    unfold nonblank_lines.
    rewrite <- (split_length 10%N text). apply filter_length_le.
Qed.

Lemma lines_give_populated_entries_witness :
  looks_structured (lit "hello") = false /\
  exists st',
    handleFileUpload runtime held (lit "hello") = Ok st' /\
    Forall populated (logs st') /\
    Forall (fun e => exists line,
                message e = Some line /\
                In line (split 10%N (lit "hello")) /\
                trim line <> [] /\ ~ In 10%N line) (logs st') /\
    (length (logs st')
     <= S (count_occ N.eq_dec (lit "hello") 10%N))%nat /\
    clock_reads st' = (clock_reads held + length (logs st'))%nat.
Proof.
  split; [reflexivity|].
  apply (lines_give_populated_entries runtime held (lit "hello")).
  reflexivity.
Defined.

End UploadMore.

(* ===================================================================== *)
(** ** More on the request and on chat messages *)
(* ===================================================================== *)

Module RequestMore.

Import Sample Truncator ChatContext.

Lemma heading_length : length (lit "Analyze these logs:" ++ [10%N]) = 20%nat.
Proof. reflexivity. Qed.

Lemma notice_length : length truncation_notice = 98%nat.
Proof. reflexivity. Qed.

(** X4. The request made of a text is the heading, a beginning of the
    text of at most 500000 code units, and the truncation notice exactly
    when something of the text was left out; so it never has more than
    500118 code units. *)
Theorem request_is_bounded (s : jsstring) :
  exists kept dropped,
    s = kept ++ dropped /\
    Z.of_nat (length kept) <= 500000 /\
    analyzeLogsWithGemini s
    = (lit "Analyze these logs:" ++ [10%N]) ++ kept
      ++ match dropped with [] => [] | _ :: _ => truncation_notice end /\
    Z.of_nat (length (analyzeLogsWithGemini s)) <= 500118.
Proof.
  destruct (Z.le_gt_cases (Z.of_nat (length s)) MAX_CHARS) as [Le|Gt].
  - exists s, []. unfold analyzeLogsWithGemini.
    rewrite (truncate_short s Le). rewrite !app_nil_r.
    split; [reflexivity|]. split; [exact Le|].
    split; [rewrite <- app_assoc; reflexivity|].
    rewrite !length_app. change (length (lit "Analyze these logs:"))
      with 19%nat. simpl (length [10%N]). unfold MAX_CHARS in Le. lia.
  - assert (Gt' : Z.of_nat (length s) > MAX_CHARS) by lia.
    exists (firstn (Z.to_nat MAX_CHARS) s), (skipn (Z.to_nat MAX_CHARS) s).
    unfold analyzeLogsWithGemini. rewrite (truncate_long s Gt').
    assert (L : length (firstn (Z.to_nat MAX_CHARS) s)
                = Z.to_nat MAX_CHARS).
    { rewrite length_firstn. lia. }
    assert (D : skipn (Z.to_nat MAX_CHARS) s <> []).
    { intros E. apply (f_equal (@length N)) in E.
      rewrite length_skipn in E. cbn [length] in E.
      unfold MAX_CHARS in *. lia. }
    split; [symmetry; apply firstn_skipn|].
    split; [rewrite L; unfold MAX_CHARS; lia|].
    split.
    + destruct (skipn (Z.to_nat MAX_CHARS) s); [congruence|].
      rewrite <- app_assoc. reflexivity.
    + rewrite !length_app, L, notice_length.
      change (length (lit "Analyze these logs:")) with 19%nat.
      simpl (length [10%N]). unfold MAX_CHARS. lia.
Qed.

(** The request for a text that begins with at least 500000 code units
    of something and goes on: only that beginning is in it. *)
Lemma request_of_long_prefix (p m : jsstring) :
  Z.of_nat (length p) >= 500000 -> m <> [] ->
  analyzeLogsWithGemini (p ++ m)
  = lit "Analyze these logs:" ++ [10%N]
    ++ firstn (Z.to_nat 500000) p ++ truncation_notice.
Proof.
  intros Hp Hm. unfold analyzeLogsWithGemini.
  assert (Gt : Z.of_nat (length (p ++ m)) > MAX_CHARS).
  { rewrite length_app. destruct m; [congruence|]. simpl.
    unfold MAX_CHARS. lia. }
  rewrite (truncate_long _ Gt). unfold MAX_CHARS.
  rewrite firstn_app.
  replace (Z.to_nat 500000 - length p)%nat with 0%nat by lia.
  cbn [firstn]. rewrite app_nil_r. reflexivity.
Qed.

(** X5. When the context made of the batch has 500000 code units or
    more, the request for a chat message holds the heading, the first
    500000 code units of the context and the truncation notice: nothing of
    the message itself, so that two different questions give the same
    request. *)
Theorem long_context_drops_question (rt : Runtime) (logs : list LogEntry)
  (m1 m2 : jsstring) :
  Z.of_nat (length (context rt logs)) >= 500000 ->
  m1 <> [] -> m2 <> [] ->
  analyzeLogsWithGemini (buildContext rt logs m1)
  = lit "Analyze these logs:" ++ [10%N]
    ++ firstn (Z.to_nat 500000) (context rt logs) ++ truncation_notice /\
  analyzeLogsWithGemini (buildContext rt logs m1)
  = analyzeLogsWithGemini (buildContext rt logs m2).
Proof.
  intros H H1 H2. unfold buildContext.
  rewrite (request_of_long_prefix _ m1 H H1).
  rewrite (request_of_long_prefix _ m2 H H2). split; reflexivity.
Qed.

Lemma verbose_context_length :
  Z.of_nat (length (context verbose_runtime [scenario_entry])) >= 500000.
Proof.
  unfold context.
  change (Z.of_nat (length [scenario_entry]) >? 0) with true.
  cbv iota. cbn [JSON_stringify verbose_runtime].
  rewrite !length_app, repeat_length. lia.
Qed.

Lemma long_context_drops_question_witness :
  Z.of_nat (length (context verbose_runtime [scenario_entry])) >= 500000 /\
  lit "who?" <> [] /\ lit "when?" <> [] /\
  analyzeLogsWithGemini
    (buildContext verbose_runtime [scenario_entry] (lit "who?"))
  = analyzeLogsWithGemini
      (buildContext verbose_runtime [scenario_entry] (lit "when?")).
Proof.
  split; [exact verbose_context_length|].
  split; [discriminate|]. split; [discriminate|].
  apply (long_context_drops_question verbose_runtime [scenario_entry]
           (lit "who?") (lit "when?") verbose_context_length);
    discriminate.
Defined.

(** X6. A chat message that does not ask for the demo never changes the
    batch and reads neither the clock nor a random number.  If it is blank
    nothing happens at all; otherwise the analyser is called once, with a
    text that ends with the message as it was typed, and that is the
    message alone when no batch is held. *)
Theorem chat_keeps_batch (rt : Runtime) (st st' : State) (msg : jsstring) :
  includes (toLowerCase msg) (lit "demo") = false ->
  handleChatSubmit rt st msg = Ok st' ->
  logs st' = logs st /\
  clock_reads st' = clock_reads st /\
  random_reads st' = random_reads st /\
  (trim msg = [] -> st' = st) /\
  (trim msg <> [] ->
   exists pre,
     analyzed st' = analyzed st ++ [pre ++ msg] /\
     (logs st = [] -> pre = [])).
Proof.
  intros Hd H. unfold handleChatSubmit in H. rewrite Hd in H.
  destruct (trim msg) as [|c t] eqn:T; cbn [truthy negb] in H;
    injection H as <-.
  - repeat split; try reflexivity. intros NE; congruence.
  - cbn [logs processLogs clock_reads random_reads analyzed].
    repeat split; try reflexivity; [discriminate|].
    intros _. exists (context rt (logs st)).
    split; [reflexivity|]. intros ->. reflexivity.
Qed.

Lemma chat_keeps_batch_witness :
  includes (toLowerCase (lit "what happened?")) (lit "demo") = false /\
  handleChatSubmit runtime held (lit "what happened?")
  = Ok (processLogs
          (buildContext runtime (logs held) (lit "what happened?")) held) /\
  logs (processLogs
          (buildContext runtime (logs held) (lit "what happened?")) held)
  = logs held.
Proof.
  assert (D : includes (toLowerCase (lit "what happened?")) (lit "demo")
              = false) by reflexivity.
  assert (E : handleChatSubmit runtime held (lit "what happened?")
              = Ok (processLogs
                      (buildContext runtime (logs held)
                         (lit "what happened?")) held)) by reflexivity.
  split; [exact D|]. split; [exact E|].
  apply (chat_keeps_batch runtime held _ (lit "what happened?") D E).
Defined.

End RequestMore.

(* ===================================================================== *)
(** ** More on the dashboard statistics *)
(* ===================================================================== *)

Module DashboardMore.

Import Sample.

Lemma filter_perm {A : Type} (f : A -> bool) (l l' : list A) :
  Permutation l l' -> Permutation (filter f l) (filter f l').
Proof.
  induction 1 as [|x l l' _ IH|x y l|l l' l'' _ IH1 _ IH2]; simpl.
  - constructor.
  - destruct (f x); [constructor|]; exact IH.
  - destruct (f x), (f y); try reflexivity. apply perm_swap.
  - etransitivity; eassumption.
Qed.

Lemma nodup_length_le {A : Type} (dec : forall x y : A, {x = y} + {x <> y})
  (l : list A) : (length (nodup dec l) <= length l)%nat.
Proof.
  apply NoDup_incl_length; [apply NoDup_nodup|].
  intros x H. apply nodup_In in H. exact H.
Qed.

Lemma nodup_length_perm {A : Type}
  (dec : forall x y : A, {x = y} + {x <> y}) (l l' : list A) :
  Permutation l l' -> length (nodup dec l) = length (nodup dec l').
Proof.
  intros P. apply Permutation_length.
  apply NoDup_Permutation; try apply NoDup_nodup.
  intros x. rewrite !nodup_In. split; apply Permutation_in;
    [exact P|symmetry; exact P].
Qed.

Lemma nodup_length_app {A : Type}
  (dec : forall x y : A, {x = y} + {x <> y}) (a b : list A) :
  (Nat.max (length (nodup dec a)) (length (nodup dec b))
   <= length (nodup dec (a ++ b))
   <= length (nodup dec a) + length (nodup dec b))%nat.
Proof.
  split.
  - apply Nat.max_lub; apply NoDup_incl_length; try apply NoDup_nodup;
      intros x H; apply nodup_In in H; apply nodup_In; apply in_or_app;
      [left|right]; exact H.
  - rewrite <- length_app. apply NoDup_incl_length; [apply NoDup_nodup|].
    intros x H. apply nodup_In in H. apply in_app_or in H.
    apply in_or_app. destruct H as [H|H]; [left|right];
      apply nodup_In; exact H.
Qed.

(** The statistics do not depend on the order of the batch. *)
Lemma stats_perm (l l' : list LogEntry) :
  Permutation l l' -> stats l = stats l'.
Proof.
  intros P. unfold stats.
  rewrite (Permutation_length P).
  rewrite (Permutation_length (filter_perm is_failed _ _ P)).
  rewrite (Permutation_length (filter_perm is_critical _ _ P)).
  rewrite (nodup_length_perm opt_string_dec _ _ (Permutation_map ip P)).
  reflexivity.
Qed.

(** X7. None of the three counts exceeds the total, and the number of
    addresses is zero for the empty batch only. *)
Theorem counts_within_total (logs : list LogEntry) :
  (Stats.failed (stats logs) <= Stats.total (stats logs))%nat /\
  (Stats.critical (stats logs) <= Stats.total (stats logs))%nat /\
  (Stats.uniqueIps (stats logs) <= Stats.total (stats logs))%nat /\
  (Stats.uniqueIps (stats logs) = 0%nat <-> logs = []).
Proof.
  unfold stats; cbn [Stats.failed Stats.total Stats.critical Stats.uniqueIps].
  split; [apply filter_length_le|]. split; [apply filter_length_le|].
  split.
  - etransitivity; [apply nodup_length_le|]. rewrite length_map.
    apply Nat.le_refl.
  - split.
    + destruct logs as [|l logs]; [reflexivity|]. intros H. exfalso.
      assert (I : In (ip l) (nodup opt_string_dec (map ip (l :: logs)))).
      { apply nodup_In. left; reflexivity. }
      destruct (nodup opt_string_dec (map ip (l :: logs)));
        [destruct I|discriminate].
    + intros ->. reflexivity.
Qed.

(** X8. Putting two batches together adds up the total, the failed
    count and the critical count; the number of addresses of the whole is
    at least that of either part and at most their sum. *)
Theorem stats_of_two_batches (a b : list LogEntry) :
  Stats.total (stats (a ++ b))
  = (Stats.total (stats a) + Stats.total (stats b))%nat /\
  Stats.failed (stats (a ++ b))
  = (Stats.failed (stats a) + Stats.failed (stats b))%nat /\
  Stats.critical (stats (a ++ b))
  = (Stats.critical (stats a) + Stats.critical (stats b))%nat /\
  (Nat.max (Stats.uniqueIps (stats a)) (Stats.uniqueIps (stats b))
   <= Stats.uniqueIps (stats (a ++ b))
   <= Stats.uniqueIps (stats a) + Stats.uniqueIps (stats b))%nat.
Proof.
  unfold stats; cbn [Stats.failed Stats.total Stats.critical Stats.uniqueIps].
  rewrite !filter_app, !length_app, map_app.
  repeat split; try reflexivity; apply nodup_length_app.
Qed.

(** X9. The statistics of a batch are those of any rearrangement of
    it. *)
Theorem stats_ignore_order (l l' : list LogEntry) :
  Permutation l l' -> stats l = stats l'.
Proof. exact (stats_perm l l'). Qed.

Lemma stats_ignore_order_witness :
  Permutation [scenario_entry; raw_entry runtime 0 (lit "a")]
              [raw_entry runtime 0 (lit "a"); scenario_entry] /\
  stats [scenario_entry; raw_entry runtime 0 (lit "a")]
  = stats [raw_entry runtime 0 (lit "a"); scenario_entry].
Proof.
  split; [apply perm_swap|].
  apply (stats_ignore_order _ _ (perm_swap _ _ _)).
Defined.

End DashboardMore.

(* ===================================================================== *)
(** ** More on the timeline *)
(* ===================================================================== *)

Module TimelineMore.

Import Sample Timeline DashboardMore.

(** X10. The timeline is computed exactly for the batches whose
    timestamps are all valid dates; for any other batch, and only then, the
    computation raises [RangeError] (an entry without a timestamp is
    enough). *)
Theorem timeline_needs_dates (rt : Runtime) (logs : list LogEntry) :
  (Exists (fun l => getTime rt l = None) logs <->
   chartData rt logs = Throw RangeError) /\
  (Forall (dated rt) logs <-> exists points, chartData rt logs = Ok points).
Proof.
  split; split.
  - apply chartData_undated.
  - intros H. destruct (dated_or_not rt logs) as [D|U]; [|exact U].
    destruct (timeline_dated rt logs D) as [points [E _]].
    rewrite E in H. discriminate.
  - intros D. destruct (timeline_dated rt logs D) as [points [E _]].
    exists points; exact E.
  - intros [points E]. destruct (dated_or_not rt logs) as [D|U]; [exact D|].
    rewrite (chartData_undated rt logs U) in E. discriminate.
Qed.

(** *** Counting by label *)

Section Counting.

Variable rt : Runtime.

Lemma count_with_tally (logs : list LogEntry) (lab : jsstring) :
  count_with rt logs lab = tally rt (fun _ => true) logs lab.
Proof.
  unfold count_with, tally. do 2 f_equal. apply filter_ext.
  intros l. rewrite andb_true_r. reflexivity.
Qed.

Lemma count_failed_with_tally (logs : list LogEntry) (lab : jsstring) :
  count_failed_with rt logs lab
  = tally rt (fun l => action_includes l "FAILED") logs lab.
Proof. reflexivity. Qed.

Lemma sum_over_plus (f g : jsstring -> Z) (labs : list jsstring) :
  sum_over (fun lab => f lab + g lab) labs
  = sum_over f labs + sum_over g labs.
Proof. induction labs as [|x labs IH]; simpl; [reflexivity|]. rewrite IH. lia. Qed.

Lemma sum_over_zero (f : jsstring -> Z) (labs : list jsstring) :
  (forall lab, In lab labs -> f lab = 0) -> sum_over f labs = 0.
Proof.
  induction labs as [|x labs IH]; intros H; simpl; [reflexivity|].
  rewrite (H x (or_introl eq_refl)), IH; [reflexivity|].
  intros lab Hl. apply H. right; exact Hl.
Qed.

(** Among labels without repetition, one label is met at most once. *)
Lemma sum_over_indicator (x : jsstring) (b : bool) (labs : list jsstring) :
  NoDup labs ->
  0 <= sum_over (fun lab => if str_eqb x lab && b then 1 else 0) labs
    <= (if b then 1 else 0) /\
  (In x labs ->
   sum_over (fun lab => if str_eqb x lab && b then 1 else 0) labs
   = if b then 1 else 0).
Proof.
  induction 1 as [|y labs Hy ND IH]; simpl.
  - split; [destruct b; lia|intros []].
  - destruct IH as [B E]. destruct (str_eqb x y) eqn:Exy.
    + apply str_eqb_eq in Exy. subst y.
      rewrite (sum_over_zero _ labs).
      * split; [destruct b; simpl; lia|intros _; destruct b; simpl; lia].
      * intros lab Hl. assert (N : str_eqb x lab = false).
        { apply str_eqb_neq. intros ->. exact (Hy Hl). }
        rewrite N. reflexivity.
    + simpl. split; [lia|]. intros [->|Hx].
      * rewrite str_eqb_refl in Exy. discriminate.
      * rewrite (E Hx). lia.
Qed.

Lemma tally_cons (g : LogEntry -> bool) (l : LogEntry)
  (logs : list LogEntry) (lab : jsstring) :
  tally rt g (l :: logs) lab
  = (if str_eqb (entry_label rt l) lab && g l then 1 else 0)
    + tally rt g logs lab.
Proof.
  unfold tally. simpl.
  destruct (str_eqb (entry_label rt l) lab && g l); simpl length; lia.
Qed.

(** The tallies of distinct labels add up to no more than the number of
    entries that pass the test, and to exactly that number when every
    label of the batch is among them. *)
Lemma sum_over_tally (g : LogEntry -> bool) (labs : list jsstring)
  (logs : list LogEntry) :
  NoDup labs ->
  sum_over (tally rt g logs) labs <= Z.of_nat (length (filter g logs)) /\
  ((forall l, In l logs -> In (entry_label rt l) labs) ->
   sum_over (tally rt g logs) labs = Z.of_nat (length (filter g logs))).
Proof.
  intros ND. induction logs as [|l logs [IHle IHeq]].
  - simpl. rewrite sum_over_zero by reflexivity. split; [lia|reflexivity].
  - assert (E' : sum_over (tally rt g (l :: logs)) labs
                 = sum_over (fun lab => (if str_eqb (entry_label rt l) lab
                                            && g l then 1 else 0)
                                        + tally rt g logs lab) labs).
    { clear. induction labs as [|x labs IH]; simpl; [reflexivity|].
      rewrite tally_cons, IH. reflexivity. }
    rewrite E', sum_over_plus.
    destruct (sum_over_indicator (entry_label rt l) (g l) labs ND)
      as [[B0 B1] Bin].
    simpl filter. split.
    + destruct (g l); simpl length; lia.
    + intros Hall. rewrite IHeq by (intros l' Hl'; apply Hall; right; exact Hl').
      rewrite (Bin (Hall l (or_introl eq_refl))).
      destruct (g l); simpl length; lia.
Qed.

End Counting.

Lemma StronglySorted_times (points : list Point.t) :
  StronglySorted point_lt points ->
  StronglySorted label_lt (map Point.time points).
Proof.
  induction 1 as [|p ps _ IH Hall]; simpl; constructor; [exact IH|].
  apply Forall_map. exact Hall.
Qed.

Lemma StronglySorted_lt_NoDup (labs : list jsstring) :
  StronglySorted label_lt labs -> NoDup labs.
Proof.
  induction 1 as [|x labs _ IH Hall]; constructor; [|exact IH].
  intros Hin. rewrite Forall_forall in Hall.
  exact (label_lt_irrefl x (Hall x Hin)).
Qed.

Lemma sum_count_by_time (rt : Runtime) (logs : list LogEntry)
  (points : list Point.t) :
  (forall p, In p points ->
             Point.count p = count_with rt logs (Point.time p) /\
             Point.failed p = count_failed_with rt logs (Point.time p)) ->
  sum_count points
  = sum_over (tally rt (fun _ => true) logs) (map Point.time points) /\
  sum_failed points
  = sum_over (tally rt (fun l => action_includes l "FAILED") logs)
      (map Point.time points).
Proof.
  induction points as [|p ps IH]; intros H; simpl; [split; reflexivity|].
  destruct (H p (or_introl eq_refl)) as [C F].
  destruct IH as [IC IF]; [intros q Hq; apply H; right; exact Hq|].
  rewrite C, F, IC, IF, count_with_tally. split; reflexivity.
Qed.

Lemma filter_length_mono {A : Type} (f g : A -> bool) (l : list A) :
  (forall x, f x = true -> g x = true) ->
  (length (filter f l) <= length (filter g l))%nat.
Proof.
  intros H. induction l as [|x l IH]; simpl; [lia|].
  destruct (f x) eqn:F.
  - rewrite (H x F). simpl. lia.
  - destruct (g x); simpl; lia.
Qed.

Lemma In_length_pos {A : Type} (x : A) (l : list A) :
  In x l -> (1 <= length l)%nat.
Proof. destruct l; [intros []|simpl; lia]. Qed.

(** X11. In every timeline computed: each point counts at least one
    entry, and its failed tally is between zero and its count; the counts
    add up to no more than the size of the batch, and to exactly that size
    when the batch has at most twenty labels; and the failed tallies add up
    to no more than the failed count of the dashboard. *)
Theorem timeline_counts (rt : Runtime) (logs : list LogEntry)
  (points : list Point.t) :
  chartData rt logs = Ok points ->
  Forall (fun p => 1 <= Point.count p /\
                   0 <= Point.failed p <= Point.count p) points /\
  sum_count points <= Z.of_nat (length logs) /\
  ((length (labels rt logs) <= 20)%nat ->
   sum_count points = Z.of_nat (length logs)) /\
  sum_failed points <= Z.of_nat (Stats.failed (stats logs)).
Proof.
  intros Hc.
  assert (D : Forall (dated rt) logs).
  { destruct (dated_or_not rt logs) as [D|U]; [exact D|].
    rewrite (chartData_undated rt logs U) in Hc. discriminate. }
  destruct (timeline_dated rt logs D) as [ps [E [_ [Len [SS [Hp Hl]]]]]].
  rewrite Hc in E. injection E as <-.
  pose proof (StronglySorted_lt_NoDup _ (StronglySorted_times _ SS)) as ND.
  assert (Hcf : forall p, In p points ->
                  Point.count p = count_with rt logs (Point.time p) /\
                  Point.failed p
                  = count_failed_with rt logs (Point.time p)).
  { intros p Hin. apply Hp; exact Hin. }
  destruct (sum_count_by_time rt logs points Hcf) as [SC SF].
  destruct (sum_over_tally rt (fun _ => true) (map Point.time points) logs ND)
    as [Tle Teq].
  destruct (sum_over_tally rt (fun l => action_includes l "FAILED")
              (map Point.time points) logs ND) as [Fle _].
  assert (All : length (filter (fun _ : LogEntry => true) logs)
                = length logs).
  { clear. induction logs; simpl; congruence. }
  rewrite All in Tle, Teq.
  split; [|split; [|split]].
  - apply Forall_forall. intros p Hin.
    destruct (Hp p Hin) as [Lab [C F]]. rewrite C, F.
    unfold labels in Lab. apply nodup_In in Lab.
    apply in_map_iff in Lab. destruct Lab as [l [El Hl']].
    assert (One : 1 <= count_with rt logs (Point.time p)).
    { unfold count_with.
      assert (I : In l (filter (fun l0 => str_eqb (entry_label rt l0)
                                            (Point.time p)) logs)).
      { apply filter_In. split; [exact Hl'|].
        apply str_eqb_eq; exact El. }
      apply In_length_pos in I. lia. }
    split; [exact One|]. split; [unfold count_failed_with; lia|].
    unfold count_failed_with, count_with. apply inj_le.
    apply filter_length_mono. intros x Hx.
    apply andb_true_iff in Hx. apply Hx.
  - rewrite SC. exact Tle.
  - intros Small. rewrite SC. apply Teq. intros l Hl'.
    assert (Lab : In (entry_label rt l) (labels rt logs)).
    { unfold labels. apply nodup_In. apply in_map; exact Hl'. }
    assert (Inc : incl (labels rt logs) (map Point.time points)).
    { apply NoDup_length_incl.
      - exact ND.
      - rewrite length_map, Len. lia.
      - intros t Ht. apply in_map_iff in Ht. destruct Ht as [p [<- Hin]].
        apply Hp; exact Hin. }
    apply Inc; exact Lab.
  - rewrite SF. etransitivity; [exact Fle|]. apply inj_le.
    unfold stats; cbn [Stats.failed]. apply filter_length_mono.
    intros x Hx. unfold is_failed. rewrite Hx. reflexivity.
Qed.

Lemma timeline_counts_witness :
  chartData runtime
    [raw_entry runtime 0 (lit "a"); raw_entry runtime 1 (lit "b")]
  = Ok [{| Point.time := lit "22:13"; Point.count := 2;
           Point.failed := 0 |}] /\
  sum_count [{| Point.time := lit "22:13"; Point.count := 2;
                Point.failed := 0 |}]
  <= Z.of_nat (length [raw_entry runtime 0 (lit "a");
                       raw_entry runtime 1 (lit "b")]).
Proof.
  assert (C : chartData runtime
                [raw_entry runtime 0 (lit "a"); raw_entry runtime 1 (lit "b")]
              = Ok [{| Point.time := lit "22:13"; Point.count := 2;
                       Point.failed := 0 |}]).
  { vm_compute. reflexivity. }
  split; [exact C|].
  destruct (timeline_counts runtime _ _ C) as [_ [S _]]. exact S.
Defined.

End TimelineMore.

(* ===================================================================== *)
(** ** The timeline does not depend on the order of the batch *)
(* ===================================================================== *)

Module TimelineOrder.

Import Sample Timeline DashboardMore TimelineMore.

Lemma labels_perm (rt : Runtime) (logs logs' : list LogEntry) :
  Permutation logs logs' ->
  (forall lab, In lab (labels rt logs) <-> In lab (labels rt logs')) /\
  length (labels rt logs) = length (labels rt logs').
Proof.
  intros P. assert (M : forall lab, In lab (labels rt logs)
                                    <-> In lab (labels rt logs')).
  { intros lab. unfold labels. rewrite !nodup_In, !in_map_iff.
    split; intros [l [E H]]; exists l; (split; [exact E|]).
    - exact (Permutation_in _ P H).
    - exact (Permutation_in _ (Permutation_sym P) H). }
  split; [exact M|].
  apply Nat.le_antisymm; apply NoDup_incl_length;
    try (unfold labels; apply NoDup_nodup); intros lab H; apply M; exact H.
Qed.

Lemma tally_perm (rt : Runtime) (g : LogEntry -> bool)
  (logs logs' : list LogEntry) (lab : jsstring) :
  Permutation logs logs' -> tally rt g logs lab = tally rt g logs' lab.
Proof.
  intros P. unfold tally. f_equal. apply Permutation_length.
  apply filter_perm. exact P.
Qed.

(** Two strictly increasing lists of labels with the same members are the
    same list. *)
Lemma sorted_unique (a b : list jsstring) :
  StronglySorted label_lt a -> StronglySorted label_lt b ->
  (forall x, In x a <-> In x b) -> a = b.
Proof.
  intros Sa. revert b. induction Sa as [|x a Sa IH Ha]; intros b Sb M.
  - destruct b as [|y b]; [reflexivity|].
    destruct (proj2 (M y) (or_introl eq_refl)).
  - destruct Sb as [|y b Sb Hb].
    + destruct (proj1 (M x) (or_introl eq_refl)).
    + rewrite Forall_forall in Ha, Hb.
      assert (E : x = y).
      { destruct (proj1 (M x) (or_introl eq_refl)) as [E|Hx];
          [symmetry; exact E|].
        destruct (proj2 (M y) (or_introl eq_refl)) as [E|Hy]; [exact E|].
        exfalso. apply (label_lt_irrefl x).
        exact (label_lt_trans _ _ _ (Ha y Hy) (Hb x Hx)). }
      subst y. f_equal. apply IH; [exact Sb|].
      intros z. split; intros Hz.
      * destruct (proj1 (M z) (or_intror Hz)) as [E|H]; [|exact H].
        subst z. destruct (label_lt_irrefl x (Ha x Hz)).
      * destruct (proj2 (M z) (or_intror Hz)) as [E|H]; [|exact H].
        subst z. destruct (label_lt_irrefl x (Hb x Hz)).
Qed.

(** Two selections of the same size from one set of labels, each closed
    upwards, have the same members. *)
Lemma upper_selection_incl (labs a b : list jsstring) :
  NoDup a -> (length b <= length a)%nat ->
  incl a labs -> incl b labs ->
  (forall x, In x labs -> In x a \/ forall t, In t a -> label_lt x t) ->
  (forall x, In x labs -> In x b \/ forall t, In t b -> label_lt x t) ->
  incl b a.
Proof.
  intros ND Len Ia Ib Ua Ub y Hy.
  destruct (Ua y (Ib y Hy)) as [H|Below]; [exact H|].
  assert (Inc : incl a b).
  { intros t Ht. destruct (Ub t (Ia t Ht)) as [H|Below']; [exact H|].
    exfalso. apply (label_lt_irrefl t).
    exact (label_lt_trans _ _ _ (Below' y Hy) (Below t Ht)). }
  exact (NoDup_length_incl ND Len Inc y Hy).
Qed.

Lemma points_by_time (f g : jsstring -> Z) (ps qs : list Point.t) :
  map Point.time ps = map Point.time qs ->
  (forall p, In p ps ->
     Point.count p = f (Point.time p) /\ Point.failed p = g (Point.time p)) ->
  (forall p, In p qs ->
     Point.count p = f (Point.time p) /\ Point.failed p = g (Point.time p)) ->
  ps = qs.
Proof.
  revert qs. induction ps as [|p ps IH]; intros [|q qs] E Hp Hq;
    try discriminate; [reflexivity|].
  simpl in E. injection E as Et Es.
  destruct (Hp p (or_introl eq_refl)) as [C F].
  destruct (Hq q (or_introl eq_refl)) as [C' F'].
  f_equal.
  - destruct p as [t c fl], q as [t' c' fl']; simpl in *. congruence.
  - apply IH; [exact Es| |]; intros r Hr; [apply Hp|apply Hq]; right; exact Hr.
Qed.

(** X12. The timeline depends on the entries of the batch and not on
    their order: two batches that are permutations of one another give
    the same points (or both raise). *)
Theorem timeline_ignores_order (rt : Runtime) (logs logs' : list LogEntry) :
  Permutation logs logs' -> chartData rt logs = chartData rt logs'.
Proof.
  intros P. destruct (dated_or_not rt logs) as [D|U].
  - assert (D' : Forall (dated rt) logs').
    { rewrite Forall_forall in *. intros l Hl. apply D.
      exact (Permutation_in _ (Permutation_sym P) Hl). }
    destruct (timeline_dated rt logs D) as [ps [E [_ [Len [SS [Hp Hl]]]]]].
    destruct (timeline_dated rt logs' D')
      as [qs [E' [_ [Len' [SS' [Hq Hl']]]]]].
    rewrite E, E'. f_equal.
    destruct (labels_perm rt logs logs' P) as [M LL].
    pose proof (StronglySorted_times _ SS) as Sa.
    pose proof (StronglySorted_times _ SS') as Sb.
    assert (Ia : incl (map Point.time ps) (labels rt logs)).
    { intros t Ht. apply in_map_iff in Ht. destruct Ht as [p [<- Hin]].
      apply Hp; exact Hin. }
    assert (Ib : incl (map Point.time qs) (labels rt logs)).
    { intros t Ht. apply in_map_iff in Ht. destruct Ht as [p [<- Hin]].
      apply M. apply Hq; exact Hin. }
    assert (Ua : forall x, In x (labels rt logs) ->
                 In x (map Point.time ps) \/
                 forall t, In t (map Point.time ps) -> label_lt x t).
    { intros x Hx. destruct (Hl x Hx) as [H|H]; [left; exact H|right].
      intros t Ht. apply in_map_iff in Ht. destruct Ht as [p [<- Hin]].
      apply H; exact Hin. }
    assert (Ub : forall x, In x (labels rt logs) ->
                 In x (map Point.time qs) \/
                 forall t, In t (map Point.time qs) -> label_lt x t).
    { intros x Hx. destruct (Hl' x (proj1 (M x) Hx)) as [H|H];
        [left; exact H|right].
      intros t Ht. apply in_map_iff in Ht. destruct Ht as [p [<- Hin]].
      apply H; exact Hin. }
    assert (LenEq : length (map Point.time ps) = length (map Point.time qs)).
    { rewrite !length_map, Len, Len', LL. reflexivity. }
    assert (T : map Point.time ps = map Point.time qs).
    { apply sorted_unique; [exact Sa|exact Sb|]. intros x; split.
      - apply (upper_selection_incl (labels rt logs));
          [apply StronglySorted_lt_NoDup; exact Sb|lia|exact Ib|exact Ia
          |exact Ub|exact Ua].
      - apply (upper_selection_incl (labels rt logs));
          [apply StronglySorted_lt_NoDup; exact Sa|lia|exact Ia|exact Ib
          |exact Ua|exact Ub]. }
    apply (points_by_time (count_with rt logs) (count_failed_with rt logs));
      [exact T| |].
    + intros p Hin. apply Hp; exact Hin.
    + intros p Hin. destruct (Hq p Hin) as [_ [C F]].
      rewrite C, F, !count_with_tally, !count_failed_with_tally.
      split; symmetry; apply tally_perm; exact P.
  - assert (U' : Exists (fun l => getTime rt l = None) logs').
    { apply Exists_exists in U. destruct U as [l [Hin N]].
      apply Exists_exists. exists l. split; [|exact N].
      exact (Permutation_in _ P Hin). }
    rewrite (chartData_undated rt logs U), (chartData_undated rt logs' U').
    reflexivity.
Qed.

Lemma timeline_ignores_order_witness :
  chartData runtime
    [raw_entry runtime 0 (lit "a"); raw_entry runtime 1 (lit "b")]
  = chartData runtime
    [raw_entry runtime 1 (lit "b"); raw_entry runtime 0 (lit "a")].
Proof. apply timeline_ignores_order. apply perm_swap. Defined.

End TimelineOrder.

(* ===================================================================== *)
(** ** More on the generator and the demo *)
(* ===================================================================== *)

Module GeneratorMore.

Import Sample Generator DashboardMore.

(** An index computed from a draw falls inside the pool. *)
Lemma pick_in_pool {A : Type} (pool : list A) (r : Q) :
  pool <> [] -> (0 <= r)%Q -> (r < 1)%Q ->
  exists v, pick pool r = Some v /\ In v pool.
Proof.
  intros Hne H0 H1. unfold pick.
  set (n := Z.of_nat (length pool)).
  assert (Hn : 0 < n). { unfold n. destruct pool; [congruence|simpl; lia]. }
  assert (Hq : (0 < inject_Z n)%Q).
  { change 0%Q with (inject_Z 0). rewrite <- Zlt_Qlt. exact Hn. }
  assert (Lo : 0 <= Qfloor (r * inject_Z n)).
  { rewrite <- (Qfloor_Z 0). apply Qfloor_resp_le.
    change (inject_Z 0) with 0%Q.
    apply Qmult_le_0_compat; [exact H0|apply Qlt_le_weak; exact Hq]. }
  assert (Hi : Qfloor (r * inject_Z n) < n).
  { rewrite Zlt_Qlt. eapply Qle_lt_trans; [apply Qfloor_le|].
    setoid_replace (inject_Z n) with (1 * inject_Z n)%Q at 2 by ring.
    apply Qmult_lt_compat_r; assumption. }
  destruct (Z.ltb_spec (Qfloor (r * inject_Z n)) 0) as [L|_]; [lia|].
  destruct (nth_error pool (Z.to_nat (Qfloor (r * inject_Z n)))) as [v|] eqn:E.
  - exists v. split; [reflexivity|]. exact (nth_error_In _ _ E).
  - apply nth_error_None in E. subst n. lia.
Qed.

Lemma mapM_Forall {A B : Type} (f : A -> Result B) (P : B -> Prop)
  (l : list A) (bs : list B) :
  (forall a b, f a = Ok b -> P b) ->
  mapM f l = Ok bs -> Forall P bs /\ length bs = length l.
Proof.
  intros Hf. revert bs. induction l as [|a l IH]; intros bs; simpl.
  - intros E. injection E as <-. split; [constructor|reflexivity].
  - destruct (f a) as [b|e] eqn:Fa; simpl; [|discriminate].
    destruct (mapM f l) as [bs'|e] eqn:M; simpl; [|discriminate].
    intros E. injection E as <-. destruct (IH bs' eq_refl) as [F L].
    split; [constructor; [exact (Hf a b Fa)|exact F]|simpl; congruence].
Qed.

(** What the dashboard makes of the two kinds of entries. *)
Lemma burst_is_critical (e : LogEntry) :
  burst_shaped e -> is_critical e = true /\ is_failed e = true.
Proof.
  intros [_ [_ [_ [Hid [_ Hs]]]]]. unfold is_critical, is_failed.
  rewrite Hs, Hid. split; [reflexivity|].
  cbn [id_is]. rewrite Qeq_bool_refl. apply orb_true_r.
Qed.

Lemma normal_not_critical (e : LogEntry) :
  normal_shaped e -> is_critical e = false.
Proof.
  intros [_ [_ [_ [_ [_ Hs]]]]]. unfold is_critical. rewrite Hs.
  reflexivity.
Qed.

Lemma shaped_ip (e : LogEntry) : demo_shaped e -> from_pool ips (ip e).
Proof.
  intros [_ [_ [_ [[Hip _]|[Hip _]]]]]; [|exact Hip].
  exists (lit "203.0.113.5"). split; [exact Hip|].
  unfold ips. apply in_map. simpl. tauto.
Qed.

Section Shapes.

Variable rt : Runtime.
Hypothesis draws : unit_random rt.

Lemma burst_entry_shaped (ts : jsstring) (j : Z) (e : LogEntry) :
  burst_entry rt ts j = Ok e -> demo_shaped e /\ burst_shaped e.
Proof.
  unfold burst_entry. destruct (Date_parse rt ts) as [t|]; [|discriminate].
  intros E. injection E as <-.
  assert (B : burst_shaped
                {| timestamp := Some (toISOString rt (t + j * 1000));
                   ip := nth_error ips 2; user := nth_error users 0;
                   action := Some (lit "LOGIN_FAILED");
                   event_id := Some (inr (inject_Z 4625));
                   severity := Some (lit "High");
                   status_code := None; user_agent := None;
                   message := None |}).
  { repeat split. }
  split; [|exact B].
  split; [eexists; reflexivity|]. split; [reflexivity|].
  split; [reflexivity|]. left; exact B.
Qed.

Lemma normal_entry_shaped (ts : jsstring) (k : nat) :
  demo_shaped (normal_entry rt ts k) /\ normal_shaped (normal_entry rt ts k).
Proof.
  assert (N : normal_shaped (normal_entry rt ts k)).
  { unfold normal_shaped, normal_entry, from_pool;
      cbn [ip user action event_id status_code severity].
    split; [|split; [|split; [|split; [|split]]]].
    - destruct (draws k). apply pick_in_pool; [discriminate|assumption..].
    - destruct (draws (k + 1)%nat).
      apply pick_in_pool; [discriminate|assumption..].
    - destruct (draws (k + 2)%nat).
      apply pick_in_pool; [discriminate|assumption..].
    - destruct (Qlt_bool (1 # 2) (random rt (k + 3))); [left|right];
        reflexivity.
    - destruct (Qlt_bool (8 # 10) (random rt (k + 4))); [right|left];
        reflexivity.
    - reflexivity. }
  split; [|exact N].
  split; [eexists; reflexivity|]. split; [reflexivity|].
  split; [reflexivity|]. right; exact N.
Qed.

(** What one slot pushes, whenever it completes. *)
Lemma slot_shaped (now : Z) (k : nat) (pushed : list LogEntry) (b : bool) :
  slot rt now k = Ok (pushed, b) ->
  Forall demo_shaped pushed /\
  length pushed = (if b then 8 else 1)%nat /\
  length (filter is_critical pushed) = (if b then 8 else 0)%nat /\
  ((if b then 8 else 0) <= length (filter is_failed pushed))%nat.
Proof.
  unfold slot. destruct (isAttack rt k).
  - destruct (mapM _ _) as [bs|e] eqn:M; simpl; [|discriminate].
    intros E. injection E as <- <-.
    destruct (mapM_Forall _ (fun e => demo_shaped e /\ burst_shaped e)
                _ _ (burst_entry_shaped _) M) as [F L].
    rewrite length_map, length_seq in L.
    assert (Fc : forall f, (forall e, burst_shaped e -> f e = true) ->
                           filter f bs = bs).
    { intros f Hf. clear L M. induction F as [|e bs [_ He] _ IH]; simpl;
        [reflexivity|]. rewrite (Hf e He), IH. reflexivity. }
    split; [eapply Forall_impl; [|exact F]; intros e He; apply He|].
    split; [exact L|].
    rewrite (Fc is_critical (fun e H => proj1 (burst_is_critical e H))).
    rewrite (Fc is_failed (fun e H => proj2 (burst_is_critical e H))).
    split; [exact L|rewrite L; apply Nat.le_refl].
  - intros E. injection E as <- <-.
    destruct (normal_entry_shaped
                (toISOString rt (slot_instant rt now k)) (k + 2)) as [D N].
    split; [constructor; [exact D|constructor]|].
    split; [reflexivity|]. cbn [filter].
    rewrite (normal_not_critical _ N). split; [reflexivity|apply Nat.le_0_l].
Qed.

(** The loop from slot [i] on, whenever it completes: it only appends;
    [n] ordinary slots and [b] bursts append [n + 8 b] entries of the two
    shapes, of which exactly the [8 b] of the bursts are critical, and
    take [7 n + 2 b] random numbers. *)
Lemma gen_loop_shape (now count : Z) :
  forall (m : nat) (i : Z) (k : nat) (logs out : list LogEntry) (k' : nat),
    Z.to_nat (count - i) = m ->
    gen_loop rt now count i k logs = Ok (out, k') ->
    exists pushed n b,
      out = logs ++ pushed /\
      Forall demo_shaped pushed /\
      length pushed = (n + 8 * b)%nat /\
      length (filter is_critical pushed) = (8 * b)%nat /\
      (8 * b <= length (filter is_failed pushed))%nat /\
      k' = (k + 7 * n + 2 * b)%nat.
Proof.
  induction m as [m IH] using lt_wf_ind. intros i k logs out k' Hm.
  rewrite gen_loop_unfold. destruct (Z.ltb_spec i count) as [Lt|Ge].
  - destruct (slot rt now k) as [[p b]|e] eqn:Hs; [|discriminate].
    destruct (slot_shaped now k p b Hs) as [Fp [Lp [Cp Fl]]].
    destruct b; intros Hg.
    + destruct (IH (Z.to_nat (count - (i + 7 + 1))) ltac:(lia)
                  (i + 7 + 1) (k + 2)%nat (logs ++ p) out k' eq_refl Hg)
        as [q [n [b [Eo [Fq [Lq [Cq [Flq Ek]]]]]]]].
      exists (p ++ q), n, (S b). rewrite app_assoc.
      split; [exact Eo|]. split; [apply Forall_app; split; assumption|].
      rewrite !filter_app, !length_app. repeat split; lia.
    + destruct (IH (Z.to_nat (count - (i + 1))) ltac:(lia)
                  (i + 1) (k + 7)%nat (logs ++ p) out k' eq_refl Hg)
        as [q [n [b [Eo [Fq [Lq [Cq [Flq Ek]]]]]]]].
      exists (p ++ q), (S n), b. rewrite app_assoc.
      split; [exact Eo|]. split; [apply Forall_app; split; assumption|].
      rewrite !filter_app, !length_app. repeat split; lia.
  - intros E. injection E as <- <-. exists [], 0%nat, 0%nat.
    rewrite app_nil_r. repeat split; try constructor; simpl; lia.
Qed.

Lemma unique_ips_bound (batch : list LogEntry) :
  Forall demo_shaped batch -> (Stats.uniqueIps (stats batch) <= 5)%nat.
Proof.
  intros F. unfold stats; cbn [Stats.uniqueIps].
  change 5%nat with (length (map (@Some jsstring) ips)).
  apply NoDup_incl_length; [apply NoDup_nodup|].
  intros x Hx. apply nodup_In in Hx. apply in_map_iff in Hx.
  destruct Hx as [e [<- He]]. rewrite Forall_forall in F.
  destruct (shaped_ip e (F e He)) as [v [-> Hv]]. apply in_map; exact Hv.
Qed.

Lemma generated_shape (c k : nat) (count : Z) (batch : list LogEntry)
  (k' : nat) :
  generateDemoLogs rt c k count = Ok (batch, k') ->
  Forall demo_shaped batch /\
  exists n b,
    Stats.total (stats batch) = (n + 8 * b)%nat /\
    Stats.critical (stats batch) = (8 * b)%nat /\
    (Stats.critical (stats batch) <= Stats.failed (stats batch))%nat /\
    (Stats.uniqueIps (stats batch) <= 5)%nat /\
    k' = (k + 7 * n + 2 * b)%nat.
Proof.
  unfold generateDemoLogs.
  destruct (gen_loop rt (clock rt c) count 0 k []) as [[out k1]|e] eqn:G;
    [|discriminate].
  cbn [bind fst snd]. intros E. injection E as <- <-.
  destruct (gen_loop_shape _ _ _ 0 k [] out k1 eq_refl G)
    as [p [n [b [Eo [Fp [Lp [Cp [Fl Ek]]]]]]]].
  simpl in Eo. subst p.
  pose proof (sort_perm (by_time rt) out) as P.
  assert (Fs : Forall demo_shaped (sort (by_time rt) out)).
  { rewrite Forall_forall in *. intros e He. apply Fp.
    exact (Permutation_in _ P He). }
  split; [exact Fs|]. exists n, b.
  rewrite (stats_perm _ _ P). unfold stats at 1 2 3 4.
  cbn [Stats.total Stats.critical Stats.failed].
  split; [exact Lp|]. split; [exact Cp|]. split; [lia|].
  split; [|exact Ek]. rewrite <- (stats_perm _ _ P).
  apply unique_ips_bound; exact Fs.
Qed.

End Shapes.

(** X13. Every entry of a generated batch has a timestamp, no
    [user_agent] and no [message], and is of one of two shapes: that of a
    burst (LOGIN_FAILED by admin from 203.0.113.5, event 4625, severity
    High, no status code) or that of an ordinary slot (address, user and
    action from the three pools, event 4624 or 4625, status 200 or 403,
    severity Info).  ([Math.random] is taken to give numbers from 0 up to
    1.) *)
Theorem demo_entries_shaped (rt : Runtime) (c k : nat) (count : Z)
  (batch : list LogEntry) (k' : nat) :
  unit_random rt ->
  generateDemoLogs rt c k count = Ok (batch, k') ->
  Forall demo_shaped batch.
Proof.
  intros draws E. exact (proj1 (generated_shape rt draws c k count _ _ E)).
Qed.

Lemma demo_entries_shaped_witness :
  unit_random runtime /\
  exists batch k',
    generateDemoLogs runtime 0 18 1 = Ok (batch, k') /\
    Forall demo_shaped batch.
Proof.
  split; [exact sample_random|].
  destruct (generateDemoLogs runtime 0 18 1) as [[batch k']|e] eqn:E.
  - exists batch, k'. split; [reflexivity|].
    exact (demo_entries_shaped runtime 0 18 1 batch k' sample_random E).
  - vm_compute in E. discriminate E.
Defined.

(** X14. What the dashboard shows of a generated batch.  The batch
    comes from [n] ordinary slots and [b] bursts: it has [n + 8 b]
    entries; exactly [8 b] of them are critical, so the critical count is
    a multiple of eight; the failed count is at least the critical count;
    there are at most five distinct addresses; and [7 n + 2 b] random
    numbers were drawn. *)
Theorem demo_dashboard (rt : Runtime) (c k : nat) (count : Z)
  (batch : list LogEntry) (k' : nat) :
  unit_random rt ->
  generateDemoLogs rt c k count = Ok (batch, k') ->
  exists n b,
    Stats.total (stats batch) = (n + 8 * b)%nat /\
    Stats.critical (stats batch) = (8 * b)%nat /\
    (Stats.critical (stats batch) <= Stats.failed (stats batch))%nat /\
    (Stats.uniqueIps (stats batch) <= 5)%nat /\
    k' = (k + 7 * n + 2 * b)%nat.
Proof.
  intros draws E. exact (proj2 (generated_shape rt draws c k count _ _ E)).
Qed.

Lemma demo_dashboard_witness :
  unit_random runtime /\
  exists batch k',
    generateDemoLogs runtime 0 18 1 = Ok (batch, k') /\
    exists n b,
      Stats.total (stats batch) = (n + 8 * b)%nat /\
      Stats.critical (stats batch) = (8 * b)%nat /\
      (Stats.critical (stats batch) <= Stats.failed (stats batch))%nat /\
      (Stats.uniqueIps (stats batch) <= 5)%nat /\
      k' = (18 + 7 * n + 2 * b)%nat.
Proof.
  split; [exact sample_random|].
  destruct (generateDemoLogs runtime 0 18 1) as [[batch k']|e] eqn:E.
  - exists batch, k'. split; [reflexivity|].
    exact (demo_dashboard runtime 0 18 1 batch k' sample_random E).
  - vm_compute in E. discriminate E.
Defined.

End GeneratorMore.

(* ===================================================================== *)
(** ** The demo, from the button and from the chat *)
(* ===================================================================== *)

Module DemoRun.

Import Sample Generator GeneratorMore.

Lemma handleDemo_spec (rt : Runtime) (st : State) :
  iso_roundtrip rt -> unit_random rt ->
  in_margin (clock rt (clock_reads st)) ->
  exists batch k',
    handleDemo rt st
    = Ok {| logs := batch;
            analyzed := analyzed st ++ [JSON_stringify_indent rt batch];
            clock_reads := clock_reads st + 1;
            random_reads := k' |} /\
    150 <= Z.of_nat (length batch) <= 157 /\
    StronglySorted (time_le rt) batch /\
    Forall demo_shaped batch /\
    (random_reads st <= k')%nat.
Proof.
  intros dates draws M.
  destruct (generateDemoLogs_spec rt dates draws (clock_reads st)
              (random_reads st) 150 M) as [p [k' [_ [G [D [L _]]]]]].
  exists (sort (by_time rt) p), k'. unfold handleDemo. rewrite G.
  split; [reflexivity|].
  destruct (generated_shape rt draws _ _ _ _ _ G) as [Sh [n [b [_ [_ [_ [_ Ek]]]]]]].
  split; [rewrite (Permutation_length (sort_perm (by_time rt) p)); lia|].
  split; [apply generated_sorted; exact D|].
  split; [exact Sh|lia].
Qed.

(** X15. The demo button, on a runtime that keeps the promises of
    ECMAScript about dates and random numbers: it completes; the batch is
    replaced by 150 to 157 generated entries, in the order of their
    instants; the analyser is given the indented serialisation of exactly
    that batch, after whatever it was given before; the clock has been read
    once. *)
Theorem demo_replaces_batch (rt : Runtime) (st : State) :
  iso_roundtrip rt -> unit_random rt ->
  in_margin (clock rt (clock_reads st)) ->
  exists batch k',
    handleDemo rt st
    = Ok {| logs := batch;
            analyzed := analyzed st ++ [JSON_stringify_indent rt batch];
            clock_reads := clock_reads st + 1;
            random_reads := k' |} /\
    150 <= Z.of_nat (length batch) <= 157 /\
    StronglySorted (time_le rt) batch /\
    Forall demo_shaped batch /\
    (random_reads st <= k')%nat.
Proof. exact (handleDemo_spec rt st). Qed.

Lemma demo_replaces_batch_witness :
  iso_roundtrip runtime /\ unit_random runtime /\
  in_margin (clock runtime (clock_reads initial)) /\
  exists batch k',
    handleDemo runtime initial
    = Ok {| logs := batch;
            analyzed := analyzed initial
                        ++ [JSON_stringify_indent runtime batch];
            clock_reads := clock_reads initial + 1;
            random_reads := k' |} /\
    150 <= Z.of_nat (length batch) <= 157 /\
    StronglySorted (time_le runtime) batch /\
    Forall demo_shaped batch /\
    (random_reads initial <= k')%nat.
Proof.
  split; [exact sample_roundtrip|]. split; [exact sample_random|].
  split; [exact sample_margin|].
  exact (demo_replaces_batch runtime initial sample_roundtrip sample_random
           sample_margin).
Defined.

(** A text in which the word is found is not blank. *)
Lemma trimStart_all_blank (s : jsstring) :
  Forall (fun c => isWhiteSpace c = true) (trimStart s) ->
  Forall (fun c => isWhiteSpace c = true) s.
Proof.
  induction s as [|c s IH]; simpl; [intros _; constructor|].
  destruct (isWhiteSpace c) eqn:W; [|intros H; exact H].
  intros H. constructor; [exact W|exact (IH H)].
Qed.

Lemma trimEnd_empty (s : jsstring) :
  trimEnd s = [] -> Forall (fun c => isWhiteSpace c = true) s.
Proof.
  induction s as [|c s IH]; simpl; [intros _; constructor|].
  destruct (trimEnd s) as [|d t]; [|discriminate].
  destruct (isWhiteSpace c) eqn:W; [|discriminate].
  intros _. constructor; [exact W|apply IH; reflexivity].
Qed.

Lemma trim_empty (s : jsstring) :
  trim s = [] -> Forall (fun c => isWhiteSpace c = true) s.
Proof. intros H. apply trimStart_all_blank, trimEnd_empty. exact H. Qed.

Lemma mentions_demo_not_blank (s : jsstring) :
  includes (toLowerCase s) (lit "demo") = true -> truthy (trim s) = true.
Proof.
  intros H. destruct (trim s) as [|c t] eqn:T; [|reflexivity].
  exfalso. apply trim_empty in T. apply includes_spec in H.
  destruct H as [pre [post E]].
  assert (I : In 100%N (toLowerCase s)).
  { rewrite E. apply in_or_app. right. left. reflexivity. }
  unfold toLowerCase in I. apply in_map_iff in I.
  destruct I as [c [Ec Hc]]. rewrite Forall_forall in T.
  specialize (T c Hc).
  destruct ((65 <=? c) && (c <=? 90))%N eqn:U.
  - assert (c = 68%N) by lia. subst c. discriminate T.
  - subst c. discriminate T.
Qed.

(** X16. A chat message in which the word demo occurs, in whatever
    case, is not sent to the analyser: the demo runs instead.  The batch is
    replaced by 150 to 157 generated entries, the analyser is given the
    serialisation of that batch, the conversation gains the message and
    then the line "Run demo simulation", both from the user, and the input
    box is emptied. *)
Theorem demo_keyword_runs_demo (rt : Runtime) (c : Ui.Comp) :
  iso_roundtrip rt -> unit_random rt ->
  in_margin (clock rt (clock_reads (Ui.app c))) ->
  includes (toLowerCase (Ui.chatInput (Ui.view c))) (lit "demo") = true ->
  exists c',
    Ui.handleChatSubmit_ui rt c = Ok c' /\
    150 <= Z.of_nat (length (logs (Ui.app c'))) <= 157 /\
    analyzed (Ui.app c')
    = analyzed (Ui.app c)
      ++ [JSON_stringify_indent rt (logs (Ui.app c'))] /\
    Ui.messages (Ui.view c')
    = Ui.messages (Ui.view c)
      ++ [{| Ui.role := Ui.role_user;
             Ui.content := Ui.chatInput (Ui.view c) |};
          {| Ui.role := Ui.role_user;
             Ui.content := lit "Run demo simulation" |}] /\
    Ui.chatInput (Ui.view c') = [] /\
    Ui.isAnalyzing (Ui.view c') = true.
Proof.
  intros dates draws M H.
  destruct (handleDemo_spec rt (Ui.app c) dates draws M)
    as [batch [k' [E [L _]]]].
  unfold Ui.handleChatSubmit_ui.
  rewrite (mentions_demo_not_blank _ H), H. cbn [negb].
  unfold Ui.handleDemo_ui. cbn [Ui.app Ui.view]. rewrite E. cbn [bind].
  eexists. split; [reflexivity|]. cbn [Ui.app Ui.view logs analyzed].
  split; [exact L|]. split; [reflexivity|].
  cbn [Ui.setIsAnalyzing Ui.say Ui.setChatInput Ui.messages Ui.chatInput
       Ui.isAnalyzing].
  rewrite <- app_assoc. repeat split.
Qed.

Lemma demo_keyword_runs_demo_witness :
  iso_roundtrip runtime /\ unit_random runtime /\
  in_margin (clock runtime (clock_reads (Ui.app (typed (lit "a DEMO please"))))) /\
  includes (toLowerCase (Ui.chatInput (Ui.view (typed (lit "a DEMO please")))))
    (lit "demo") = true /\
  exists c',
    Ui.handleChatSubmit_ui runtime (typed (lit "a DEMO please")) = Ok c' /\
    150 <= Z.of_nat (length (logs (Ui.app c'))) <= 157.
Proof.
  split; [exact sample_roundtrip|]. split; [exact sample_random|].
  split; [exact sample_margin|]. split; [vm_compute; reflexivity|].
  destruct (demo_keyword_runs_demo runtime (typed (lit "a DEMO please"))
              sample_roundtrip sample_random sample_margin)
    as [c' [E [L _]]]; [vm_compute; reflexivity|].
  exists c'. split; [exact E|exact L].
Defined.

End DemoRun.

(* ===================================================================== *)
(** ** The log explorer *)
(* ===================================================================== *)

Module ExplorerFacts.

Import Explorer.

Lemma rows_None (f : jsstring) (logs : list LogEntry) :
  rows f logs = None <-> Exists (fun l => ip l = None) logs.
Proof.
  induction logs as [|l logs IH]; simpl.
  - split; [discriminate|intros H; inversion H].
  - unfold ip_includes. destruct (ip l) as [a|] eqn:E.
    + destruct (rows f logs) as [r|].
      * split; [discriminate|]. intros H. inversion H; subst.
        -- congruence.
        -- apply IH in H1. discriminate.
      * split; [|reflexivity]. intros _. right. apply IH. reflexivity.
    + split; [|reflexivity]. intros _. left. exact E.
Qed.

Lemma rows_Some (f : jsstring) (logs r : list LogEntry) :
  rows f logs = Some r -> r = filter (shown f) logs.
Proof.
  revert r. induction logs as [|l logs IH]; intros r; simpl.
  - intros E. injection E as <-. reflexivity.
  - unfold ip_includes, shown. destruct (ip l) as [a|]; [|discriminate].
    destruct (rows f logs) as [r'|]; [|discriminate].
    intros E. injection E as <-. rewrite (IH r' eq_refl). reflexivity.
Qed.

Lemma rows_total (f : jsstring) (logs : list LogEntry) :
  Forall (fun l => ip l <> None) logs ->
  rows f logs = Some (filter (shown f) logs).
Proof.
  intros H. destruct (rows f logs) as [r|] eqn:E.
  - rewrite (rows_Some f logs r E). reflexivity.
  - apply rows_None in E. apply Exists_exists in E.
    destruct E as [l [Hin N]]. rewrite Forall_forall in H.
    destruct (H l Hin N).
Qed.

Lemma shown_spec (f : jsstring) (l : LogEntry) :
  shown f l = true <-> exists a, ip l = Some a /\ occurs_in f a.
Proof.
  unfold shown. destruct (ip l) as [a|].
  - rewrite includes_spec. split.
    + intros H. exists a. split; [reflexivity|exact H].
    + intros [b [E H]]. injection E as ->. exact H.
  - split; [discriminate|]. intros [a [E _]]. discriminate.
Qed.

Lemma occurs_in_trans (f g a : jsstring) :
  occurs_in f g -> occurs_in g a -> occurs_in f a.
Proof.
  intros [p [q ->]] [p' [q' ->]]. exists (p' ++ p), (q ++ q').
  rewrite <- !app_assoc. reflexivity.
Qed.

Lemma rows_narrow (f g : jsstring) (logs rf rg : list LogEntry) :
  occurs_in f g ->
  rows f logs = Some rf -> rows g logs = Some rg ->
  rg = filter (shown g) rf /\ incl rg rf.
Proof.
  intros O Ef Eg. rewrite (rows_Some _ _ _ Ef), (rows_Some _ _ _ Eg).
  assert (S : forall l, shown g l = true -> shown f l = true).
  { intros l H. apply shown_spec in H. destruct H as [a [E H]].
    apply shown_spec. exists a. split; [exact E|].
    exact (occurs_in_trans f g a O H). }
  split.
  - clear Ef Eg. induction logs as [|l logs IH]; simpl; [reflexivity|].
    destruct (shown g l) eqn:G.
    + rewrite (S l G). simpl. rewrite G, IH. reflexivity.
    + destruct (shown f l); simpl; [rewrite G|]; exact IH.
  - intros l H. apply filter_In in H. apply filter_In.
    split; [apply H|apply S, H].
Qed.

(** X17. The rows of the log explorer.  The filter expression reads
    [includes] off the address of every entry, so it raises as soon as one
    entry of the batch carries no address, whatever the filter; on a batch
    where every entry has one it gives, in the order of the batch, the
    entries whose address contains the filter text, and all of them for
    the empty filter. *)
Theorem explorer_rows (f : jsstring) (logs : list LogEntry) :
  (rows f logs = None <-> Exists (fun l => ip l = None) logs) /\
  (forall r, rows f logs = Some r ->
     r = filter (shown f) logs /\
     (forall l, In l r <->
        In l logs /\ exists a, ip l = Some a /\ occurs_in f a) /\
     (f = [] -> r = logs)).
Proof.
  split; [apply rows_None|]. intros r E.
  pose proof (rows_Some f logs r E) as R. split; [exact R|]. split.
  - intros l. rewrite R, filter_In, shown_spec. reflexivity.
  - intros ->. rewrite R.
    assert (N : Forall (fun l => ip l <> None) logs).
    { apply Forall_forall. intros l Hin Hn.
      assert (X : rows [] logs = None).
      { apply rows_None. apply Exists_exists. exists l. tauto. }
      congruence. }
    clear E R. induction N as [|l logs Hl _ IH]; simpl; [reflexivity|].
    unfold shown at 1. destruct (ip l) as [j|]; [|congruence].
    destruct j; simpl; rewrite IH; reflexivity.
Qed.

(** X18. Typing more into the filter only removes rows: when the new
    filter text contains the old one, the new rows are the old rows put
    through the new filter, and the explorer returns for the one filter
    exactly when it does for the other. *)
Theorem explorer_narrows (f g : jsstring) (logs : list LogEntry) :
  occurs_in f g ->
  (rows f logs = None <-> rows g logs = None) /\
  (forall rf rg,
     rows f logs = Some rf -> rows g logs = Some rg ->
     rg = filter (shown g) rf /\ incl rg rf).
Proof.
  intros O. split.
  - rewrite !rows_None. reflexivity.
  - intros rf rg. apply rows_narrow. exact O.
Qed.

Lemma explorer_narrows_witness :
  occurs_in (lit "1.2") (lit "1.2.3") /\
  exists rf rg,
    rows (lit "1.2") [Sample.scenario_entry] = Some rf /\
    rows (lit "1.2.3") [Sample.scenario_entry] = Some rg /\
    incl rg rf.
Proof.
  assert (O : occurs_in (lit "1.2") (lit "1.2.3")).
  { exists [], (lit ".3"). reflexivity. }
  split; [exact O|].
  exists [Sample.scenario_entry], [Sample.scenario_entry].
  split; [vm_compute; reflexivity|]. split; [vm_compute; reflexivity|].
  destruct (explorer_narrows (lit "1.2") (lit "1.2.3")
              [Sample.scenario_entry] O) as [_ N].
  apply (N [Sample.scenario_entry] [Sample.scenario_entry]);
    vm_compute; reflexivity.
Defined.

End ExplorerFacts.

(* ===================================================================== *)
(** ** The conversation, the report and its export *)
(* ===================================================================== *)

Module UiFacts.

Import Ui.

Lemma analysis_of_nonempty (text : option jsstring) : analysis_of text <> [].
Proof. destruct text as [[|c s]|]; discriminate. Qed.

(** What one event does to the conversation and to the report. *)
Lemma react_view (rt : Runtime) (ev : Event) (c c' : Comp) :
  react rt ev c = Ok c' ->
  analysisOutput (view c')
  = match log_answer ev with
    | Some r => r
    | None => analysisOutput (view c)
    end /\
  (ev <> ev_clear ->
   exists more, messages (view c') = messages (view c) ++ more /\
                (length more <= 2)%nat) /\
  (ev = ev_clear ->
   messages (view c')
   = [{| role := role_assistant; content := chat_cleared |}]).
Proof.
  destruct ev as [text| |s| | | |s| |r o| |t|]; cbn [react log_answer].
  - unfold handleFileUpload_ui.
    destruct (handleFileUpload rt (app c) text) as [st|e]; [|discriminate].
    intros E. injection E as <-. cbn.
    repeat split; try discriminate.
    intros _. exists []. rewrite app_nil_r. split; [reflexivity|simpl; lia].
  - unfold handleDemo_ui.
    destruct (handleDemo rt (app c)) as [st|e]; [|discriminate].
    intros E. injection E as <-. cbn.
    repeat split; try discriminate.
    intros _. eexists. split; [reflexivity|simpl; lia].
  - intros E. injection E as <-. cbn. repeat split; try discriminate.
    intros _. exists []. rewrite app_nil_r. split; [reflexivity|simpl; lia].
  - unfold handleChatSubmit_ui.
    destruct (negb (truthy (trim (chatInput (view c))))).
    + intros E. injection E as <-. repeat split; try discriminate.
      intros _. exists []. rewrite app_nil_r.
      split; [reflexivity|simpl; lia].
    + destruct (includes _ _).
      * unfold handleDemo_ui. cbn [app view].
        destruct (handleDemo rt (app c)) as [st|e]; [|discriminate].
        intros E. injection E as <-. cbn.
        repeat split; try discriminate.
        intros _. eexists. rewrite <- app_assoc.
        split; [reflexivity|simpl; lia].
      * intros E. injection E as <-. cbn.
        repeat split; try discriminate.
        intros _. eexists. split; [reflexivity|simpl; lia].
  - intros E. injection E as <-. cbn. repeat split; try discriminate.
    intros _. exists []. rewrite app_nil_r. split; [reflexivity|simpl; lia].
  - intros E. injection E as <-. cbn. repeat split; try discriminate.
    intros _. exists []. rewrite app_nil_r. split; [reflexivity|simpl; lia].
  - intros E. injection E as <-. cbn. repeat split; try discriminate.
    intros _. exists []. rewrite app_nil_r. split; [reflexivity|simpl; lia].
  - unfold handleSingleLogAnalysis.
    destruct (negb (truthy (trim (singleLogInput (view c))))).
    + intros E. injection E as <-. repeat split; try discriminate.
      intros _. exists []. rewrite app_nil_r.
      split; [reflexivity|simpl; lia].
    + intros E. injection E as <-. cbn. repeat split; try discriminate.
      intros _. eexists. split; [reflexivity|simpl; lia].
  - intros E. injection E as <-.
    destruct r, o as [text|msg]; cbn; repeat split; try discriminate;
      intros _; eexists; (split; [reflexivity|simpl; lia]).
  - intros E. injection E as <-. cbn. repeat split; try discriminate.
    intros H. congruence.
  - intros E. injection E as <-. cbn. repeat split; try discriminate.
    intros _. exists []. rewrite app_nil_r. split; [reflexivity|simpl; lia].
  - unfold handleExportJson.
    destruct (negb (truthy (analysisOutput (view c)))); cbn [fst];
      intros E; injection E as <-; cbn; repeat split; try discriminate;
      intros _; exists []; rewrite app_nil_r;
      (split; [reflexivity|simpl; lia]).
Qed.

Lemma run_cons (rt : Runtime) (ev : Event) (evs : list Event) (c c' : Comp) :
  run rt (ev :: evs) c = Ok c' ->
  exists c1, react rt ev c = Ok c1 /\ run rt evs c1 = Ok c'.
Proof.
  cbn [run]. destruct (react rt ev c) as [c1|e]; [|discriminate].
  intros H. exists c1. split; [reflexivity|exact H].
Qed.

Lemma run_report (rt : Runtime) (evs : list Event) (c c' : Comp) :
  run rt evs c = Ok c' ->
  analysisOutput (view c') = last_report evs (analysisOutput (view c)).
Proof.
  revert c. induction evs as [|ev evs IH]; intros c.
  - intros E. injection E as <-. reflexivity.
  - intros E. destruct (run_cons _ _ _ _ _ E) as [c1 [S R]].
    rewrite (IH c1 R). cbn [last_report].
    rewrite (proj1 (react_view rt ev c c1 S)). reflexivity.
Qed.

Lemma last_report_empty (evs : list Event) (current : jsstring) :
  last_report evs current = [] <->
  current = [] /\ Forall (fun ev => log_answer ev = None) evs.
Proof.
  revert current. induction evs as [|ev evs IH]; intros current; simpl.
  - split; [intros H; split; [exact H|constructor]|intros [H _]; exact H].
  - rewrite IH. destruct (log_answer ev) as [r|] eqn:L.
    + split.
      * intros [H _]. exfalso. unfold log_answer in L.
        destruct ev as [| | | | | | | |[] [text|]| | |]; try discriminate.
        injection L as <-. exact (analysis_of_nonempty text H).
      * intros [_ H]. inversion H; subst. congruence.
    + split.
      * intros [H F]. split; [exact H|constructor; [exact L|exact F]].
      * intros [H F]. inversion F as [|? ? _ F']. split; assumption.
Qed.

Lemma last_report_unanswered (evs : list Event) (current : jsstring) :
  Forall (fun ev => log_answer ev = None) evs ->
  last_report evs current = current.
Proof.
  induction 1 as [|ev evs H _ IH]; simpl; [reflexivity|].
  rewrite H. exact IH.
Qed.

(** X19. The conversation only grows.  In a run without the clear
    button the messages at the end are those at the start followed by at
    most two new ones per event; in any run, clear button included, a
    conversation that is not empty never becomes empty. *)
Theorem conversation_only_grows (rt : Runtime) (evs : list Event)
  (c c' : Comp) :
  run rt evs c = Ok c' ->
  (messages (view c) <> [] -> messages (view c') <> []) /\
  (Forall (fun ev => ev <> ev_clear) evs ->
   exists more, messages (view c') = messages (view c) ++ more /\
                (length more <= 2 * length evs)%nat).
Proof.
  revert c. induction evs as [|ev evs IH]; intros c.
  - intros E. injection E as <-. split; [tauto|].
    intros _. exists []. rewrite app_nil_r. split; [reflexivity|simpl; lia].
  - intros E. destruct (run_cons _ _ _ _ _ E) as [c1 [S R]].
    destruct (IH c1 R) as [N G].
    destruct (react_view rt ev c c1 S) as [_ [A C]]. split.
    + intros Hne. apply N.
      assert (D : {ev = ev_clear} + {ev <> ev_clear}).
      { destruct ev; try (right; discriminate). left; reflexivity. }
      destruct D as [D|D].
      * rewrite (C D). discriminate.
      * destruct (A D) as [more [-> _]].
        destruct (messages (view c)); [congruence|discriminate].
    + intros F. inversion F as [|? ? Hev Hevs]; subst.
      destruct (A Hev) as [m1 [E1 L1]]. destruct (G Hevs) as [m2 [E2 L2]].
      exists (m1 ++ m2). rewrite E2, E1, <- app_assoc.
      split; [reflexivity|]. rewrite length_app. simpl length. lia.
Qed.

Lemma conversation_only_grows_witness :
  run Sample.runtime [ev_chat; ev_settle req_chat (Rejected None)]
    (typed (lit "hello"))
  = Ok {| app := processLogs (lit "hello") Sample.initial;
          view := say role_assistant chat_failed
                    (say role_user (lit "hello") mounted) |} /\
  messages (say role_assistant chat_failed
              (say role_user (lit "hello") mounted)) <> [].
Proof.
  assert (R : run Sample.runtime
                [ev_chat; ev_settle req_chat (Rejected None)]
                (typed (lit "hello"))
              = Ok {| app := processLogs (lit "hello") Sample.initial;
                      view := say role_assistant chat_failed
                                (say role_user (lit "hello") mounted) |}).
  { vm_compute. reflexivity. }
  split; [exact R|].
  apply (proj1 (conversation_only_grows _ _ _ _ R)). discriminate.
Defined.

(** X20. The report is the answer of the last log analysis that
    answered: after any run it is the text that analysis returned, and it
    is what it was before when none answered.  Chat answers, the answers
    about a single event and failures of any kind never reach it; and a
    report, once there, is never emptied. *)
Theorem report_follows_log_answers (rt : Runtime) (evs : list Event)
  (c c' : Comp) :
  run rt evs c = Ok c' ->
  analysisOutput (view c') = last_report evs (analysisOutput (view c)) /\
  (Forall (fun ev => log_answer ev = None) evs ->
   analysisOutput (view c') = analysisOutput (view c)) /\
  (analysisOutput (view c) <> [] -> analysisOutput (view c') <> []).
Proof.
  intros R. pose proof (run_report rt evs c c' R) as E.
  split; [exact E|]. split.
  - intros F. rewrite E. apply last_report_unanswered; exact F.
  - intros H H'. rewrite E in H'. apply last_report_empty in H'.
    apply H, H'.
Qed.

Lemma report_follows_log_answers_witness :
  run Sample.runtime [ev_chat; ev_settle req_chat (Responded None)]
    (typed (lit "hello"))
  = Ok {| app := processLogs (lit "hello") Sample.initial;
          view := say role_assistant (analysis_of None)
                    (say role_user (lit "hello") mounted) |} /\
  analysisOutput (say role_assistant (analysis_of None)
                    (say role_user (lit "hello") mounted))
  = analysisOutput (view (typed (lit "hello"))).
Proof.
  assert (R : run Sample.runtime
                [ev_chat; ev_settle req_chat (Responded None)]
                (typed (lit "hello"))
              = Ok {| app := processLogs (lit "hello") Sample.initial;
                      view := say role_assistant (analysis_of None)
                                (say role_user (lit "hello") mounted) |}).
  { vm_compute. reflexivity. }
  split; [exact R|].
  destruct (report_follows_log_answers _ _ _ _ R) as [_ [U _]].
  apply U. repeat constructor.
Defined.

(** X21. When the export gives a file.  From the moment the component
    is mounted, the export button produces a report exactly when some log
    analysis has answered; the report then carries the text of the last
    such answer, together with the size and the statistics of the batch
    held at the time of the export, whichever batch the answer was about. *)
Theorem export_needs_an_answer (rt : Runtime) (evs : list Event)
  (st : State) (c' : Comp) :
  run rt evs {| app := st; view := mounted |} = Ok c' ->
  (snd (handleExportJson rt c') = None <->
   Forall (fun ev => log_answer ev = None) evs) /\
  (forall rep, snd (handleExportJson rt c') = Some rep ->
     analysis rep = last_report evs [] /\
     analysis rep <> [] /\
     logs_analyzed rep = length (logs (app c')) /\
     report_stats rep = stats (logs (app c')) /\
     report_timestamp rep
     = toISOString rt (clock rt (clock_reads (app c')))).
Proof.
  intros R. pose proof (run_report rt evs _ c' R) as E. cbn in E.
  unfold handleExportJson.
  destruct (analysisOutput (view c')) as [|ch s] eqn:A; cbn [truthy negb snd].
  - symmetry in E. apply last_report_empty in E. split.
    + split; [intros _; apply E|reflexivity].
    + intros rep H. discriminate.
  - split.
    + split; [discriminate|]. intros F.
      rewrite (last_report_unanswered _ _ F) in E. discriminate.
    + intros rep H. injection H as <-. cbn.
      repeat split; [exact E|discriminate].
Qed.

Lemma export_needs_an_answer_witness :
  run Sample.runtime [ev_settle req_logs (Responded None)]
    {| app := Sample.initial; view := mounted |}
  = Ok (on_view (settle req_logs (Responded None))
          {| app := Sample.initial; view := mounted |}) /\
  snd (handleExportJson Sample.runtime
         (on_view (settle req_logs (Responded None))
            {| app := Sample.initial; view := mounted |})) <> None.
Proof.
  assert (R : run Sample.runtime [ev_settle req_logs (Responded None)]
                {| app := Sample.initial; view := mounted |}
              = Ok (on_view (settle req_logs (Responded None))
                      {| app := Sample.initial; view := mounted |})).
  { reflexivity. }
  split; [exact R|].
  destruct (export_needs_an_answer _ _ _ _ R) as [[N _] _].
  intros H. specialize (N H). inversion N as [|? ? X _]. discriminate X.
Defined.

(** X22. The analysis of a single event, from the button to the end
    of the call.  On a blank input nothing happens.  Otherwise the analyser
    is asked once, about the event text under the heading SINGLE EVENT
    ANALYSIS REQUEST and without any of the batch; the batch, the clock and
    the report are left as they were; the conversation gains the user's
    line and then the assistant's answer, or its error line; the input is
    emptied, the dialog closed and the chat tab shown. *)
Theorem single_event_round (rt : Runtime) (c : Comp) (o : Outcome) :
  (truthy (trim (singleLogInput (view c))) = false ->
   handleSingleLogAnalysis c = c) /\
  (truthy (trim (singleLogInput (view c))) = true ->
   exists c2,
     run rt [ev_single; ev_settle req_single o] c = Ok c2 /\
     app c2 = processLogs (single_request (singleLogInput (view c))) (app c) /\
     messages (view c2)
     = messages (view c)
       ++ [{| role := role_user;
              content := lit "Analyze this single event: "
                         ++ singleLogInput (view c) |};
           {| role := role_assistant; content := single_reply o |}] /\
     analysisOutput (view c2) = analysisOutput (view c) /\
     singleLogInput (view c2) = [] /\
     showSingleLogModal (view c2) = false /\
     activeTab (view c2) = tab_chat /\
     isAnalyzing (view c2) = false).
Proof.
  split; intros H.
  - unfold handleSingleLogAnalysis. rewrite H. reflexivity.
  - cbn [run react bind]. unfold handleSingleLogAnalysis. rewrite H.
    cbn [negb]. eexists. split; [reflexivity|].
    destruct o as [text|msg]; cbn; rewrite <- app_assoc; repeat split.
Qed.

End UiFacts.

(* ===================================================================== *)
(** ** The threat distribution *)
(* ===================================================================== *)

Module ChartFacts.

Import Charts DashboardMore.

Lemma brute_force_value (logs : list LogEntry) :
  value_of "Brute Force" (threatData (stats logs))
  = if Z.of_nat (length (filter is_failed logs)) >? 10 then 40 else 10.
Proof. reflexivity. Qed.

(** X23. The threat distribution depends on the batch only through
    whether more than ten of its entries count as failed.  Its values add
    up to 100 in that case and to 70 otherwise; the names, the colours and
    every value but that of Brute Force are the same for all batches; the
    value of Brute Force never goes down when entries are added to the
    batch; and the chart does not depend on the order of the batch. *)
Theorem threat_chart (a b : list LogEntry) :
  total_value (threatData (stats a))
  = (if Z.of_nat (Stats.failed (stats a)) >? 10 then 100 else 70) /\
  map (fun s => (name s, color s)) (threatData (stats a))
  = map (fun s => (name s, color s)) (threatData (stats b)) /\
  (forall n, n <> "Brute Force" ->
     value_of n (threatData (stats a)) = value_of n (threatData (stats b))) /\
  value_of "Brute Force" (threatData (stats a))
  <= value_of "Brute Force" (threatData (stats (a ++ b))) /\
  (Permutation a b -> threatData (stats a) = threatData (stats b)).
Proof.
  split; [|split; [|split; [|split]]].
  - unfold threatData, total_value. cbn [fold_right value].
    destruct (Z.of_nat (Stats.failed (stats a)) >? 10); reflexivity.
  - reflexivity.
  - intros n Hn. unfold value_of, threatData. cbn [find name].
    destruct (str_eqb (lit "Brute Force") (lit n)) eqn:E.
    + exfalso. apply Hn. apply str_eqb_eq in E.
      apply (f_equal Sample.unlit) in E. rewrite !unlit_lit in E.
      symmetry; exact E.
    + reflexivity.
  - rewrite !brute_force_value, filter_app, length_app.
    destruct (Z.gtb_spec (Z.of_nat (length (filter is_failed a))) 10);
      destruct (Z.gtb_spec
                  (Z.of_nat (length (filter is_failed a)
                             + length (filter is_failed b))) 10); lia.
  - intros P. rewrite (stats_perm a b P). reflexivity.
Qed.

End ChartFacts.
